(** * Hermes2D assembly engine: a shallow embedding of
      [hermes2d/src/discrete_problem.cpp]

    The development follows the source file function by function.  Part I
    holds the embedding (one module per subsystem of [DiscreteProblem<Scalar>]),
    Part II the properties proved about it.

    Conventions.
    - [Scalar] is the template parameter of [DiscreteProblem<Scalar>]
      (instantiated with [double] and [std::complex<double>] in the source).
      It is kept abstract: the embedding only uses the operations the source
      applies to it, collected in the class [ScalarOps].  No algebraic law is
      assumed of them, so every generic theorem also holds for machine
      arithmetic.  Concrete runs use the instance over [Q].
    - [unsigned int] counters whose wrap-around the source relies on are
      integers in [Z] reduced with [wrap32].
    - A call of [error(...)] aborts the assembly: functions that can reach one
      return an [outcome]. *)

From Stdlib Require Import List ZArith Lia Bool QArith Qabs PeanoNat.
From Stdlib Require Strings.String.
Import ListNotations.
Close Scope Q_scope.

Set Implicit Arguments.
Set Warnings "-register-all".

(** ** Outcomes of fallible code *)

(** The calls of [error(...)] of the source that the embedding can reach. *)
Inductive fatal_error : Type :=
| MoreThanTwoSons          (* insert_into_multimesh_tree *)
| TransformationNotFound   (* find_node *)
| OnlyRightSon             (* update_ns_subtree *)
| NumNeighborsMismatch     (* assemble_DG_forms *)
| NullDereference          (* a NULL pointer is dereferenced *)
| OutOfRange.              (* an array is read past its end *)

Inductive outcome (A : Type) : Type :=
| Done (a : A)
| Fatal (e : fatal_error)
| OutOfFuel.

Arguments Done {A} a.
Arguments Fatal {A} e.
Arguments OutOfFuel {A}.

Definition bind {A B : Type} (x : outcome A) (f : A -> outcome B) : outcome B :=
  match x with
  | Done a => f a
  | Fatal e => Fatal e
  | OutOfFuel => OutOfFuel
  end.

Notation "x <- c1 ;; c2" := (bind c1 (fun x => c2))
  (at level 61, c1 at next level, right associativity).

(** ** Machine integers *)

Definition wrap32 (z : Z) : Z := z mod 4294967296.

(** ** Scalars *)

(** The operations [discrete_problem.cpp] applies to values of type [Scalar]
    and [double].  [abs_lt_1e12 x] is [fabs(x) < 1e-12], [abs_gt_1e12 x] is
    [std::abs(x) > 1e-12], [abs_lt_1e6 x] is [std::abs(x) < 1e-6];
    [rel_error s c] is [std::abs(s - c) / std::abs(s)] and [tol_lt e tol] is
    [e < tol] on [double]. *)
Class ScalarOps (Scalar : Type) : Type := {
  s_zero : Scalar;
  s_one : Scalar;
  s_half : Scalar;
  s_add : Scalar -> Scalar -> Scalar;
  s_mul : Scalar -> Scalar -> Scalar;
  s_neg : Scalar -> Scalar;
  abs_lt_1e12 : Scalar -> bool;
  abs_gt_1e12 : Scalar -> bool;
  abs_lt_1e6 : Scalar -> bool;
  rel_error : Scalar -> Scalar -> Scalar;
  tol_lt : Scalar -> Scalar -> bool
}.

(** Exact rational arithmetic, used to run the embedding on concrete inputs.
    It stands for [double] only where no operation rounds: the runs below
    use integers and dyadic fractions, and compare against a tolerance only
    values that are far from it. *)
Definition Qlt_bool (a b : Q) : bool :=
  match Qcompare a b with Lt => true | _ => false end.

#[export] Instance QScalar : ScalarOps Q := {
  s_zero := 0%Q;
  s_one := 1%Q;
  s_half := (1 # 2)%Q;
  s_add := fun a b => Qred (Qplus a b);
  s_mul := fun a b => Qred (Qmult a b);
  s_neg := fun a => Qred (Qopp a);
  abs_lt_1e12 := fun a => Qlt_bool (Qabs a) (1 # 1000000000000)%Q;
  abs_gt_1e12 := fun a => Qlt_bool (1 # 1000000000000)%Q (Qabs a);
  abs_lt_1e6 := fun a => Qlt_bool (Qabs a) (1 # 1000000)%Q;
  rel_error := fun s c => Qred (Qdiv (Qabs (Qminus s c)) (Qabs s));
  tol_lt := Qlt_bool
}.

(** ** Vectors of the source ([Hermes::vector], [std::vector]) as lists *)

(** [v.back()] of a vector of vectors, and the two ways the source changes it.
    On an empty outer vector [back()] is undefined in C++; the embedding
    leaves the vector unchanged there (the source never does this). *)
Definition back_push {A : Type} (v : list (list A)) (x : A) : list (list A) :=
  match v with
  | [] => []
  | _ => removelast v ++ [last v [] ++ [x]]
  end.

Definition back_pop {A : Type} (v : list (list A)) : list (list A) :=
  match v with
  | [] => []
  | _ => removelast v ++ [removelast (last v [])]
  end.

Definition push_back {A : Type} (v : list A) (x : A) : list A := v ++ [x].

Definition pop_back {A : Type} (v : list A) : list A := removelast v.

(** [erase v i] removes the element at index [i] and shifts the rest down. *)
Fixpoint erase {A : Type} (v : list A) (i : nat) : list A :=
  match v, i with
  | [], _ => []
  | _ :: v', O => v'
  | x :: v', S i' => x :: erase v' i'
  end.

(** * Part I: the embedding *)

(** ** Neighbor resolution and the multimesh tree *)

Module Multimesh.

(** [class NeighborNode]: a transformation label and up to two sons.  The
    [parent] pointer of the source is only written by the constructor and
    never read in [discrete_problem.cpp]; it is not represented. *)
Inductive NeighborNode : Type :=
| Node (transformation : nat) (left_son right_son : option NeighborNode).

Definition get_transformation (n : NeighborNode) : nat :=
  match n with Node t _ _ => t end.

Definition get_left_son (n : NeighborNode) : option NeighborNode :=
  match n with Node _ l _ => l end.

Definition get_right_son (n : NeighborNode) : option NeighborNode :=
  match n with Node _ _ r => r end.

(** [new NeighborNode(parent, transformation)]: both sons are NULL. *)
Definition new_NeighborNode (transformation : nat) : NeighborNode :=
  Node transformation None None.

(** [insert_into_multimesh_tree(node, transformations, transformation_count)].
    The array and its remaining length are the list [transformations]; the
    source updates [node] in place, the embedding returns the updated node. *)
Fixpoint insert_into_multimesh_tree (node : NeighborNode)
    (transformations : list nat) : outcome NeighborNode :=
  match transformations with
  | [] => Done node
  | t0 :: rest =>
    match node with
    | Node lbl None None =>
        l <- insert_into_multimesh_tree (new_NeighborNode t0) rest ;;
        Done (Node lbl (Some l) None)
    | Node lbl None (Some _) =>
        (* the else branch reads node->get_left_son()->get_transformation() *)
        Fatal NullDereference
    | Node lbl (Some l) r =>
        if Nat.eqb (get_transformation l) t0 then
          l' <- insert_into_multimesh_tree l rest ;;
          Done (Node lbl (Some l') r)
        else
          match r with
          | Some rn =>
              if Nat.eqb (get_transformation rn) t0 then
                r' <- insert_into_multimesh_tree rn rest ;;
                Done (Node lbl (Some l) (Some r'))
              else Fatal MoreThanTwoSons
          | None =>
              r' <- insert_into_multimesh_tree (new_NeighborNode t0) rest ;;
              Done (Node lbl (Some l) (Some r'))
          end
    end
  end.

(** [NeighborSearch<Scalar>::NeighborEdgeInfo]. *)
Record NeighborEdgeInfo : Type := {
  local_num_of_edge : nat;
  orientation : bool
}.

(** One neighbor of a [NeighborSearch].  The source keeps the parallel arrays
    [neighbors], [neighbor_edges], [central_transformations] with
    [central_n_trans], and [neighbor_transformations] with [neighbor_n_trans],
    all of length [n_neighbors]; the embedding keeps one record per index. *)
Record Neighbor : Type := {
  neighb_el : nat;                       (* the Element* *)
  neighbor_edge : NeighborEdgeInfo;
  central_transformations : list nat;
  neighbor_transformations : list nat
}.

Inductive ElementMode : Type := HERMES_MODE_TRIANGLE | HERMES_MODE_QUAD.

(** The fields of [NeighborSearch<Scalar>] that [discrete_problem.cpp] reads
    while it reconciles the searches of one edge. *)
Record NeighborSearch : Type := {
  neighbors : list Neighbor;
  active_edge : nat;
  central_el_mode : ElementMode
}.

Definition n_neighbors (ns : NeighborSearch) : Z :=
  Z.of_nat (length (neighbors ns)).

Definition central_n_trans (nb : Neighbor) : nat :=
  length (central_transformations nb).

Definition set_neighbors (ns : NeighborSearch) (l : list Neighbor) : NeighborSearch :=
  {| neighbors := l; active_edge := active_edge ns;
     central_el_mode := central_el_mode ns |}.

(** Modelled from the spec: [NeighborSearch::delete_neighbor], defined in
    neighbor.cpp.  It removes the neighbor at [position] from every parallel
    array and decrements [n_neighbors]. *)
Definition delete_neighbor (ns : NeighborSearch) (position : nat) : NeighborSearch :=
  set_neighbors ns (erase (neighbors ns) position).

(** [build_multimesh_tree]: the loop over [j] of one search. *)
Fixpoint insert_all (node : NeighborNode) (paths : list (list nat))
    : outcome NeighborNode :=
  match paths with
  | [] => Done node
  | p :: ps =>
      node' <- insert_into_multimesh_tree node p ;;
      insert_all node' ps
  end.

(** The test [ns->n_neighbors == 1 && ns->central_n_trans[0] == 0]. *)
Definition single_untransformed (ns : NeighborSearch) : bool :=
  match neighbors ns with
  | [nb] => Nat.eqb (central_n_trans nb) 0
  | _ => false
  end.

(** [build_multimesh_tree(root, neighbor_searches)].  A [LightArray] slot is
    [None] when [present(i)] is false. *)
Fixpoint build_multimesh_tree (root : NeighborNode)
    (neighbor_searches : list (option NeighborSearch)) : outcome NeighborNode :=
  match neighbor_searches with
  | [] => Done root
  | None :: rest => build_multimesh_tree root rest
  | Some ns :: rest =>
      if single_untransformed ns then build_multimesh_tree root rest
      else
        root' <- insert_all root (map central_transformations (neighbors ns)) ;;
        build_multimesh_tree root' rest
  end.

(** [find_node(transformations, transformation_count, node)]. *)
Fixpoint find_node (transformations : list nat) (node : NeighborNode)
    : outcome NeighborNode :=
  match transformations with
  | [] => Done node
  | t0 :: rest =>
      let try_right :=
        match get_right_son node with
        | Some r =>
            if Nat.eqb (get_transformation r) t0 then find_node rest r
            else Fatal TransformationNotFound
        | None => Fatal TransformationNotFound
        end in
      match get_left_son node with
      | Some l =>
          if Nat.eqb (get_transformation l) t0 then find_node rest l
          else try_right
      | None => try_right
      end
  end.

(** The label pushed on the running neighbor transformation for the tree label
    [t]: the same expression in the leaf and in the inner-node branch of
    [traverse_multimesh_subtree]. *)
Definition neighbor_label (edge_info : NeighborEdgeInfo) (active_edge : nat)
    (mode : ElementMode) (t : nat) : nat :=
  match mode with
  | HERMES_MODE_TRIANGLE =>
      if (Nat.eqb active_edge 0 && Nat.eqb t 0)
         || (Nat.eqb active_edge 1 && Nat.eqb t 1)
         || (Nat.eqb active_edge 2 && Nat.eqb t 2)
      then (if negb (orientation edge_info) then local_num_of_edge edge_info
            else (local_num_of_edge edge_info + 1) mod 3)
      else (if orientation edge_info then local_num_of_edge edge_info
            else (local_num_of_edge edge_info + 1) mod 3)
  | HERMES_MODE_QUAD =>
      if (Nat.eqb active_edge 0 && (Nat.eqb t 0 || Nat.eqb t 6))
         || (Nat.eqb active_edge 1 && (Nat.eqb t 1 || Nat.eqb t 4))
         || (Nat.eqb active_edge 2 && (Nat.eqb t 2 || Nat.eqb t 7))
         || (Nat.eqb active_edge 3 && (Nat.eqb t 3 || Nat.eqb t 5))
      then (if negb (orientation edge_info) then local_num_of_edge edge_info
            else (local_num_of_edge edge_info + 1) mod 4)
      else (if orientation edge_info then local_num_of_edge edge_info
            else (local_num_of_edge edge_info + 1) mod 4)
  end.

(** [traverse_multimesh_subtree]: the two running vectors of vectors are
    threaded through the recursion. *)
Fixpoint traverse_multimesh_subtree (node : NeighborNode)
    (running_central running_neighbor : list (list nat))
    (edge_info : NeighborEdgeInfo) (active_edge : nat) (mode : ElementMode)
    : list (list nat) * list (list nat) :=
  match node with
  | Node t None None =>
      (* a leaf *)
      let new_central := last running_central [] in
      let new_neighbor := last running_neighbor [] in
      let rc := push_back (back_push running_central t) new_central in
      let rn := push_back
                  (back_push running_neighbor
                     (neighbor_label edge_info active_edge mode t))
                  new_neighbor in
      (rc, rn)
  | Node t l r =>
      let rc0 := back_push running_central t in
      let rn0 := back_push running_neighbor
                   (neighbor_label edge_info active_edge mode t) in
      let '(rc1, rn1) :=
        match l with
        | Some ln => traverse_multimesh_subtree ln rc0 rn0 edge_info active_edge mode
        | None => (rc0, rn0)
        end in
      let '(rc2, rn2) :=
        match r with
        | Some rnode => traverse_multimesh_subtree rnode rc1 rn1 edge_info active_edge mode
        | None => (rc1, rn1)
        end in
      (back_pop rc2, back_pop rn2)
  end.

(** The loop "Insert new neighbors" of [update_ns_subtree]. *)
Fixpoint insert_new_neighbors (neighbor : nat) (edge_info : NeighborEdgeInfo)
    (running_central running_neighbor : list (list nat)) : list Neighbor :=
  match running_central with
  | [] => []
  | c :: cs =>
      {| neighb_el := neighbor; neighbor_edge := edge_info;
         central_transformations := c;
         neighbor_transformations := hd [] running_neighbor |}
      :: insert_new_neighbors neighbor edge_info cs (tl running_neighbor)
  end.

(** [update_ns_subtree(ns, node, ith_neighbor)].  The result is the updated
    search and the returned [unsigned int]: [0], or [-1] converted to
    [unsigned int]. *)
Definition update_ns_subtree (ns : NeighborSearch) (node : NeighborNode)
    (ith_neighbor : nat) : outcome (NeighborSearch * Z) :=
  match get_left_son node with
  | None =>
      match get_right_son node with
      | Some _ => Fatal OnlyRightSon
      | None => Done (ns, 0%Z)
      end
  | Some l =>
      match nth_error (neighbors ns) ith_neighbor with
      | None => Fatal OutOfRange
      | Some nb =>
          let neighbor := neighb_el nb in
          let edge_info := neighbor_edge nb in
          let running_central := [central_transformations nb] in
          let running_neighbor := [neighbor_transformations nb] in
          let ns1 := delete_neighbor ns ith_neighbor in
          let '(rc1, rn1) :=
            traverse_multimesh_subtree l running_central running_neighbor
              edge_info (active_edge ns) (central_el_mode ns) in
          let '(rc2, rn2) :=
            match get_right_son node with
            | Some r =>
                traverse_multimesh_subtree r rc1 rn1
                  edge_info (active_edge ns) (central_el_mode ns)
            | None => (rc1, rn1)
            end in
          let rc3 := pop_back rc2 in
          let rn3 := pop_back rn2 in
          Done (set_neighbors ns1
                  (neighbors ns1 ++ insert_new_neighbors neighbor edge_info rc3 rn3),
                wrap32 (-1))
      end
  end.

(** The [for] loop of [update_neighbor_search]; [i] and [num_neighbors] are
    [unsigned int], so [i += added] with [added = (unsigned) -1] wraps.  One
    unit of [fuel] is one iteration. *)
Fixpoint update_neighbor_search_loop (fuel : nat) (ns : NeighborSearch)
    (multimesh_tree : NeighborNode) (i num_neighbors : Z)
    : outcome NeighborSearch :=
  if (i <? num_neighbors)%Z then
    match fuel with
    | O => OutOfFuel
    | S fuel' =>
        match nth_error (neighbors ns) (Z.to_nat i) with
        | None => Fatal OutOfRange
        | Some nb =>
            node <- find_node (central_transformations nb) multimesh_tree ;;
            r <- update_ns_subtree ns node (Z.to_nat i) ;;
            let '(ns', added) := r in
            let i' := wrap32 (i + added) in
            let num_neighbors' := wrap32 (num_neighbors + added) in
            update_neighbor_search_loop fuel' ns' multimesh_tree
              (wrap32 (i' + 1)) num_neighbors'
        end
    end
  else Done ns.

(** [update_neighbor_search(ns, multimesh_tree)]; every iteration either
    advances [i] or lowers [num_neighbors], so [n_neighbors] iterations are
    enough (see [update_neighbor_search_total]). *)
Definition update_neighbor_search (ns : NeighborSearch)
    (multimesh_tree : NeighborNode) : outcome NeighborSearch :=
  update_neighbor_search_loop (length (neighbors ns)) ns multimesh_tree
    0%Z (n_neighbors ns).

(** The loop of [assemble_DG_forms] that updates every search and compares
    the neighbor counts; [num_neighbors] starts at [0]. *)
Fixpoint update_and_check (neighbor_searches : list (option NeighborSearch))
    (root : NeighborNode) (num_neighbors : Z)
    : outcome (list (option NeighborSearch) * Z) :=
  match neighbor_searches with
  | [] => Done ([], num_neighbors)
  | None :: rest =>
      r <- update_and_check rest root num_neighbors ;;
      Done (None :: fst r, snd r)
  | Some ns :: rest =>
      ns' <- update_neighbor_search ns root ;;
      let num_neighbors1 :=
        if (num_neighbors =? 0)%Z then n_neighbors ns' else num_neighbors in
      if negb (n_neighbors ns' =? num_neighbors1)%Z then Fatal NumNeighborsMismatch
      else
        r <- update_and_check rest root num_neighbors1 ;;
        Done (Some ns' :: fst r, snd r)
  end.

(** The head of [assemble_DG_forms]: the tree is created and built, then the
    searches are updated and checked. *)
Definition reconcile_neighbor_searches
    (neighbor_searches : list (option NeighborSearch))
    : outcome (NeighborNode * list (option NeighborSearch) * Z) :=
  root <- build_multimesh_tree (new_NeighborNode 0) neighbor_searches ;;
  r <- update_and_check neighbor_searches root 0%Z ;;
  Done (root, fst r, snd r).

(** *** Reference notions used to state the properties *)

(** The labels on the way from a son of the node down to each leaf, sons
    visited left before right: the depth-first enumeration of the leaves. *)
Fixpoint leaf_paths (node : NeighborNode) : list (list nat) :=
  match node with
  | Node t None None => [[t]]
  | Node t l r =>
      map (cons t)
        ((match l with Some ln => leaf_paths ln | None => [] end)
           ++ (match r with Some rn => leaf_paths rn | None => [] end))
  end.

(** The leaves below a node, as paths that start at its sons. *)
Definition leaf_paths_below (node : NeighborNode) : list (list nat) :=
  (match get_left_son node with Some l => leaf_paths l | None => [] end)
    ++ (match get_right_son node with Some r => leaf_paths r | None => [] end).

Definition is_leaf (node : NeighborNode) : bool :=
  match node with
  | Node _ None None => true
  | _ => false
  end.

(** [occurs node p]: following the labels [p] from [node] leads to a node. *)
Fixpoint occurs (node : NeighborNode) (p : list nat) : Prop :=
  match p with
  | [] => True
  | t :: q =>
      (exists l, get_left_son node = Some l /\ get_transformation l = t /\ occurs l q)
      \/ (exists r, get_right_son node = Some r /\ get_transformation r = t /\ occurs r q)
  end.

(** [prefix_of p q]: [p] is an initial segment of [q]. *)
Definition prefix_of (p q : list nat) : Prop := exists s, q = p ++ s.


(** The central-side transformation paths of all searches of an edge. *)
Definition all_central_paths (neighbor_searches : list (option NeighborSearch))
    : list (list nat) :=
  flat_map (fun slot => match slot with
                        | Some ns => map central_transformations (neighbors ns)
                        | None => []
                        end)
           neighbor_searches.

(** The shape every tree built by [insert_into_multimesh_tree] has: a right
    son only beside a left son, and with a different label. *)
Fixpoint well_formed (node : NeighborNode) : Prop :=
  match node with
  | Node _ None None => True
  | Node _ None (Some _) => False
  | Node _ (Some l) None => well_formed l
  | Node _ (Some l) (Some r) =>
      get_transformation l <> get_transformation r /\ well_formed l /\ well_formed r
  end.

End Multimesh.

(** ** Assembly of the volume matrix forms of one state *)

Module Assembly.

Section VolumeMatrixForms.

Context {Scalar : Type} {ops : ScalarOps Scalar}.

(** [AsmList<Scalar>]: the parallel arrays [idx], [dof] and [coef] of length
    [cnt], kept as one record per index. *)
Record AsmEntry : Type := {
  idx : Z;
  dof : Z;
  coef : Scalar
}.

Definition AsmList : Type := list AsmEntry.

Definition cnt (al : AsmList) : nat := length al.

(** The fields of [MatrixFormVol<Scalar>] that the assembly reads; [form_i] and
    [form_j] are the members [i] and [j]. *)
Record MatrixFormVol : Type := {
  form_i : nat;
  form_j : nat;
  sym : Z;
  scaling_factor : Scalar;
  areas : list String.string
}.

(** The local dense block [Scalar **matrix_buffer], indexed [row][column]. *)
Definition Buffer : Type := nat -> nat -> Scalar.

Definition buffer_set (b : Buffer) (i j : nat) (v : Scalar) : Buffer :=
  fun i' j' => if Nat.eqb i' i && Nat.eqb j' j then v else b i' j'.

(** The [m] x [n] upper-left part of a buffer, row by row. *)
Definition block_of (b : Buffer) (m n : nat) : list (list Scalar) :=
  map (fun i => map (fun j => b i j) (seq 0 n)) (seq 0 m).

(** Modelled from the spec: [chsgn(matrix, m, n)] of hermes_common changes the
    sign of the [m] x [n] block in place. *)
Definition chsgn (b : Buffer) (m n : nat) : Buffer :=
  fun i j => if Nat.ltb i m && Nat.ltb j n then s_neg (b i j) else b i j.

(** Modelled from the spec: [transpose(matrix, m, n)] of hermes_common
    transposes the [m] x [n] block in place; entry [j][i] of the result is
    entry [i][j] of the block, cells outside the [n] x [m] result keep their
    content. *)
Definition transpose (b : Buffer) (m n : nat) : Buffer :=
  fun i j => if Nat.ltb i n && Nat.ltb j m then b j i else b i j.

(** One call [mat->add(m, n, block, rows, cols)] on the matrix sink. *)
Record MatAdd : Type := {
  add_rows : list Z;
  add_cols : list Z;
  add_block : list (list Scalar)
}.

(** Modelled from the spec: [SparseMatrix::add(m, n, mat, rows, cols)] adds
    [mat[i][j]] at [(rows[i], cols[j])] for every pair of nonnegative
    indices.  [contributions e] lists these scalar additions in order. *)
Definition contributions (e : MatAdd) : list (Z * Z * Scalar) :=
  flat_map
    (fun rv : Z * list Scalar =>
       flat_map
         (fun cv : Z * Scalar =>
            if (0 <=? fst rv)%Z && (0 <=? fst cv)%Z
            then [(fst rv, fst cv, snd cv)] else [])
         (combine (add_cols e) (snd rv)))
    (combine (add_rows e) (add_block e)).

(** The values added at the global entry [(r, c)] by a sequence of calls. *)
Definition added_at (log : list MatAdd) (r c : Z) : list Scalar :=
  flat_map
    (fun x : Z * Z * Scalar =>
       if (fst (fst x) =? r)%Z && (snd (fst x) =? c)%Z then [snd x] else [])
    (flat_map contributions log).

(** What the source leaves abstract here: the constant [HERMES_ANY], the
    marker conversion table, [eval_form] on the current state as a function of
    the form and of the active shapes of [fu] and [fv], and the content of the
    storage that [new_matrix] returns (it is not initialised). *)
Variable HERMES_ANY : String.string.
Variable get_internal_marker : String.string -> Z.
Variable eval_form : MatrixFormVol -> Z -> Z -> Scalar.
Variable new_matrix : nat -> Buffer.

(** The members of [DiscreteProblem] this function reads and writes, with the
    calls received by the matrix sink [mat] so far. *)
Record State : Type := {
  matrix_buffer : Buffer;
  matrix_buffer_dim : nat;
  mat_log : list MatAdd
}.

(** [get_matrix_buffer(n)]. *)
Definition get_matrix_buffer (n : nat) (st : State) : State :=
  if n <=? matrix_buffer_dim st then st
  else {| matrix_buffer := new_matrix n; matrix_buffer_dim := n;
          mat_log := mat_log st |}.

Definition set_buffer (st : State) (b : Buffer) : State :=
  {| matrix_buffer := b; matrix_buffer_dim := matrix_buffer_dim st;
     mat_log := mat_log st |}.

Definition mat_add (st : State) (rows cols : list Z) (m n : nat) : State :=
  {| matrix_buffer := matrix_buffer st; matrix_buffer_dim := matrix_buffer_dim st;
     mat_log := mat_log st
                ++ [{| add_rows := rows; add_cols := cols;
                       add_block := block_of (matrix_buffer st) m n |}] |}.

(** The loop over [mfv->areas]. *)
Definition assemble_this_form (mfv : MatrixFormVol) (marker : Z) : bool :=
  existsb (fun a => String.eqb a HERMES_ANY || (marker =? get_internal_marker a)%Z)
          (areas mfv).

(** The value written to the local block for row entry [em] (index [i] of
    [al[m]]) and column entry [en] (index [j] of [al[n]]). *)
Definition local_value (mfv : MatrixFormVol) (block_scaling_coeff : Scalar)
    (em en : AsmEntry) : Scalar :=
  if abs_gt_1e12 (coef em) && abs_gt_1e12 (coef en)
  then s_mul (s_mul (s_mul block_scaling_coeff (eval_form mfv (idx en) (idx em)))
                    (coef en))
             (coef em)
  else s_zero.

(** The loop over [j] of the unsymmetric branch. *)
Definition unsymmetric_row (mfv : MatrixFormVol) (block_scaling_coeff : Scalar)
    (mat_present : bool) (aln : AsmList) (i : nat) (em : AsmEntry) (b : Buffer)
    : Buffer :=
  fold_left
    (fun b' (jen : nat * AsmEntry) =>
       let '(j, en) := jen in
       if (0 <=? dof en)%Z then
         if mat_present then buffer_set b' i j (local_value mfv block_scaling_coeff em en)
         else b'
       else b')
    (combine (seq 0 (cnt aln)) aln) b.

(** The loop over [j] of the symmetric branch. *)
Definition symmetric_row (mfv : MatrixFormVol) (block_scaling_coeff : Scalar)
    (mat_present : bool) (aln : AsmList) (i : nat) (em : AsmEntry) (b : Buffer)
    : Buffer :=
  fold_left
    (fun b' (jen : nat * AsmEntry) =>
       let '(j, en) := jen in
       if Nat.ltb j i && (0 <=? dof en)%Z then b'
       else if (0 <=? dof en)%Z then
         if mat_present then
           let val := local_value mfv block_scaling_coeff em en in
           buffer_set (buffer_set b' j i val) i j val
         else b'
       else b')
    (combine (seq 0 (cnt aln)) aln) b.

(** The body of the loop over [i]: the row is computed, then the local block
    is inserted, then its (anti-)symmetric counterpart. *)
Definition row_step (mfv : MatrixFormVol) (block_scaling_coeff : Scalar)
    (mat_present tra sym_block : bool) (alm aln : AsmList)
    (st : State) (iem : nat * AsmEntry) : State :=
  let '(i, em) := iem in
  if negb tra && (dof em <? 0)%Z then st
  else
    let b1 :=
      if negb sym_block
      then unsymmetric_row mfv block_scaling_coeff mat_present aln i em (matrix_buffer st)
      else symmetric_row mfv block_scaling_coeff mat_present aln i em (matrix_buffer st) in
    let st1 := set_buffer st b1 in
    let st2 :=
      if mat_present
      then mat_add st1 (map dof alm) (map dof aln) (cnt alm) (cnt aln)
      else st1 in
    if tra then
      let b2 := if (sym mfv <? 0)%Z
                then chsgn (matrix_buffer st2) (cnt alm) (cnt aln)
                else matrix_buffer st2 in
      let b3 := transpose b2 (cnt alm) (cnt aln) in
      let st3 := set_buffer st2 b3 in
      if mat_present
      then mat_add st3 (map dof aln) (map dof alm) (cnt aln) (cnt alm)
      else st3
    else st2.

(** The body of the loop over [ww] for one form. *)
Definition assemble_volume_matrix_form
    (mat_present : bool) (block_weights : option (nat -> nat -> Scalar))
    (isempty : list bool) (marker : Z) (al : list AsmList)
    (st : State) (mfv : MatrixFormVol) : State :=
  let m := form_i mfv in
  let n := form_j mfv in
  if nth m isempty false || nth n isempty false then st
  else if abs_lt_1e12 (scaling_factor mfv) then st
  else if negb (assemble_this_form mfv marker) then st
  else
    let block_scaling_coeff :=
      match block_weights with
      | Some A => A m n
      | None => s_one
      end in
    if (match block_weights with
        | Some _ => abs_lt_1e12 block_scaling_coeff
        | None => false
        end) then st
    else
      let tra := negb (Nat.eqb m n) && negb (sym mfv =? 0)%Z in
      let sym_block := Nat.eqb m n && (sym mfv =? 1)%Z in
      let alm := nth m al [] in
      let aln := nth n al [] in
      let st0 := get_matrix_buffer (Nat.max (cnt alm) (cnt aln)) st in
      fold_left (row_step mfv block_scaling_coeff mat_present tra sym_block alm aln)
                (combine (seq 0 (cnt alm)) alm) st0.

(** [assemble_volume_matrix_forms]: the loop over [stage.mfvol]. *)
Definition assemble_volume_matrix_forms
    (mfvol : list MatrixFormVol)
    (mat_present : bool) (block_weights : option (nat -> nat -> Scalar))
    (isempty : list bool) (marker : Z) (al : list AsmList)
    (st : State) : State :=
  fold_left (assemble_volume_matrix_form mat_present block_weights isempty marker al)
            mfvol st.

(** The calls the sink receives while one form is assembled. *)
Definition calls_of_form
    (mat_present : bool) (block_weights : option (nat -> nat -> Scalar))
    (isempty : list bool) (marker : Z) (al : list AsmList)
    (st : State) (mfv : MatrixFormVol) : list MatAdd :=
  skipn (length (mat_log st))
        (mat_log (assemble_volume_matrix_form mat_present block_weights isempty
                    marker al st mfv)).

(** The sum of the values added at the global entry [(r, c)]. *)
Definition total_at (log : list MatAdd) (r c : Z) : Scalar :=
  fold_left s_add (added_at log r c) s_zero.

(** Entry [i][j] of the block of a call. *)
Definition block_entry (e : MatAdd) (i j : nat) : Scalar :=
  nth j (nth i (add_block e) []) s_zero.

End VolumeMatrixForms.

End Assembly.

(** *** A concrete state for running the assembly *)

Module AssemblyExample.

Import Assembly.

Module Literal.
Import Strings.String.
Definition any : string := "-1234"%string.
End Literal.

(** The wildcard area. *)
Definition example_any : String.string := Literal.any.

Definition example_marker_table (a : String.string) : Z := 0%Z.

(** Storage handed out by [new_matrix] is not initialised; cell [[i][j]] is
    given the recognisable content [1000 + 10 i + j]. *)
Definition example_new_matrix (n : nat) : Buffer (Scalar := Q) :=
  fun i j => (Z.of_nat (1000 + 10 * i + j) # 1)%Q.

(** The value of a form for the shapes [fu] and [fv]: not symmetric in the two
    shapes for a form with [sym = 0], symmetric otherwise. *)
Definition example_eval_form (mfv : MatrixFormVol (Scalar := Q)) (fu fv : Z) : Q :=
  if (sym mfv =? 0)%Z then ((1 + fu + 10 * fv)%Z # 1)%Q
  else ((100 + fu + fv)%Z # 1)%Q.

(** The state of the buffer when [assemble] starts the stages: it has just
    called [get_matrix_buffer(9)]. *)
Definition start_with (new_matrix : nat -> Buffer (Scalar := Q)) : State (Scalar := Q) :=
  get_matrix_buffer new_matrix 9
    {| matrix_buffer := fun _ _ => 0%Q; matrix_buffer_dim := 0; mat_log := [] |}.

Definition example_start : State (Scalar := Q) := start_with example_new_matrix.

(** An unconstrained shape with index [i], DOF [d] and coefficient 1. *)
Definition shape (i d : Z) : AsmEntry (Scalar := Q) :=
  {| idx := i; dof := d; coef := 1%Q |}.

Definition form (m n : nat) (s : Z) : MatrixFormVol (Scalar := Q) :=
  {| form_i := m; form_j := n; sym := s; scaling_factor := 1%Q;
     areas := [example_any] |}.

(** [assemble_volume_matrix_forms] with a matrix sink and without block
    weights, on a buffer whose fresh storage has the content [new_matrix]. *)
Definition run_forms_with (new_matrix : nat -> Buffer (Scalar := Q))
    (mfvol : list MatrixFormVol) (al : list AsmList) : State :=
  assemble_volume_matrix_forms example_any example_marker_table example_eval_form
    new_matrix mfvol true None (map (fun _ => false) al) 1%Z al (start_with new_matrix).

Definition run_forms (mfvol : list MatrixFormVol) (al : list AsmList) : State :=
  run_forms_with example_new_matrix mfvol al.

(** The calls received while the form [mfv] is assembled after the forms
    [before] on the same state. *)
Definition calls_after (before : list MatrixFormVol) (mfv : MatrixFormVol)
    (al : list AsmList) : list MatAdd :=
  calls_of_form example_any example_marker_table example_eval_form
    example_new_matrix true None (map (fun _ => false) al) 1%Z al
    (run_forms before al) mfv.

End AssemblyExample.

(** ** The sparse structure: reuse test and discovery pass *)

Module SparseStructure.

Section Structure.

Context {Scalar : Type} {ops : ScalarOps Scalar}.

(** One call [mat->pre_add_ij(row, col)].  [row_space] and [col_space] record
    the spaces whose assembly lists the two DOFs are read from: the call
    registers a nonzero of the block ([row_space], [col_space]). *)
Record PreAdd : Type := {
  row_space : nat;
  col_space : nat;
  row : Z;
  col : Z
}.

(** Modelled from the spec: the [SparseMatrix] backend
    {pre-register(row,col), allocate, add, zero}, defined outside
    discrete_problem.cpp.  [registered] is the nonzero pattern, [allocs]
    counts the calls of [alloc()], [entries] holds the values added since the
    storage was allocated or zeroed. *)
Record SparseMatrix : Type := {
  registered : list PreAdd;
  allocs : nat;
  entries : list (Z * Z * Scalar)
}.

Definition mat_free (m : SparseMatrix) : SparseMatrix :=
  {| registered := []; allocs := allocs m; entries := [] |}.

Definition pre_add_ij (m : SparseMatrix) (p : PreAdd) : SparseMatrix :=
  {| registered := registered m ++ [p]; allocs := allocs m; entries := entries m |}.

Definition mat_alloc (m : SparseMatrix) : SparseMatrix :=
  {| registered := registered m; allocs := S (allocs m); entries := [] |}.

Definition mat_zero (m : SparseMatrix) : SparseMatrix :=
  {| registered := registered m; allocs := allocs m; entries := [] |}.

(** Modelled from the spec: the [Vector] backend {allocate, add, zero}. *)
Record Vector : Type := {
  vec_size : Z;
  vec_allocs : nat;
  vec_entries : list (Z * Scalar)
}.

Definition vec_alloc (v : Vector) (ndof : Z) : Vector :=
  {| vec_size := ndof; vec_allocs := S (vec_allocs v); vec_entries := [] |}.

Definition vec_zero (v : Vector) : Vector :=
  {| vec_size := vec_size v; vec_allocs := vec_allocs v; vec_entries := [] |}.

(** The members of [DiscreteProblem] used by the reuse test. *)
Record DiscreteProblem : Type := {
  have_matrix : bool;
  sp_seq : list Z;
  wf_seq : Z;
  struct_changed : bool
}.

(** The state [init()] leaves for [neq] equations: every sequence number is
    -1 and no matrix has been built. *)
Definition init (neq : nat) : DiscreteProblem :=
  {| have_matrix := false; sp_seq := repeat (-1)%Z neq; wf_seq := (-1)%Z;
     struct_changed := true |}.

(** One state of the multi-mesh traversal as the discovery pass sees it:
    the element of every space ([None] for NULL), the number of edges of
    [e[0]], and for every space and edge the neighboring elements that
    [NeighborSearch] reports.  The source reads [num_edges] as
    [e[0]->get_num_surf()] and builds a [NeighborSearch] on every [e[el]],
    both only when a DG form is present: a state with a NULL element is,
    with a DG form, outside what this record describes. *)
Record TraverseState : Type := {
  e : list (option nat);
  num_edges : nat;
  neighbor_elems : nat -> nat -> list nat
}.

(** What the spaces and the weak form expose to this function. *)
Record Collaborators : Type := {
  neq : nat;                                   (* wf->get_neq() *)
  space_seq : nat -> Z;                        (* spaces[i]->get_seq() *)
  weakform_seq : Z;                            (* wf->get_seq() *)
  num_dofs : Z;                                (* get_num_dofs() *)
  dg_inner_edge_forms : list bool;             (* areas[0] == H2D_DG_INNER_EDGE,
                                                  over mfsurf, vfsurf, mfsurf_mc, vfsurf_mc *)
  get_blocks : bool -> nat -> nat -> bool;     (* wf->get_blocks(force_diagonal_blocks) *)
  get_element_assembly_list : nat -> nat -> list Z;
                                               (* the dof array of the assembly list
                                                  of spaces[i] on an element *)
  states : list TraverseState                  (* the states Traverse yields *)
}.

(** [is_up_to_date()]. *)
Definition is_up_to_date (dp : DiscreteProblem) (c : Collaborators) : bool :=
  let up_to_date := if negb (have_matrix dp) then false else true in
  let up_to_date :=
    if forallb (fun i => (space_seq c i =? nth i (sp_seq dp) 0)%Z) (seq 0 (neq c))
    then up_to_date else false in
  if negb (weakform_seq c =? wf_seq dp)%Z then false else up_to_date.

(** The test that precedes both registration loops: the block ([m], [n]) is
    left out when its weight is negligible, unless it is a diagonal block and
    [force_diagonal_blocks] is set. *)
Definition skip_block (force_diagonal_blocks : bool)
    (block_weights : option (nat -> nat -> Scalar)) (m n : nat) : bool :=
  let is_diagonal_block := Nat.eqb m n in
  if negb is_diagonal_block || negb force_diagonal_blocks then
    match block_weights with
    | Some A => abs_lt_1e12 (A m n)
    | None => false
    end
  else false.

(** The two nested loops over the DOFs of [am] and [an]; [emit i j] is the
    body executed for a pair of nonnegative DOFs. *)
Definition for_dof_pairs (am an : list Z) (emit : Z -> Z -> list PreAdd)
    : list PreAdd :=
  flat_map (fun di =>
              if (0 <=? di)%Z
              then flat_map (fun dj => if (0 <=? dj)%Z then emit di dj else []) an
              else [])
           am.

Definition is_null (x : option nat) : bool :=
  match x with None => true | Some _ => false end.

(** "Pre-add into the stiffness matrix": the registration of the couplings
    across the edges of one state, run when a DG form is present. *)
Definition pre_add_DG (c : Collaborators) (force_diagonal_blocks : bool)
    (block_weights : option (nat -> nat -> Scalar))
    (s : TraverseState) (al : list (list Z)) : list PreAdd :=
  let blocks := get_blocks c force_diagonal_blocks in
  flat_map (fun m =>
    flat_map (fun el =>
      if skip_block force_diagonal_blocks block_weights m el then []
      else
        flat_map (fun ed =>
          flat_map (fun neigh =>
            if (blocks m el || blocks el m) && negb (is_null (nth m (e s) None))
            then
              let am := nth m al [] in
              let an := get_element_assembly_list c el neigh in
              for_dof_pairs am an
                (fun di dj =>
                   (if blocks m el
                    then [{| row_space := m; col_space := el; row := di; col := dj |}]
                    else [])
                   ++ (if blocks el m
                       then [{| row_space := el; col_space := m; row := dj; col := di |}]
                       else []))
            else [])
            (neighbor_elems s el ed))
          (seq 0 (num_edges s)))
      (seq 0 (neq c)))
    (seq 0 (neq c)).

(** "Go through all equation-blocks of the local stiffness matrix". *)
Definition pre_add_volume (c : Collaborators) (force_diagonal_blocks : bool)
    (block_weights : option (nat -> nat -> Scalar))
    (s : TraverseState) (al : list (list Z)) : list PreAdd :=
  let blocks := get_blocks c force_diagonal_blocks in
  flat_map (fun m =>
    flat_map (fun n =>
      if skip_block force_diagonal_blocks block_weights m n then []
      else if blocks m n && negb (is_null (nth m (e s) None))
                && negb (is_null (nth n (e s) None))
      then
        for_dof_pairs (nth m al []) (nth n al [])
          (fun di dj => [{| row_space := m; col_space := n; row := di; col := dj |}])
      else [])
      (seq 0 (neq c)))
    (seq 0 (neq c)).

(** The assembly lists after "Obtain assembly lists for the element at all
    spaces": [al[i]] is refreshed where [e[i]] is not NULL. *)
Definition obtain_assembly_lists (c : Collaborators) (s : TraverseState)
    (al : list (list Z)) : list (list Z) :=
  map (fun i => match nth i (e s) None with
                | Some el => get_element_assembly_list c i el
                | None => nth i al []
                end)
      (seq 0 (neq c)).

(** The body of the loop over the states. *)
Definition register_state (c : Collaborators) (is_DG force_diagonal_blocks : bool)
    (block_weights : option (nat -> nat -> Scalar))
    (acc : list (list Z) * list PreAdd) (s : TraverseState)
    : list (list Z) * list PreAdd :=
  let al := obtain_assembly_lists c s (fst acc) in
  (al,
   snd acc
     ++ (if is_DG then pre_add_DG c force_diagonal_blocks block_weights s al else [])
     ++ pre_add_volume c force_diagonal_blocks block_weights s al).

(** Every call of [pre_add_ij] of one discovery pass, in order. *)
Definition registrations (c : Collaborators) (force_diagonal_blocks : bool)
    (block_weights : option (nat -> nat -> Scalar)) : list PreAdd :=
  let is_DG := existsb (fun b => b) (dg_inner_edge_forms c) in
  snd (fold_left (register_state c is_DG force_diagonal_blocks block_weights)
                 (states c)
                 (repeat [] (neq c), [])).

(** [create_sparse_structure(mat, rhs, force_diagonal_blocks, block_weights)];
    [None] is a NULL sink. *)
Definition create_sparse_structure (dp : DiscreteProblem) (c : Collaborators)
    (mat : option SparseMatrix) (rhs : option Vector)
    (force_diagonal_blocks : bool) (block_weights : option (nat -> nat -> Scalar))
    : DiscreteProblem * option SparseMatrix * option Vector :=
  if is_up_to_date dp c then
    (dp, option_map mat_zero mat, option_map vec_zero rhs)
  else
    let ndof := num_dofs c in
    let have_matrix' := match mat with Some _ => true | None => have_matrix dp end in
    let mat' :=
      option_map
        (fun m =>
           mat_alloc
             (fold_left pre_add_ij
                (registrations c force_diagonal_blocks block_weights)
                (mat_free m)))
        mat in
    let rhs' := option_map (fun v => vec_alloc v ndof) rhs in
    ({| have_matrix := have_matrix';
        sp_seq := map (space_seq c) (seq 0 (neq c));
        wf_seq := weakform_seq c;
        struct_changed := true |},
     mat', rhs').

(** The numeric part of [assemble] only adds values to the sinks. *)
Definition with_entries (m : SparseMatrix) (vals : list (Z * Z * Scalar)) : SparseMatrix :=
  {| registered := registered m; allocs := allocs m; entries := entries m ++ vals |}.

Definition with_vec_entries (v : Vector) (vals : list (Z * Scalar)) : Vector :=
  {| vec_size := vec_size v; vec_allocs := vec_allocs v;
     vec_entries := vec_entries v ++ vals |}.

End Structure.

End SparseStructure.

(** *** A concrete configuration for running the discovery pass *)

Module StructureExample.

Import SparseStructure.

(** Two spaces on one mesh of two elements (1 and 2) that share edge 0 of
    element 1.  Space 0 owns the DOFs 0 (element 1) and 1 (element 2), space 1
    owns the DOFs 10 (element 1) and 11 (element 2).  The weak form has a DG
    inner-edge form and couples every pair of spaces. *)
Definition example_asmlist (space element : nat) : list Z :=
  match space, element with
  | 0, 1 => [0%Z]
  | 0, 2 => [1%Z]
  | 1, 1 => [10%Z]
  | 1, 2 => [11%Z]
  | _, _ => []
  end.

Definition example_state : TraverseState :=
  {| e := [Some 1; Some 1];
     num_edges := 3;
     neighbor_elems := fun el ed => match ed with 0 => [2] | _ => [] end |}.

Definition example_collaborators : Collaborators :=
  {| neq := 2;
     space_seq := fun i => 5%Z;
     weakform_seq := 7%Z;
     num_dofs := 4%Z;
     dg_inner_edge_forms := [true];
     get_blocks := fun force m n => true;
     get_element_assembly_list := example_asmlist;
     states := [example_state] |}.

(** The block-weight table with [A[1][0] = 0] and every other weight 1. *)
Definition example_weights (m n : nat) : Q :=
  match m, n with
  | 1, 0 => 0%Q
  | _, _ => 1%Q
  end.

Definition empty_matrix : SparseMatrix (Scalar := Q) :=
  {| registered := []; allocs := 0; entries := [] |}.

Definition empty_vector : Vector (Scalar := Q) :=
  {| vec_size := 0%Z; vec_allocs := 0; vec_entries := [] |}.

End StructureExample.

(** ** Adaptive quadrature, read without the geometry cache *)

(** The source keeps the geometry and the weights of a quadrature rule in the
    arrays [cache_e] and [cache_jwt]; the module [GeometryCache] below embeds
    the evaluation with them.  This module holds the same evaluation with
    the cache left out: every sub-element is integrated on its own geometry
    and an order is never out of bounds.  It is the reference the cached
    evaluation of volume forms is compared with. *)
Module Quadrature.

Section Evaluation.

Context {Scalar : Type} {ops : ScalarOps Scalar}.

(** The members the evaluator reads of a single-component form
    ([MatrixFormVol], [VectorFormVol], [MatrixFormSurf], [VectorFormSurf]).
    [value] is the virtual method of the form: what it returns depends on the
    sub-element the shapes and reference maps are transformed to (the list of
    sons pushed so far) and on the quadrature it is given (the order). *)
Record Form : Type := {
  scaling_factor : Scalar;
  adapt_eval : bool;
  adapt_order_increase : Z;
  adapt_rel_error_tol : Scalar;
  value : list nat -> Z -> Scalar
}.

(** [eval_form_subelement(order, mfv, ...)] and [eval_form_subelement(order,
    vfv, ...)] without the cache: [value(...) * scaling_factor]. *)
Definition eval_form_subelement_vol (f : Form) (transforms : list nat) (order : Z)
    : Scalar :=
  s_mul (value f transforms order) (scaling_factor f).

(** [eval_form_adaptive(order_init, result_init, form, ...)] without the
    cache.  The four overloads of the source differ only in the
    [eval_form_subelement] they call, here the parameter [subelement];
    [transforms] is the stack of sub-element transformations of the
    transformable entities.  One unit of [fuel] is one level of recursion. *)
Fixpoint eval_form_adaptive (subelement : list nat -> Z -> Scalar) (f : Form)
    (fuel : nat) (transforms : list nat) (order_init : Z) (result_init : Scalar)
    : outcome Scalar :=
  let order_increase := adapt_order_increase f in
  (* push_transforms(sons_i); eval_form_subelement; pop_transforms *)
  let subs_value :=
    map (fun sons_i => subelement (transforms ++ [sons_i]) (order_init + order_increase)%Z)
        [0; 1; 2; 3] in
  let result_current_subelements := fold_left s_add subs_value s_zero in
  if abs_lt_1e6 result_current_subelements then Done result_current_subelements
  else
    let rel := rel_error result_current_subelements result_init in
    if tol_lt rel (adapt_rel_error_tol f) then Done result_current_subelements
    else
      match fuel with
      | O => OutOfFuel
      | S fuel' =>
          let recurse sons_i :=
            eval_form_adaptive subelement f fuel' (transforms ++ [sons_i])
              (order_init + order_increase)%Z (nth sons_i subs_value s_zero) in
          r0 <- recurse 0 ;;
          r1 <- recurse 1 ;;
          r2 <- recurse 2 ;;
          r3 <- recurse 3 ;;
          Done (s_add (s_add (s_add (s_add s_zero r0) r1) r2) r3)
      end.

(** The sum of the four sub-element values, as the source accumulates it. *)
Definition sum_of_sons (subelement : list nat -> Z -> Scalar)
    (transforms : list nat) (order : Z) : Scalar :=
  s_add (s_add (s_add (s_add s_zero
                         (subelement (transforms ++ [0]) order))
                  (subelement (transforms ++ [1]) order))
           (subelement (transforms ++ [2]) order))
    (subelement (transforms ++ [3]) order).

End Evaluation.

End Quadrature.

(** *** A form that is integrated exactly *)

Module QuadratureExample.

Import Quadrature.

(** A form that is integrated exactly at every order: its value on a
    sub-element at depth [d] is [1 / 4^d]. *)
Definition exact_form : Form (Scalar := Q) :=
  {| scaling_factor := 1%Q;
     adapt_eval := true;
     adapt_order_increase := 1%Z;
     adapt_rel_error_tol := (1 # 10)%Q;
     value := fun transforms _ => (1 # Pos.of_nat (4 ^ length transforms))%Q |}.

End QuadratureExample.

(** ** The per-state driver and the buffers it owns *)

Module StateAssembly.

(** The [AsmList] objects created with [new] and not yet deleted, by handle;
    [next_handle] is the handle the next [new] returns. *)
Record Heap : Type := {
  next_handle : nat;
  live : list nat
}.

(** [new AsmList<Scalar>]. *)
Definition new_AsmList (h : Heap) : nat * Heap :=
  (next_handle h,
   {| next_handle := S (next_handle h); live := live h ++ [next_handle h] |}).

(** [delete al[i]]. *)
Definition delete_AsmList (h : Heap) (handle : nat) : Heap :=
  {| next_handle := next_handle h; live := remove Nat.eq_dec handle (live h) |}.

(** The loop [for i < wf->get_neq(): al.push_back(new AsmList<Scalar>)]. *)
Fixpoint allocate_assembly_lists (neq : nat) (al : list nat) (h : Heap)
    : list nat * Heap :=
  match neq with
  | O => (al, h)
  | S neq' =>
      let '(handle, h') := new_AsmList h in
      allocate_assembly_lists neq' (al ++ [handle]) h'
  end.

(** The loop [for i < wf->get_neq(): delete al[i]]. *)
Definition delete_assembly_lists (al : list nat) (h : Heap) : Heap :=
  fold_left delete_AsmList al h.

(** The head of [init_state]: the first non-NULL [e[i]] with
    [i < stage.idx.size()], or NULL. *)
Fixpoint find_rep_element (n : nat) (e : list (option nat)) : option nat :=
  match n, e with
  | S n', Some el :: _ => Some el
  | S n', None :: e' => find_rep_element n' e'
  | _, _ => None
  end.

(** [init_state(stage, spss, refmap, e, isempty, al)] as far as its result is
    concerned; it fills the assembly lists it is given and allocates none. *)
Definition init_state (stage_idx : list nat) (e : list (option nat)) : option nat :=
  find_rep_element (length stage_idx) e.

Section OneState.

(** What runs between [init_cache()] and the deletion loop is taken as it
    comes: the assembly of the volume forms for the representing element
    ([assemble_volume_matrix_forms] to
    [assemble_multicomponent_volume_vector_forms]) and, for the representing
    element and an edge, [assemble_surface_integrals].  Either can end in a
    call of [error(...)]; neither creates or deletes an [AsmList] that
    outlives it.  [get_num_surf] is [Element::get_num_surf()]. *)
Variable assemble_volume_forms : nat -> outcome unit.
Variable assemble_surface_integrals : nat -> nat -> outcome unit.
Variable get_num_surf : nat -> nat.

(** The body of the loop over [isurf]. *)
Fixpoint assemble_surfaces (rep_element : nat) (isurfs : list nat) : outcome unit :=
  match isurfs with
  | [] => Done tt
  | isurf :: rest =>
      u <- assemble_surface_integrals rep_element isurf ;;
      assemble_surfaces rep_element rest
  end.

(** [assemble_one_state].  The bound of the loop over the edges is
    [e[0]->get_num_surf()], whatever element [init_state] returned: with
    [e[0] == NULL] it dereferences a NULL pointer. *)
Definition assemble_one_state (neq : nat) (stage_idx : list nat)
    (e : list (option nat)) (h : Heap) : outcome Heap :=
  let '(al, h1) := allocate_assembly_lists neq [] h in
  match init_state stage_idx e with
  | None => Done h1                              (* if(rep_element == NULL) return; *)
  | Some rep_element =>
      u <- assemble_volume_forms rep_element ;;
      match nth 0 e None with
      | None => Fatal NullDereference            (* e[0]->get_num_surf() *)
      | Some e0 =>
          u' <- assemble_surfaces rep_element (seq 0 (get_num_surf e0)) ;;
          Done (delete_assembly_lists al h1)
      end
  end.

End OneState.

(** Every live handle was handed out before. *)
Definition consistent (h : Heap) : Prop :=
  Forall (fun x => x < next_handle h) (live h).

End StateAssembly.

(** ** Enumerating the neighbors of a multimesh tree *)

Module MultimeshEnumeration.

Import Multimesh.

(** [running_transformations.back()->push_back(x)], [running_transformations
    .pop_back()] and [running_transformations.back()->pop_back()].  Each of
    them is undefined in C++ when the vector it reads is empty; the embedding
    stops with [OutOfRange] there. *)
Definition checked_back_push (v : list (list nat)) (x : nat)
    : outcome (list (list nat)) :=
  match v with
  | [] => Fatal OutOfRange
  | _ => Done (back_push v x)
  end.

Definition checked_pop_back (v : list (list nat)) : outcome (list (list nat)) :=
  match v with
  | [] => Fatal OutOfRange
  | _ => Done (pop_back v)
  end.

Definition checked_back_pop (v : list (list nat)) : outcome (list (list nat)) :=
  match v with
  | [] => Fatal OutOfRange
  | _ =>
      match last v [] with
      | [] => Fatal OutOfRange
      | _ => Done (back_pop v)
      end
  end.

(** [traverse_multimesh_tree(node, running_transformations)].  The first
    branch of the source is taken by every node whose transformation is [0],
    which is how it recognises the root. *)
Fixpoint traverse_multimesh_tree (node : NeighborNode)
    (running_transformations : list (list nat)) : outcome (list (list nat)) :=
  match node with
  | Node t l r =>
      let sons running :=
        r1 <- match l with
              | Some ln => traverse_multimesh_tree ln running
              | None => Done running
              end ;;
        match r with
        | Some rn => traverse_multimesh_tree rn r1
        | None => Done r1
        end in
      if Nat.eqb t 0 then
        (* "If we are in the root." *)
        r2 <- sons running_transformations ;;
        checked_pop_back r2
      else
        match l, r with
        | None, None =>
            (* "If we are in a leaf." *)
            match running_transformations with
            | [] => Fatal OutOfRange
            | _ =>
                let new_neighbor_transformations := last running_transformations [] in
                Done (push_back (back_push running_transformations t)
                                new_neighbor_transformations)
            end
        | _, _ =>
            r0 <- checked_back_push running_transformations t ;;
            r2 <- sons r0 ;;
            checked_back_pop r2
        end
  end.

(** [get_multimesh_neighbors_transformations(multimesh_tree)]. *)
Definition get_multimesh_neighbors_transformations (multimesh_tree : NeighborNode)
    : outcome (list (list nat)) :=
  traverse_multimesh_tree multimesh_tree (push_back [] []).

(** *** Reference notions *)

(** The transformations of all nodes of a subtree, the node's own first. *)
Fixpoint labels (node : NeighborNode) : list nat :=
  match node with
  | Node t l r =>
      t :: (match l with Some ln => labels ln | None => [] end)
        ++ (match r with Some rn => labels rn | None => [] end)
  end.

(** The transformations of the nodes strictly below a node. *)
Definition labels_below (node : NeighborNode) : list nat :=
  (match get_left_son node with Some l => labels l | None => [] end)
    ++ (match get_right_son node with Some r => labels r | None => [] end).

End MultimeshEnumeration.

(** ** Discarding the sparse structure *)

Module StructureLifecycle.

Import SparseStructure.

(** [free()]: [wf] is [None] for a NULL weak form, otherwise it carries
    [wf->get_neq()], the length [init()] gave the array [sp_seq].
    [memset(sp_seq, -1, ...)] fills every byte with [0xFF], which makes every
    [int] of the array [-1]. *)
Definition free (dp : DiscreteProblem) (wf : option nat) : DiscreteProblem :=
  {| have_matrix := have_matrix dp;
     sp_seq := match wf with
               | Some neq => repeat (-1)%Z neq
               | None => sp_seq dp
               end;
     wf_seq := (-1)%Z;
     struct_changed := true |}.

End StructureLifecycle.

(** ** Assembly of the boundary forms on one edge of a state *)

Module SurfaceAssembly.

Import Assembly.

(** A loop whose body can stop the assembly. *)
Fixpoint fold_outcome {A B : Type} (f : A -> B -> outcome A) (l : list B) (a : A)
    : outcome A :=
  match l with
  | [] => Done a
  | b :: l' => a' <- f a b ;; fold_outcome f l' a'
  end.

Section SurfaceForms.

Context {Scalar : Type} {ops : ScalarOps Scalar}.

(** The fields of [MatrixFormSurf<Scalar>] and of [VectorFormSurf<Scalar>]
    that the assembly reads; [surf_i], [surf_j] and [vsurf_i] are the members
    [i] and [j]. *)
Record MatrixFormSurf : Type := {
  surf_i : nat;
  surf_j : nat;
  surf_scaling_factor : Scalar;
  surf_areas : list String.string
}.

Record VectorFormSurf : Type := {
  vsurf_i : nat;
  vsurf_scaling_factor : Scalar;
  vsurf_areas : list String.string
}.

(** What the source leaves abstract here: the three area constants, the
    boundary marker conversion table, whether a space has an essential
    boundary condition on a marker
    ([get_essential_bcs() != NULL] and
    [get_boundary_condition(get_user_marker(marker)) != NULL]), the two
    [eval_form] overloads on the current edge as functions of the form and of
    the active shapes, and the content of fresh buffer storage. *)
Variable HERMES_ANY : String.string.
Variable H2D_DG_INNER_EDGE : String.string.
Variable H2D_DG_BOUNDARY_EDGE : String.string.
Variable get_internal_marker : String.string -> Z.
Variable has_essential_bc : nat -> Z -> bool.
Variable eval_form : MatrixFormSurf -> Z -> Z -> Scalar.
Variable eval_vector_form : VectorFormSurf -> Z -> Scalar.
Variable new_matrix : nat -> Buffer (Scalar := Scalar).

(** [nat[j] = v].  The source only indexes [nat] with space numbers below
    [wf->get_neq()], its length; past the end the list is left as it is. *)
Fixpoint set_flag (flags : list bool) (j : nat) (v : bool) : list bool :=
  match flags, j with
  | [], _ => []
  | _ :: rest, O => v :: rest
  | x :: rest, S j' => x :: set_flag rest j' v
  end.

(** The first loop of [assemble_surface_integrals] as far as the natural
    boundary condition flags are concerned: over [stage.idx], for the edge
    with marker [marker]. *)
Definition update_nat_flags (stage_idx : list nat) (isempty : list bool)
    (marker : Z) (nat_flags : list bool) : list bool :=
  fold_left
    (fun flags j =>
       if nth j isempty false then flags
       else if (0 <? marker)%Z
            then set_flag flags j (negb (has_essential_bc j marker))
            else flags)
    stage_idx nat_flags.

(** The loop over the areas of a boundary form. *)
Definition surface_assemble_this_form (areas : list String.string) (marker : Z) : bool :=
  existsb (fun a => String.eqb a HERMES_ANY
                    || (marker =? get_internal_marker a)%Z
                    || String.eqb a H2D_DG_BOUNDARY_EDGE)
          areas.

(** The value written to the local block for row entry [em] and column entry
    [en]. *)
Definition surface_local_value (mfs : MatrixFormSurf) (block_scaling_coeff : Scalar)
    (em en : AsmEntry) : Scalar :=
  if abs_gt_1e12 (coef em) && abs_gt_1e12 (coef en)
  then s_mul (s_mul (s_mul block_scaling_coeff (eval_form mfs (idx en) (idx em)))
                    (coef en))
             (coef em)
  else s_zero.

(** The loop over [j]. *)
Definition surface_row (mfs : MatrixFormSurf) (block_scaling_coeff : Scalar)
    (mat_present : bool) (aln : AsmList) (i : nat) (em : AsmEntry) (b : Buffer)
    : Buffer :=
  fold_left
    (fun b' (jen : nat * AsmEntry) =>
       let '(j, en) := jen in
       if (0 <=? dof en)%Z then
         if mat_present
         then buffer_set b' i j (surface_local_value mfs block_scaling_coeff em en)
         else b'
       else b')
    (combine (seq 0 (cnt aln)) aln) b.

(** The loop over [i]. *)
Definition surface_rows (mfs : MatrixFormSurf) (block_scaling_coeff : Scalar)
    (mat_present : bool) (alm aln : AsmList) (b : Buffer) : Buffer :=
  fold_left
    (fun b' (iem : nat * AsmEntry) =>
       let '(i, em) := iem in
       if (dof em <? 0)%Z then b'
       else surface_row mfs block_scaling_coeff mat_present aln i em b')
    (combine (seq 0 (cnt alm)) alm) b.

(** The body of the loop over [ww] of [assemble_surface_matrix_forms].
    Reading [areas[0]] of a form without areas is undefined in C++ and stops
    the embedding. *)
Definition assemble_surface_matrix_form
    (mat_present : bool) (block_weights : option (nat -> nat -> Scalar))
    (isempty nat_flags : list bool) (marker : Z) (al : list AsmList)
    (st : State) (mfs : MatrixFormSurf) : outcome State :=
  let m := surf_i mfs in
  let n := surf_j mfs in
  if nth m isempty false || nth n isempty false then Done st
  else if negb (nth m nat_flags false) || negb (nth n nat_flags false) then Done st
  else if abs_lt_1e12 (surf_scaling_factor mfs) then Done st
  else
    match surf_areas mfs with
    | [] => Fatal OutOfRange
    | a0 :: _ =>
        if String.eqb a0 H2D_DG_INNER_EDGE then Done st
        else if negb (surface_assemble_this_form (surf_areas mfs) marker) then Done st
        else
          let block_scaling_coeff :=
            match block_weights with
            | Some A => A m n
            | None => s_one
            end in
          if (match block_weights with
              | Some _ => abs_lt_1e12 block_scaling_coeff
              | None => false
              end) then Done st
          else
            let alm := nth m al [] in
            let aln := nth n al [] in
            let st0 := get_matrix_buffer new_matrix (Nat.max (cnt alm) (cnt aln)) st in
            let st1 :=
              set_buffer st0
                (surface_rows mfs block_scaling_coeff mat_present alm aln
                   (matrix_buffer st0)) in
            Done (if mat_present
                  then mat_add st1 (map dof alm) (map dof aln) (cnt alm) (cnt aln)
                  else st1)
    end.

(** [assemble_surface_matrix_forms]: the loop over [stage.mfsurf]. *)
Definition assemble_surface_matrix_forms
    (mfsurf : list MatrixFormSurf)
    (mat_present : bool) (block_weights : option (nat -> nat -> Scalar))
    (isempty nat_flags : list bool) (marker : Z) (al : list AsmList)
    (st : State) : outcome State :=
  fold_outcome
    (assemble_surface_matrix_form mat_present block_weights isempty nat_flags marker al)
    mfsurf st.

(** The calls [rhs->add(dof, value)] received by the vector sink. *)
Definition RhsLog : Type := list (Z * Scalar).

(** The loop over [i] of [assemble_surface_vector_forms]. *)
Definition surface_vector_rows (vfs : VectorFormSurf) (alm : AsmList) (rhs : RhsLog)
    : RhsLog :=
  fold_left
    (fun log (em : AsmEntry) =>
       if (dof em <? 0)%Z then log
       else if abs_gt_1e12 (coef em)
            then log ++ [(dof em, s_mul (eval_vector_form vfs (idx em)) (coef em))]
            else log)
    alm rhs.

(** The body of the loop over [ww] of [assemble_surface_vector_forms]. *)
Definition assemble_surface_vector_form
    (isempty nat_flags : list bool) (marker : Z) (al : list AsmList)
    (rhs : RhsLog) (vfs : VectorFormSurf) : outcome RhsLog :=
  let m := vsurf_i vfs in
  if nth m isempty false then Done rhs
  else if abs_lt_1e12 (vsurf_scaling_factor vfs) then Done rhs
  else
    match vsurf_areas vfs with
    | [] => Fatal OutOfRange
    | a0 :: _ =>
        if String.eqb a0 H2D_DG_INNER_EDGE then Done rhs
        else if negb (surface_assemble_this_form (vsurf_areas vfs) marker) then Done rhs
        else if String.eqb a0 HERMES_ANY && negb (nth m nat_flags false) then Done rhs
        else Done (surface_vector_rows vfs (nth m al []) rhs)
    end.

(** [assemble_surface_vector_forms]; [rhs] is [None] for a NULL sink. *)
Definition assemble_surface_vector_forms
    (vfsurf : list VectorFormSurf)
    (isempty nat_flags : list bool) (marker : Z) (al : list AsmList)
    (rhs : option RhsLog) : outcome (option RhsLog) :=
  match rhs with
  | None => Done None
  | Some log =>
      log' <- fold_outcome
                (assemble_surface_vector_form isempty nat_flags marker al) vfsurf log ;;
      Done (Some log')
  end.

(** The scalar additions that one insertion of the local block of a form
    should make: one for every pair of nonnegative DOFs, in the order of the
    two assembly lists. *)
Definition expected_contributions (mfs : MatrixFormSurf) (block_scaling_coeff : Scalar)
    (alm aln : AsmList) : list (Z * Z * Scalar) :=
  flat_map
    (fun em =>
       if (0 <=? dof em)%Z then
         flat_map
           (fun en =>
              if (0 <=? dof en)%Z
              then [(dof em, dof en, surface_local_value mfs block_scaling_coeff em en)]
              else [])
           aln
       else [])
    alm.

End SurfaceForms.

End SurfaceAssembly.

(** *** A concrete edge for running the boundary forms *)

Module SurfaceExample.

Import Assembly AssemblyExample SurfaceAssembly.

Module SurfaceLiteral.
Import Strings.String.
Definition inner_edge : string := "-1234567"%string.
Definition boundary_edge : string := "-12345"%string.
End SurfaceLiteral.

(** The values of the two DG area constants. *)
Definition example_inner_edge : String.string := SurfaceLiteral.inner_edge.
Definition example_boundary_edge : String.string := SurfaceLiteral.boundary_edge.

(** A boundary form of space 0 declared for every area, and its value for
    the shapes [fu] and [fv]. *)
Definition boundary_form : MatrixFormSurf (Scalar := Q) :=
  {| surf_i := 0; surf_j := 0; surf_scaling_factor := 1%Q;
     surf_areas := [example_any] |}.

Definition example_eval_surface_form (mfs : MatrixFormSurf (Scalar := Q)) (fu fv : Z) : Q :=
  ((1 + fu + 10 * fv)%Z # 1)%Q.

Definition boundary_vector_form : VectorFormSurf (Scalar := Q) :=
  {| vsurf_i := 0; vsurf_scaling_factor := 1%Q; vsurf_areas := [example_any] |}.

Definition example_eval_surface_vector_form (vfs : VectorFormSurf (Scalar := Q)) (fv : Z) : Q :=
  ((1 + fv)%Z # 1)%Q.

(** Three shapes on the edge; the second one is constrained. *)
Definition edge_asmlist : AsmList (Scalar := Q) :=
  [shape 0 0; shape 1 (-1); shape 2 5].

Definition run_boundary_form (nat_flags : list bool) : outcome (State (Scalar := Q)) :=
  assemble_surface_matrix_form example_any example_inner_edge example_boundary_edge
    example_marker_table example_eval_surface_form example_new_matrix
    true None [false] nat_flags 1%Z [edge_asmlist] example_start boundary_form.

Definition after_boundary_form : State (Scalar := Q) :=
  match run_boundary_form [true] with
  | Done st' => st'
  | _ => example_start
  end.

(** Space 0 has an essential boundary condition on every marker. *)
Definition example_essential_bc (space : nat) (marker : Z) : bool := Nat.eqb space 0.

End SurfaceExample.

(** ** Assembly of the multi-component volume matrix forms of one state *)

Module MulticomponentAssembly.

Import Assembly.

(** The two ways this function stops: the call of [error(...)] for a
    symmetric form across spaces, and a read of an array entry that is not
    there. *)
Inductive assembly_error : Type :=
| SymmetricAcrossSpaces
| PastTheEnd.

Definition checked (A : Type) : Type := (assembly_error + A)%type.

Definition and_then {A B : Type} (x : checked A) (f : A -> checked B) : checked B :=
  match x with
  | inl e => inl e
  | inr a => f a
  end.

Fixpoint fold_checked {A B : Type} (f : A -> B -> checked A) (l : list B) (a : A)
    : checked A :=
  match l with
  | [] => inr a
  | b :: l' => and_then (f a b) (fold_checked f l')
  end.

(** [v[i]] for a vector or an array of which only the first [length v]
    entries are defined. *)
Definition read {A : Type} (v : list A) (i : nat) : checked A :=
  match nth_error v i with
  | Some x => inr x
  | None => inl PastTheEnd
  end.

Section MulticomponentVolumeForms.

Context {Scalar : Type} {ops : ScalarOps Scalar}.

(** The fields of [MultiComponentMatrixFormVol<Scalar>] that the assembly
    reads. *)
Record MultiComponentMatrixFormVol : Type := {
  coordinates : list (nat * nat);
  mcf_sym : Z;
  mcf_scaling_factor : Scalar;
  mcf_areas : list String.string
}.

(** What the source leaves abstract here: the constant [HERMES_ANY], the
    marker conversion table, and [eval_form] on the current state, which
    fills a vector with one value per component, as a function of the form
    and of the active shapes of [fu] and [fv]. *)
Variable HERMES_ANY : String.string.
Variable get_internal_marker : String.string -> Z.
Variable eval_form : MultiComponentMatrixFormVol -> Z -> Z -> list Scalar.

(** The calls [mat->add(row, column, value)] received by the matrix sink. *)
Definition EntryLog : Type := list (Z * Z * Scalar).

Definition mc_assemble_this_form (mfv : MultiComponentMatrixFormVol) (marker : Z) : bool :=
  existsb (fun a => String.eqb a HERMES_ANY || (marker =? get_internal_marker a)%Z)
          (mcf_areas mfv).

(** The loop over [coordinate_i] for the shapes [i] of [al[m]] and [j] of
    [al[n]]; [mirror] is set in the branch for forms that are not
    [HERMES_NONSYM], which adds the value a second time with the two shape
    indices exchanged when they differ. *)
Definition add_components (mirror : bool) (al : list (AsmList (Scalar := Scalar)))
    (coords : list (nat * nat)) (result block_scaling_coeffs : list Scalar)
    (i j : nat) (em en : AsmEntry) (log : EntryLog) : checked EntryLog :=
  fold_checked
    (fun log0 (kc : nat * (nat * nat)) =>
       let '(k, (first, second)) := kc in
       and_then (read (nth first al []) i) (fun row_entry =>
       and_then (read (nth second al []) j) (fun col_entry =>
       and_then (read result k) (fun result_k =>
       and_then (read block_scaling_coeffs k) (fun coeff_k =>
         let v := s_mul (s_mul (s_mul result_k coeff_k) (coef en)) (coef em) in
         let log1 := log0 ++ [(dof row_entry, dof col_entry, v)] in
         if mirror && negb (Nat.eqb i j) then
           and_then (read (nth first al []) j) (fun row_entry' =>
           and_then (read (nth second al []) i) (fun col_entry' =>
             inr (log1 ++ [(dof row_entry', dof col_entry', v)])))
         else inr log1)))))
    (combine (seq 0 (length coords)) coords) log.

(** The body of the loop over [j] in the branch for [HERMES_NONSYM]. *)
Definition nonsym_entry (mfv : MultiComponentMatrixFormVol) (mat_present : bool)
    (al : list AsmList) (block_scaling_coeffs : list Scalar)
    (i : nat) (em : AsmEntry) (log : EntryLog) (jen : nat * AsmEntry)
    : checked EntryLog :=
  let '(j, en) := jen in
  if (0 <=? dof en)%Z then
    if mat_present then
      if abs_gt_1e12 (coef em) && abs_gt_1e12 (coef en) then
        add_components false al (coordinates mfv)
          (eval_form mfv (idx en) (idx em)) block_scaling_coeffs i j em en log
      else inr log
    else inr log
  else inr log.

(** The body of the loop over [j] in the other branch. *)
Definition sym_entry (mfv : MultiComponentMatrixFormVol) (mat_present : bool)
    (al : list AsmList) (block_scaling_coeffs : list Scalar)
    (i : nat) (em : AsmEntry) (log : EntryLog) (jen : nat * AsmEntry)
    : checked EntryLog :=
  let '(j, en) := jen in
  if Nat.ltb j i && (0 <=? dof en)%Z then inr log
  else if (0 <=? dof en)%Z then
    if (0 <=? dof em)%Z then
      if mat_present then
        if abs_gt_1e12 (coef em) && abs_gt_1e12 (coef en) then
          add_components true al (coordinates mfv)
            (eval_form mfv (idx en) (idx em)) block_scaling_coeffs i j em en log
        else inr log
      else inr log
    else inr log
  else inr log.

(** The body of the loop over [i]. *)
Definition mc_row (mfv : MultiComponentMatrixFormVol) (mat_present : bool)
    (al : list AsmList) (block_scaling_coeffs : list Scalar) (aln : AsmList)
    (log : EntryLog) (iem : nat * AsmEntry) : checked EntryLog :=
  let '(i, em) := iem in
  if (dof em <? 0)%Z && (mcf_sym mfv =? 0)%Z then inr log
  else if (mcf_sym mfv =? 0)%Z then
    fold_checked (nonsym_entry mfv mat_present al block_scaling_coeffs i em)
      (combine (seq 0 (cnt aln)) aln) log
  else
    fold_checked (sym_entry mfv mat_present al block_scaling_coeffs i em)
      (combine (seq 0 (cnt aln)) aln) log.

(** The body of the loop over [ww] of
    [assemble_multicomponent_volume_matrix_forms]. *)
Definition assemble_multicomponent_volume_matrix_form
    (mat_present : bool) (block_weights : option (nat -> nat -> Scalar))
    (marker : Z) (al : list AsmList)
    (log : EntryLog) (mfv : MultiComponentMatrixFormVol) : checked EntryLog :=
  if abs_lt_1e12 (mcf_scaling_factor mfv) then inr log
  else if negb (mc_assemble_this_form mfv marker) then inr log
  else
    let block_scaling_coeffs :=
      map (fun c : nat * nat =>
             match block_weights with
             | Some A => A (fst c) (snd c)
             | None => s_one
             end)
          (coordinates mfv) in
    match coordinates mfv with
    | [] => inl PastTheEnd
    | (m, n) :: _ =>
        if negb (mcf_sym mfv =? 0)%Z
           && existsb (fun c : nat * nat => negb (Nat.eqb (fst c) (snd c)))
                      (coordinates mfv)
        then inl SymmetricAcrossSpaces
        else
          let alm := nth m al [] in
          let aln := nth n al [] in
          fold_checked (mc_row mfv mat_present al block_scaling_coeffs aln)
            (combine (seq 0 (cnt alm)) alm) log
    end.

(** [assemble_multicomponent_volume_matrix_forms]: the loop over
    [stage.mfvol_mc]. *)
Definition assemble_multicomponent_volume_matrix_forms
    (mfvol_mc : list MultiComponentMatrixFormVol)
    (mat_present : bool) (block_weights : option (nat -> nat -> Scalar))
    (marker : Z) (al : list AsmList) (log : EntryLog) : checked EntryLog :=
  fold_checked
    (assemble_multicomponent_volume_matrix_form mat_present block_weights marker al)
    mfvol_mc log.

(** The values added at the matrix position [(r, c)], in order. *)
Definition values_at (log : EntryLog) (r c : Z) : list Scalar :=
  flat_map
    (fun x : Z * Z * Scalar =>
       if (fst (fst x) =? r)%Z && (snd (fst x) =? c)%Z then [snd x] else [])
    log.

End MulticomponentVolumeForms.

End MulticomponentAssembly.

(** *** Two components on one element *)

Module MulticomponentExample.

Import Assembly AssemblyExample MulticomponentAssembly.

(** A symmetric form with a component in block (0, 0) and one in block
    (1, 1); its value for the shapes [fu] and [fv] is symmetric in them. *)
Definition two_component_form : MultiComponentMatrixFormVol (Scalar := Q) :=
  {| coordinates := [(0, 0); (1, 1)];
     mcf_sym := 1%Z;
     mcf_scaling_factor := 1%Q;
     mcf_areas := [example_any] |}.

Definition example_eval_components
    (mfv : MultiComponentMatrixFormVol (Scalar := Q)) (fu fv : Z) : list Q :=
  [((1 + fu + fv)%Z # 1)%Q; ((100 + fu + fv)%Z # 1)%Q].

(** Two shapes per space: DOFs 0 and 1 in space 0, 10 and 11 in space 1. *)
Definition two_space_asmlists : list (AsmList (Scalar := Q)) :=
  [[shape 0 0; shape 1 1]; [shape 0 10; shape 1 11]].

End MulticomponentExample.

(** ** The geometry cache under the adaptive evaluation *)

Module GeometryCache.

Import Quadrature.

Section CachedEvaluation.

Context {Scalar : Type} {ops : ScalarOps Scalar}.

(** The number of entries of the arrays [cache_e] and [cache_jwt],
    [g_max_quad + 1 + 4 * g_max_quad + 4] in the source, and the edge
    quadrature numbering [quad->get_edge_points(surf_num, order)]; both are
    defined outside discrete_problem.cpp. *)
Variable cache_size : Z.
Variable get_edge_points : nat -> Z -> Z.

(** [cache_e] with [cache_jwt]: the entry of an order is NULL ([None]) or
    holds the geometry and the weights that [init_geom_vol] or
    [init_geom_surf] computed from the reference map.  What they computed
    depends on the sub-element the reference map was transformed to at that
    moment; the entry records that list of sons. *)
Definition Caches : Type := Z -> option (list nat).

Definition in_range (index : Z) : bool := (0 <=? index)%Z && (index <? cache_size)%Z.

Definition store (c : Caches) (index : Z) (entry : option (list nat)) : Caches :=
  fun i => if (i =? index)%Z then entry else c i.

(** [delete_single_geom_cache(order)].  Indexing the arrays outside their
    bounds is undefined in C++ and stops the embedding. *)
Definition delete_single_geom_cache (order : Z) (c : Caches) : outcome Caches :=
  if in_range order then
    match c order with
    | Some _ => Done (store c order None)
    | None => Done c
    end
  else Fatal OutOfRange.

(** The members the evaluator reads of a single-component form.  [value_on]
    is the virtual method [value]: it is handed the cached geometry and
    weights, computed on the sub-element [geometry], and the values of the
    shape and mesh functions on the current sub-element [transforms]; both
    belong to the quadrature rule numbered [index]. *)
Record GeomForm : Type := {
  g_scaling_factor : Scalar;
  g_adapt_eval : bool;
  g_adapt_order_increase : Z;
  g_adapt_rel_error_tol : Scalar;
  value_on : list nat -> list nat -> Z -> Scalar
}.

(** The form as the evaluation without a cache sees it: the geometry is that
    of the current sub-element. *)
Definition uncached (f : GeomForm) : Form :=
  {| scaling_factor := g_scaling_factor f;
     adapt_eval := g_adapt_eval f;
     adapt_order_increase := g_adapt_order_increase f;
     adapt_rel_error_tol := g_adapt_rel_error_tol f;
     value := fun transforms index => value_on f transforms transforms index |}.

(** [eval_form_subelement(order, form, ...)] with its cache: for a volume
    form ([surface = None]) the rule and the cache entry are those of
    [order]; for a surface form on the edge [surf_num] they are those of
    [eo = get_edge_points(surf_num, order)], and the result is halved. *)
Definition eval_form_subelement (surface : option nat) (f : GeomForm)
    (transforms : list nat) (order : Z) (c : Caches) : outcome (Scalar * Caches) :=
  let index :=
    match surface with
    | None => order
    | Some surf_num => get_edge_points surf_num order
    end in
  if in_range index then
    let c1 :=
      match c index with
      | None => store c index (Some transforms)
      | Some _ => c
      end in
    match c1 index with
    | None => Fatal NullDereference
    | Some geometry =>
        let res := s_mul (value_on f geometry transforms index) (g_scaling_factor f) in
        Done (match surface with
              | None => res
              | Some _ => s_mul s_half res
              end,
              c1)
    end
  else Fatal OutOfRange.

(** One turn of the first loop of [eval_form_adaptive]: the son is pushed,
    evaluated, and the cache entry of [order] is deleted. *)
Definition evaluate_son (surface : option nat) (f : GeomForm)
    (transforms : list nat) (order : Z) (sons_i : nat) (c : Caches)
    : outcome (Scalar * Caches) :=
  r <- eval_form_subelement surface f (transforms ++ [sons_i]) order c ;;
  c' <- delete_single_geom_cache order (snd r) ;;
  Done (fst r, c').

(** The first loop of [eval_form_adaptive] with the deletion that precedes
    it; [order] is [order_init + order_increase]. *)
Definition evaluate_sons (surface : option nat) (f : GeomForm)
    (transforms : list nat) (order : Z) (c : Caches)
    : outcome (list Scalar * Caches) :=
  c0 <- delete_single_geom_cache order c ;;
  r0 <- evaluate_son surface f transforms order 0 c0 ;;
  r1 <- evaluate_son surface f transforms order 1 (snd r0) ;;
  r2 <- evaluate_son surface f transforms order 2 (snd r1) ;;
  r3 <- evaluate_son surface f transforms order 3 (snd r2) ;;
  Done ([fst r0; fst r1; fst r2; fst r3], snd r3).

(** [eval_form_adaptive(order_init, result_init, form, ...)] with the cache
    threaded through.  One unit of [fuel] is one level of recursion. *)
Fixpoint eval_form_adaptive (surface : option nat) (f : GeomForm) (fuel : nat)
    (transforms : list nat) (order_init : Z) (result_init : Scalar) (c : Caches)
    : outcome (Scalar * Caches) :=
  let order := (order_init + g_adapt_order_increase f)%Z in
  s <- evaluate_sons surface f transforms order c ;;
  let subs_value := fst s in
  let result_current_subelements := fold_left s_add subs_value s_zero in
  if abs_lt_1e6 result_current_subelements
  then Done (result_current_subelements, snd s)
  else
    let rel := rel_error result_current_subelements result_init in
    if tol_lt rel (g_adapt_rel_error_tol f)
    then Done (result_current_subelements, snd s)
    else
      match fuel with
      | O => OutOfFuel
      | S fuel' =>
          let recurse sons_i c' :=
            eval_form_adaptive surface f fuel' (transforms ++ [sons_i]) order
              (nth sons_i subs_value s_zero) c' in
          r0 <- recurse 0 (snd s) ;;
          r1 <- recurse 1 (snd r0) ;;
          r2 <- recurse 2 (snd r1) ;;
          r3 <- recurse 3 (snd r2) ;;
          Done (s_add (s_add (s_add (s_add s_zero (fst r0)) (fst r1)) (fst r2)) (fst r3),
                snd r3)
      end.

(** The body shared by the four [eval_form] overloads of single-component
    volume and boundary forms ([MatrixFormVol], [VectorFormVol] with
    [surface = None]; [MatrixFormSurf], [VectorFormSurf] on the edge
    [surf_num] with [surface = Some surf_num]).  [order] is what the order
    parser of the overload returns ([calc_order_matrix_form_vol] and the
    like), [order_init] the starting order the overload computes from the
    orders of the active shapes; both are computed outside the functions
    embedded here. *)
Definition eval_form (surface : option nat) (f : GeomForm) (fuel : nat)
    (order order_init : Z) (c : Caches) : outcome (Scalar * Caches) :=
  if negb (g_adapt_eval f) then
    (* Perform non-adaptive numerical quadrature of order "order". *)
    eval_form_subelement surface f [] order c
  else
    (* Calculate initial value of the form on coarse element. *)
    r <- eval_form_subelement surface f [] order_init c ;;
    eval_form_adaptive surface f fuel [] order_init (fst r) (snd r).

(** [eval_dg_form(MatrixFormSurf*, ...)] and [eval_dg_form(VectorFormSurf*,
    ...)] at the order that [calc_order_dg_matrix_form] or
    [calc_order_dg_vector_form] returned: [res = value(...);
    res *= scaling_factor; return 0.5 * res].  There is no test of
    [adapt_eval]. *)
Definition eval_dg_form (f : GeomForm) (surf_num : nat) (order : Z) (c : Caches)
    : outcome (Scalar * Caches) :=
  let eo := get_edge_points surf_num order in
  if in_range eo then
    let c1 :=
      match c eo with
      | None => store c eo (Some [])
      | Some _ => c
      end in
    match c1 eo with
    | None => Fatal NullDereference
    | Some geometry =>
        let res := value_on f geometry [] eo in
        let res := s_mul res (g_scaling_factor f) in
        Done (s_mul s_half res, c1)
    end
  else Fatal OutOfRange.

(** The members the evaluator reads of a multi-component form, whose [value]
    fills a vector with one result per block. *)
Record MultiComponentGeomForm : Type := {
  mc_scaling_factor : Scalar;
  mc_value_on : list nat -> Z -> list Scalar
}.

(** [eval_form(MultiComponentMatrixFormVol*, ..., result)] and its vector
    analogue at the parsed order ([result[i] *= scaling_factor]), and
    [eval_form(MultiComponentMatrixFormSurf*, ..., surf_pos, result)] and its
    vector analogue ([result[i] *= scaling_factor * 0.5]).  There is no
    adaptive branch. *)
Definition eval_form_multicomponent (surface : option nat)
    (f : MultiComponentGeomForm) (order : Z) (c : Caches)
    : outcome (list Scalar * Caches) :=
  let index :=
    match surface with
    | None => order
    | Some surf_num => get_edge_points surf_num order
    end in
  if in_range index then
    let c1 :=
      match c index with
      | None => store c index (Some [])
      | Some _ => c
      end in
    match c1 index with
    | None => Fatal NullDereference
    | Some geometry =>
        let result := mc_value_on f geometry index in
        Done (map (fun r =>
                     match surface with
                     | None => s_mul r (mc_scaling_factor f)
                     | Some _ => s_mul r (s_mul (mc_scaling_factor f) s_half)
                     end)
                  result,
              c1)
    end
  else Fatal OutOfRange.


End CachedEvaluation.

(** The value of an outcome that carries the caches along. *)
Definition value_of {A B : Type} (x : outcome (A * B)) : outcome A :=
  match x with
  | Done r => Done (fst r)
  | Fatal e => Fatal e
  | OutOfFuel => OutOfFuel
  end.

End GeometryCache.

(** *** Edge rules numbered after the volume rules *)

Module GeometryCacheExample.

Import GeometryCache.

(** An edge numbering that places the rule of order [o] on the edge [s]
    behind ten volume rules. *)
Definition numbered_edge_points (surf_num : nat) (order : Z) : Z :=
  (10 + 4 * order + Z.of_nat surf_num)%Z.

(** A form whose value tells the geometry it was given from the sub-element
    it is evaluated on: 1 when they agree, 1000 when they differ. *)
Definition telltale_form : GeomForm (Scalar := Q) :=
  {| g_scaling_factor := 1%Q;
     g_adapt_eval := true;
     g_adapt_order_increase := 1%Z;
     g_adapt_rel_error_tol := (1 # 10)%Q;
     value_on := fun geometry transforms _ =>
                   if list_eq_dec Nat.eq_dec geometry transforms then 1%Q else 1000%Q |}.

Definition empty_cache : Caches := fun _ => None.

(** A form whose value is 1 on every sub-element, on every geometry and at
    every order: the four sons always sum to four times the estimate of
    their father. *)
Definition constant_form (order_increase : Z) (rel_error_tol : Q)
    : GeomForm (Scalar := Q) :=
  {| g_scaling_factor := 1%Q;
     g_adapt_eval := true;
     g_adapt_order_increase := order_increase;
     g_adapt_rel_error_tol := rel_error_tol;
     value_on := fun _ _ _ => 1%Q |}.


End GeometryCacheExample.

(** * Part II: properties *)

Unset Implicit Arguments.

(** ** The multimesh tree *)

Section MultimeshTree.

Import Multimesh.

(** Induction over a tree whose sons sit under [option]. *)
Definition on_son (P : NeighborNode -> Prop) (son : option NeighborNode) : Prop :=
  match son with
  | Some n => P n
  | None => True
  end.

Lemma NeighborNode_induction (P : NeighborNode -> Prop) :
  (forall t l r, on_son P l -> on_son P r -> P (Node t l r)) ->
  forall n, P n.
Proof.
  intros step. fix IH 1. intros [t l r]. apply step.
  - destruct l as [ln|]; simpl; [apply IH|exact I].
  - destruct r as [rn|]; simpl; [apply IH|exact I].
Qed.

Lemma prefix_of_refl (p : list nat) : prefix_of p p.
Proof. exists []. now rewrite app_nil_r. Qed.


Lemma insert_keeps_label (p : list nat) : forall t t',
  insert_into_multimesh_tree t p = Done t' ->
  get_transformation t' = get_transformation t.
Proof.
  destruct p as [|t0 rest]; intros t t' H; simpl in H.
  - now inversion H.
  - destruct t as [lbl [l|] [r|]]; simpl in H.
    + destruct (Nat.eqb (get_transformation l) t0).
      * destruct (insert_into_multimesh_tree l rest); inversion H; reflexivity.
      * destruct (Nat.eqb (get_transformation r) t0); [|discriminate].
        destruct (insert_into_multimesh_tree r rest); inversion H; reflexivity.
    + destruct (Nat.eqb (get_transformation l) t0).
      * destruct (insert_into_multimesh_tree l rest); inversion H; reflexivity.
      * destruct (insert_into_multimesh_tree (new_NeighborNode t0) rest);
          inversion H; reflexivity.
    + discriminate.
    + destruct (insert_into_multimesh_tree (new_NeighborNode t0) rest);
        inversion H; reflexivity.
Qed.

(** Insertion keeps the shape of the tree. *)
Lemma insert_well_formed (p : list nat) : forall t t',
  well_formed t ->
  insert_into_multimesh_tree t p = Done t' ->
  well_formed t'.
Proof.
  induction p as [|t0 rest IH]; intros t t' WF H; simpl in H.
  - inversion H; subst; exact WF.
  - destruct t as [lbl [l|] [r|]]; simpl in H, WF.
    + destruct WF as (Hne & WFl & WFr).
      destruct (Nat.eqb (get_transformation l) t0) eqn:El.
      * destruct (insert_into_multimesh_tree l rest) as [l'| |] eqn:E; inversion H; subst.
        simpl. rewrite (insert_keeps_label _ _ _ E). eauto.
      * destruct (Nat.eqb (get_transformation r) t0) eqn:Er; [|discriminate].
        destruct (insert_into_multimesh_tree r rest) as [r'| |] eqn:E; inversion H; subst.
        simpl. rewrite (insert_keeps_label _ _ _ E). eauto.
    + destruct (Nat.eqb (get_transformation l) t0) eqn:El.
      * destruct (insert_into_multimesh_tree l rest) as [l'| |] eqn:E; inversion H; subst.
        simpl. eauto.
      * destruct (insert_into_multimesh_tree (new_NeighborNode t0) rest) as [r'| |] eqn:E;
          inversion H; subst.
        simpl. rewrite (insert_keeps_label _ _ _ E). simpl.
        apply Nat.eqb_neq in El. split; [exact El|]. split; [exact WF|].
        apply (IH (new_NeighborNode t0)); simpl; auto.
    + destruct WF.
    + destruct (insert_into_multimesh_tree (new_NeighborNode t0) rest) as [l'| |] eqn:E;
        inversion H; subst.
      simpl. apply (IH (new_NeighborNode t0)); simpl; auto.
Qed.

(** The invariant of tree construction over a path set [P]: every labelled
    way down the tree, read after the prefix [pre], starts a path of [P]. *)
Definition covered (P : list (list nat)) (pre : list nat) (t : NeighborNode) : Prop :=
  forall x q, occurs t (x :: q) ->
    exists p, In p P /\ prefix_of (pre ++ x :: q) p.

Lemma covered_new (P : list (list nat)) (pre : list nat) (t0 : nat) :
  covered P pre (new_NeighborNode t0).
Proof.
  intros x q H. simpl in H.
  destruct H as [(l & Hl & _)|(r & Hr & _)]; discriminate.
Qed.


















(** *** Running vectors *)

Lemma last_snoc {A : Type} (c : list A) (b d : A) : last (c ++ [b]) d = b.
Proof. apply last_last. Qed.

Lemma back_push_snoc {A : Type} (c : list (list A)) (b : list A) (x : A) :
  back_push (c ++ [b]) x = c ++ [b ++ [x]].
Proof.
  unfold back_push. destruct (c ++ [b]) eqn:E.
  - destruct c; discriminate.
  - rewrite <- E. now rewrite removelast_last, last_snoc.
Qed.

Lemma back_pop_snoc {A : Type} (c : list (list A)) (b : list A) (x : A) :
  back_pop (c ++ [b ++ [x]]) = c ++ [b].
Proof.
  unfold back_pop. destruct (c ++ [b ++ [x]]) eqn:E.
  - destruct c; discriminate.
  - rewrite <- E. now rewrite removelast_last, last_snoc, removelast_last.
Qed.

(** The neighbor-side path that [traverse_multimesh_subtree] builds next to
    the central-side path [q]. *)
Definition neighbor_path (edge_info : NeighborEdgeInfo) (active_edge : nat)
    (mode : ElementMode) (q : list nat) : list nat :=
  map (neighbor_label edge_info active_edge mode) q.

(** [traverse_multimesh_subtree] completes the running path once per leaf of
    the subtree, in depth-first order, and hands the running path back. *)
Lemma traverse_multimesh_subtree_spec edge_info active_edge mode :
  forall node c b cn bn,
    traverse_multimesh_subtree node (c ++ [b]) (cn ++ [bn]) edge_info active_edge mode
    = (c ++ map (app b) (leaf_paths node) ++ [b],
       cn ++ map (fun q => bn ++ neighbor_path edge_info active_edge mode q)
                 (leaf_paths node) ++ [bn]).
Proof.
  induction node as [t l r IHl IHr] using NeighborNode_induction.
  intros c b cn bn.
  assert (Hinner :
    (let rc0 := back_push (c ++ [b]) t in
     let rn0 := back_push (cn ++ [bn]) (neighbor_label edge_info active_edge mode t) in
     let '(rc1, rn1) :=
       match l with
       | Some ln => traverse_multimesh_subtree ln rc0 rn0 edge_info active_edge mode
       | None => (rc0, rn0)
       end in
     let '(rc2, rn2) :=
       match r with
       | Some rnode => traverse_multimesh_subtree rnode rc1 rn1 edge_info active_edge mode
       | None => (rc1, rn1)
       end in
     (back_pop rc2, back_pop rn2))
    = (c ++ map (app b)
              (map (cons t)
                 ((match l with Some ln => leaf_paths ln | None => [] end)
                    ++ (match r with Some rn => leaf_paths rn | None => [] end))) ++ [b],
       cn ++ map (fun q => bn ++ neighbor_path edge_info active_edge mode q)
               (map (cons t)
                  ((match l with Some ln => leaf_paths ln | None => [] end)
                     ++ (match r with Some rn => leaf_paths rn | None => [] end))) ++ [bn])).
  { cbv zeta. rewrite !back_push_snoc.
    set (nl := neighbor_label edge_info active_edge mode t).
    assert (E1 : forall X : list (list nat),
               map (app b) (map (cons t) X) = map (app (b ++ [t])) X).
    { intros X. rewrite map_map. apply map_ext. intros q. now rewrite <- app_assoc. }
    assert (E2 : forall X : list (list nat),
               map (fun q => bn ++ neighbor_path edge_info active_edge mode q) (map (cons t) X)
               = map (fun q => (bn ++ [nl]) ++ neighbor_path edge_info active_edge mode q) X).
    { intros X. rewrite map_map. apply map_ext. intros q. simpl. now rewrite <- app_assoc. }
    rewrite E1, E2, !map_app.
    destruct l as [ln|]; destruct r as [rn|]; simpl in IHl, IHr.
    - rewrite IHl. rewrite !app_assoc. rewrite IHr.
      rewrite !app_assoc. rewrite !back_pop_snoc. now rewrite <- !app_assoc.
    - rewrite IHl. rewrite !app_assoc. rewrite !back_pop_snoc.
      simpl. now rewrite !app_nil_r, <- !app_assoc.
    - rewrite IHr. rewrite !app_assoc. rewrite !back_pop_snoc.
      simpl. now rewrite <- !app_assoc.
    - simpl. now rewrite !back_pop_snoc. }
  destruct l as [ln|]; destruct r as [rn|]; try exact Hinner.
  simpl. unfold push_back. rewrite !back_push_snoc, !last_snoc.
  now rewrite <- !app_assoc.
Qed.

(** *** One neighbor replaced by the leaves below its node *)

(** The neighbors that replace [nb] when its central path ends at [node]:
    one per leaf below [node], in depth-first order. *)
Definition expand_neighbor (edge : nat) (mode : ElementMode) (nb : Neighbor)
    (node : NeighborNode) : list Neighbor :=
  map (fun q =>
         {| neighb_el := neighb_el nb;
            neighbor_edge := neighbor_edge nb;
            central_transformations := central_transformations nb ++ q;
            neighbor_transformations :=
              neighbor_transformations nb
                ++ neighbor_path (neighbor_edge nb) edge mode q |})
      (leaf_paths_below node).

Lemma insert_new_neighbors_map el ei (f g : list nat -> list nat) (X : list (list nat)) :
  insert_new_neighbors el ei (map f X) (map g X)
  = map (fun q => {| neighb_el := el; neighbor_edge := ei;
                     central_transformations := f q;
                     neighbor_transformations := g q |}) X.
Proof.
  induction X as [|q X IH]; simpl; [reflexivity|]. now rewrite IH.
Qed.

Lemma update_ns_subtree_inner (ns : NeighborSearch) (node : NeighborNode)
    (i : nat) (nb : Neighbor) (l : NeighborNode) :
  get_left_son node = Some l ->
  nth_error (neighbors ns) i = Some nb ->
  update_ns_subtree ns node i
  = Done (set_neighbors ns (erase (neighbors ns) i ++ expand_neighbor (active_edge ns) (central_el_mode ns) nb node),
          wrap32 (-1)).
Proof.
  intros Hl Hnth. unfold update_ns_subtree. rewrite Hl, Hnth.
  pose proof (traverse_multimesh_subtree_spec (neighbor_edge nb) (active_edge ns)
                (central_el_mode ns) l [] (central_transformations nb)
                [] (neighbor_transformations nb)) as T1.
  simpl in T1. rewrite T1.
  unfold expand_neighbor, leaf_paths_below. rewrite Hl.
  destruct (get_right_son node) as [r|].
  - pose proof (traverse_multimesh_subtree_spec (neighbor_edge nb) (active_edge ns)
                  (central_el_mode ns) r
                  (map (app (central_transformations nb)) (leaf_paths l))
                  (central_transformations nb)
                  (map (fun q => neighbor_transformations nb
                                   ++ neighbor_path (neighbor_edge nb) (active_edge ns)
                                        (central_el_mode ns) q) (leaf_paths l))
                  (neighbor_transformations nb)) as T2.
    rewrite T2. unfold pop_back. rewrite !app_assoc, !removelast_last.
    rewrite <- !map_app. rewrite insert_new_neighbors_map. reflexivity.
  - unfold pop_back. rewrite !removelast_last.
    rewrite insert_new_neighbors_map. now rewrite app_nil_r.
Qed.

Lemma update_ns_subtree_leaf (ns : NeighborSearch) (node : NeighborNode) (i : nat) :
  get_left_son node = None ->
  get_right_son node = None ->
  update_ns_subtree ns node i = Done (ns, 0%Z).
Proof. intros Hl Hr. unfold update_ns_subtree. now rewrite Hl, Hr. Qed.

(** *** The loop of [update_neighbor_search] *)

(** A neighbor is resolved when its central path ends at a node of the tree
    that is a leaf or has a left son. *)
Definition resolved (root : NeighborNode) (nb : Neighbor) : Prop :=
  exists node,
    find_node (central_transformations nb) root = Done node
    /\ (get_left_son node = None -> get_right_son node = None).

(** The neighbor stays as it is: its path ends at a leaf. *)
Definition stays (root : NeighborNode) (nb : Neighbor) : bool :=
  match find_node (central_transformations nb) root with
  | Done node => match get_left_son node with None => true | Some _ => false end
  | _ => false
  end.

(** The neighbors appended for [nb]: none when it stays. *)
Definition expansion (edge : nat) (mode : ElementMode) (root : NeighborNode)
    (nb : Neighbor) : list Neighbor :=
  match find_node (central_transformations nb) root with
  | Done node =>
      match get_left_son node with
      | None => []
      | Some _ => expand_neighbor edge mode nb node
      end
  | _ => []
  end.

(** The neighbor list after [update_neighbor_search]: the neighbors that stay,
    in their order, then the expansions of the others, in their order. *)
Definition reconciled (ns : NeighborSearch) (root : NeighborNode) : list Neighbor :=
  filter (stays root) (neighbors ns)
    ++ flat_map (expansion (active_edge ns) (central_el_mode ns) root) (neighbors ns).

Definition updated (root : NeighborNode) (ns : NeighborSearch) : NeighborSearch :=
  set_neighbors ns (reconciled ns root).

Lemma nth_error_middle {A : Type} (K T : list A) (x : A) :
  nth_error (K ++ x :: T) (length K) = Some x.
Proof. induction K as [|k K IH]; simpl; auto. Qed.

Lemma erase_middle {A : Type} (K T : list A) (x : A) :
  erase (K ++ x :: T) (length K) = K ++ T.
Proof. induction K as [|k K IH]; simpl; [reflexivity|]. now rewrite IH. Qed.

Lemma wrap32_small (z : Z) : (0 <= z < 4294967296)%Z -> wrap32 z = z.
Proof. intros H. unfold wrap32. now apply Z.mod_small. Qed.

Lemma wrap32_minus_one (z : Z) :
  (0 < z < 4294967296)%Z -> wrap32 (z + wrap32 (-1)) = (z - 1)%Z.
Proof.
  intros H. change (wrap32 (-1)) with 4294967295%Z. unfold wrap32.
  replace (z + 4294967295)%Z with ((z - 1) + 1 * 4294967296)%Z by lia.
  rewrite Z.mod_add by lia. apply Z.mod_small. lia.
Qed.

Lemma wrap32_back_and_forth (z : Z) :
  (0 <= z < 4294967296)%Z -> wrap32 (wrap32 (z + wrap32 (-1)) + 1) = z.
Proof.
  intros H. change (wrap32 (-1)) with 4294967295%Z. unfold wrap32.
  rewrite Zplus_mod_idemp_l.
  replace (z + 4294967295 + 1)%Z with (z + 1 * 4294967296)%Z by lia.
  rewrite Z.mod_add by lia. apply Z.mod_small. lia.
Qed.

Lemma set_neighbors_same (ns : NeighborSearch) : set_neighbors ns (neighbors ns) = ns.
Proof. now destruct ns. Qed.

Lemma update_neighbor_search_loop_spec (root : NeighborNode) :
  forall R K A fuel ns,
    neighbors ns = K ++ R ++ A ->
    length R <= fuel ->
    (Z.of_nat (length K + length R) < 4294967296)%Z ->
    Forall (resolved root) R ->
    update_neighbor_search_loop fuel ns root
      (Z.of_nat (length K)) (Z.of_nat (length K + length R))
    = Done (set_neighbors ns
              (K ++ filter (stays root) R ++ A ++ flat_map (expansion (active_edge ns) (central_el_mode ns) root) R)).
Proof.
  induction R as [|nb R IH]; intros K A fuel ns HL Hfuel Hsize Hres.
  - simpl. rewrite Nat.add_0_r.
    destruct fuel; simpl; rewrite Z.ltb_irrefl;
      simpl in HL; rewrite app_nil_r, <- HL; now rewrite set_neighbors_same.
  - destruct fuel as [|fuel]; [simpl in Hfuel; lia|].
    inversion Hres as [|? ? Hnb Hres']; subst.
    destruct Hnb as (node & Hfind & Hshape).
    change ((nb :: R) ++ A) with (nb :: (R ++ A)) in HL.
    simpl length in *. cbn [update_neighbor_search_loop].
    assert (Hlt : (Z.of_nat (length K) <? Z.of_nat (length K + S (length R)))%Z = true)
      by (apply Z.ltb_lt; lia).
    rewrite Hlt, Nat2Z.id, HL, nth_error_middle, Hfind. cbn [bind].
    destruct (get_left_son node) as [l|] eqn:El.
    + rewrite (update_ns_subtree_inner ns node (length K) nb l El)
        by (rewrite HL; apply nth_error_middle).
      cbn [bind]. rewrite HL, erase_middle.
      rewrite wrap32_back_and_forth by lia.
      replace (wrap32 (Z.of_nat (length K + S (length R)) + wrap32 (-1)))
        with (Z.of_nat (length K + length R))
        by (rewrite wrap32_minus_one by lia; lia).
      rewrite (IH K (A ++ expand_neighbor (active_edge ns) (central_el_mode ns) nb node) fuel); simpl; try lia; auto.
      * assert (Hst : stays root nb = false)
          by (unfold stays; now rewrite Hfind, El).
        assert (Hex : expansion (active_edge ns) (central_el_mode ns) root nb
                      = expand_neighbor (active_edge ns) (central_el_mode ns) nb node)
          by (unfold expansion; now rewrite Hfind, El).
        cbn [filter flat_map]. rewrite Hst, Hex.
        unfold set_neighbors; cbn [active_edge central_el_mode neighbors].
        now rewrite <- !app_assoc.
      * now rewrite <- !app_assoc.
    + rewrite (update_ns_subtree_leaf ns node (length K) El (Hshape eq_refl)).
      cbn [bind]. rewrite !Z.add_0_r.
      rewrite (wrap32_small (Z.of_nat (length K))) by lia.
      rewrite (wrap32_small (Z.of_nat (length K) + 1)) by lia.
      rewrite (wrap32_small (Z.of_nat (length K + S (length R)))) by lia.
      replace (Z.of_nat (length K) + 1)%Z with (Z.of_nat (length (K ++ [nb])))
        by (rewrite length_app; simpl; lia).
      replace (Z.of_nat (length K + S (length R)))
        with (Z.of_nat (length (K ++ [nb]) + length R))
        by (rewrite length_app; simpl; lia).
      rewrite (IH (K ++ [nb]) A fuel); try lia; auto.
      * assert (Hst : stays root nb = true)
          by (unfold stays; now rewrite Hfind, El).
        assert (Hex : expansion (active_edge ns) (central_el_mode ns) root nb = [])
          by (unfold expansion; now rewrite Hfind, El).
        cbn [filter flat_map]. rewrite Hst, Hex.
        now rewrite <- !app_assoc.
      * rewrite HL. now rewrite <- !app_assoc.
      * rewrite length_app; simpl. lia.
Qed.

(** [update_neighbor_search] terminates within its [n_neighbors] iterations
    and yields the [reconciled] neighbor list. *)
Lemma update_neighbor_search_total (root : NeighborNode) (ns : NeighborSearch) :
  (n_neighbors ns < 4294967296)%Z ->
  Forall (resolved root) (neighbors ns) ->
  update_neighbor_search ns root = Done (updated root ns).
Proof.
  intros Hsize Hres. unfold update_neighbor_search, n_neighbors in *.
  pose proof (update_neighbor_search_loop_spec root (neighbors ns) [] []
                (length (neighbors ns)) ns) as H.
  simpl in H. rewrite H; auto.
  now rewrite app_nil_r.
Qed.

(** *** Paths of the searches are found in the tree *)

Lemma well_formed_shape (n : NeighborNode) :
  well_formed n -> get_left_son n = None -> get_right_son n = None.
Proof. destruct n as [t [l|] [r|]]; simpl; intros WF H; try discriminate; tauto. Qed.

Lemma well_formed_left (n l : NeighborNode) :
  well_formed n -> get_left_son n = Some l -> well_formed l.
Proof.
  destruct n as [t [l0|] [r|]]; simpl; intros WF [= <-]; tauto.
Qed.

Lemma well_formed_right (n r : NeighborNode) :
  well_formed n -> get_right_son n = Some r ->
  well_formed r
  /\ exists l, get_left_son n = Some l /\ get_transformation l <> get_transformation r.
Proof.
  destruct n as [t [l0|] [r0|]]; simpl; intros WF [= <-]; try tauto.
  destruct WF as (Hne & WFl & WFr). split; [exact WFr|]. eauto.
Qed.

Lemma occurs_find (q : list nat) : forall t,
  well_formed t -> occurs t q ->
  exists n, find_node q t = Done n /\ well_formed n.
Proof.
  induction q as [|x q IH]; intros t WF Ho; simpl in *.
  - eauto.
  - destruct Ho as [(l & El & Lx & Ho)|(r & Er & Rx & Ho)].
    + rewrite El, Lx, Nat.eqb_refl. apply IH; [|exact Ho].
      eapply well_formed_left; eauto.
    + destruct (well_formed_right t r WF Er) as (WFr & l & El & Hne).
      rewrite El, Er.
      assert (Hl : Nat.eqb (get_transformation l) x = false)
        by (apply Nat.eqb_neq; congruence).
      rewrite Hl, Rx, Nat.eqb_refl. apply IH; assumption.
Qed.

Lemma insert_occurs_mono (p : list nat) : forall t t' q,
  insert_into_multimesh_tree t p = Done t' -> occurs t q -> occurs t' q.
Proof.
  induction p as [|t0 rest IH]; intros t t' q H Ho; simpl in H.
  - inversion H; subst; exact Ho.
  - destruct q as [|x q]; [exact I|].
    destruct t as [lbl [l|] [r|]]; simpl in H, Ho.
    + destruct (Nat.eqb (get_transformation l) t0).
      * destruct (insert_into_multimesh_tree l rest) as [l'| |] eqn:E;
          inversion H; subst; clear H.
        destruct Ho as [(l0 & [= <-] & Lx & Ho)|(r0 & [= <-] & Rx & Ho)]; simpl.
        -- left. exists l'. rewrite (insert_keeps_label _ _ _ E). eauto.
        -- right. eauto.
      * destruct (Nat.eqb (get_transformation r) t0); [|discriminate].
        destruct (insert_into_multimesh_tree r rest) as [r'| |] eqn:E;
          inversion H; subst; clear H.
        destruct Ho as [(l0 & [= <-] & Lx & Ho)|(r0 & [= <-] & Rx & Ho)]; simpl.
        -- left. eauto.
        -- right. exists r'. rewrite (insert_keeps_label _ _ _ E). eauto.
    + destruct (Nat.eqb (get_transformation l) t0).
      * destruct (insert_into_multimesh_tree l rest) as [l'| |] eqn:E;
          inversion H; subst; clear H.
        destruct Ho as [(l0 & [= <-] & Lx & Ho)|(r0 & [=] & _)]; simpl.
        left. exists l'. rewrite (insert_keeps_label _ _ _ E). eauto.
      * destruct (insert_into_multimesh_tree (new_NeighborNode t0) rest) as [r'| |] eqn:E;
          inversion H; subst; clear H.
        destruct Ho as [(l0 & [= <-] & Lx & Ho)|(r0 & [=] & _)]; simpl.
        left. eauto.
    + discriminate.
    + destruct Ho as [(l0 & [=] & _)|(r0 & [=] & _)].
Qed.

Lemma insert_occurs_self (p : list nat) : forall t t',
  insert_into_multimesh_tree t p = Done t' -> occurs t' p.
Proof.
  induction p as [|t0 rest IH]; intros t t' H; simpl in H; [exact I|].
  destruct t as [lbl [l|] [r|]]; simpl in H.
  - destruct (Nat.eqb (get_transformation l) t0) eqn:El.
    + destruct (insert_into_multimesh_tree l rest) as [l'| |] eqn:E;
        inversion H; subst; clear H.
      simpl. left. exists l'. rewrite (insert_keeps_label _ _ _ E).
      apply Nat.eqb_eq in El. eauto.
    + destruct (Nat.eqb (get_transformation r) t0) eqn:Er; [|discriminate].
      destruct (insert_into_multimesh_tree r rest) as [r'| |] eqn:E;
        inversion H; subst; clear H.
      simpl. right. exists r'. rewrite (insert_keeps_label _ _ _ E).
      apply Nat.eqb_eq in Er. eauto.
  - destruct (Nat.eqb (get_transformation l) t0) eqn:El.
    + destruct (insert_into_multimesh_tree l rest) as [l'| |] eqn:E;
        inversion H; subst; clear H.
      simpl. left. exists l'. rewrite (insert_keeps_label _ _ _ E).
      apply Nat.eqb_eq in El. eauto.
    + destruct (insert_into_multimesh_tree (new_NeighborNode t0) rest) as [r'| |] eqn:E;
        inversion H; subst; clear H.
      simpl. right. exists r'. rewrite (insert_keeps_label _ _ _ E). simpl. eauto.
  - discriminate.
  - destruct (insert_into_multimesh_tree (new_NeighborNode t0) rest) as [l'| |] eqn:E;
      inversion H; subst; clear H.
    simpl. left. exists l'. rewrite (insert_keeps_label _ _ _ E). simpl. eauto.
Qed.

Lemma insert_all_occurs (ps : list (list nat)) : forall t t',
  well_formed t ->
  insert_all t ps = Done t' ->
  well_formed t'
  /\ (forall q, occurs t q -> occurs t' q)
  /\ Forall (occurs t') ps.
Proof.
  induction ps as [|p ps IH]; intros t t' WF H; simpl in H.
  - inversion H; subst. auto.
  - destruct (insert_into_multimesh_tree t p) as [t1| |] eqn:E; try discriminate.
    simpl in H.
    destruct (IH t1 t' (insert_well_formed p t t1 WF E) H) as (WF' & Mono & All).
    split; [exact WF'|]. split.
    + intros q Ho. apply Mono. eapply insert_occurs_mono; eauto.
    + constructor; [|exact All]. apply Mono. eapply insert_occurs_self; eauto.
Qed.

Lemma build_multimesh_tree_occurs (nss : list (option NeighborSearch)) : forall t root,
  well_formed t ->
  build_multimesh_tree t nss = Done root ->
  well_formed root
  /\ (forall q, occurs t q -> occurs root q)
  /\ (forall ns, In (Some ns) nss ->
        Forall (fun nb => occurs root (central_transformations nb)) (neighbors ns)).
Proof.
  induction nss as [|[ns|] nss IH]; intros t root WF H; simpl in H.
  - inversion H; subst. split; [exact WF|]. split; [auto|]. intros ns [].
  - destruct (single_untransformed ns) eqn:Es.
    + destruct (IH t root WF H) as (WF' & Mono & All).
      split; [exact WF'|]. split; [exact Mono|].
      intros ns' [[= <-]|Hin]; [|auto].
      unfold single_untransformed in Es.
      destruct (neighbors ns) as [|nb [|nb2 rest]]; try discriminate.
      constructor; [|constructor].
      apply Nat.eqb_eq in Es. unfold central_n_trans in Es.
      destruct (central_transformations nb); [exact I|discriminate].
    + destruct (insert_all t (map central_transformations (neighbors ns)))
        as [t1| |] eqn:E; try discriminate.
      simpl in H.
      destruct (insert_all_occurs _ t t1 WF E) as (WF1 & Mono1 & All1).
      destruct (IH t1 root WF1 H) as (WF' & Mono & All).
      split; [exact WF'|]. split; [auto|].
      intros ns' [[= <-]|Hin]; [|auto].
      rewrite Forall_map in All1.
      eapply Forall_impl; [|exact All1]. auto.
  - destruct (IH t root WF H) as (WF' & Mono & All).
    split; [exact WF'|]. split; [exact Mono|].
    intros ns' [[=]|Hin]. auto.
Qed.

(** After the tree is built, every neighbor of every search is resolved. *)
Lemma build_multimesh_tree_resolves (nss : list (option NeighborSearch)) (root : NeighborNode) :
  build_multimesh_tree (new_NeighborNode 0) nss = Done root ->
  well_formed root
  /\ forall ns, In (Some ns) nss -> Forall (resolved root) (neighbors ns).
Proof.
  intros H.
  destruct (build_multimesh_tree_occurs nss (new_NeighborNode 0) root I H)
    as (WF & _ & All).
  split; [exact WF|]. intros ns Hin.
  eapply Forall_impl; [|exact (All ns Hin)].
  intros nb Ho. destruct (occurs_find _ root WF Ho) as (n & Hf & WFn).
  exists n. split; [exact Hf|]. now apply well_formed_shape.
Qed.

(** *** Updated paths end at leaves *)

Lemma find_node_app (p q : list nat) : forall t n,
  find_node p t = Done n -> find_node (p ++ q) t = find_node q n.
Proof.
  induction p as [|x p IH]; intros t n H; simpl in H.
  - now inversion H.
  - simpl. destruct (get_left_son t) as [l|].
    + destruct (Nat.eqb (get_transformation l) x); [now apply IH|].
      destruct (get_right_son t) as [r|]; [|discriminate].
      destruct (Nat.eqb (get_transformation r) x); [now apply IH|discriminate].
    + destruct (get_right_son t) as [r|]; [|discriminate].
      destruct (Nat.eqb (get_transformation r) x); [now apply IH|discriminate].
Qed.

Lemma leaf_paths_find : forall n,
  well_formed n ->
  forall q, In q (leaf_paths n) ->
    exists q', q = get_transformation n :: q'
      /\ exists leaf, find_node q' n = Done leaf /\ is_leaf leaf = true.
Proof.
  induction n as [t l r IHl IHr] using NeighborNode_induction.
  intros WF q Hin.
  destruct l as [l|]; destruct r as [r|]; simpl in *.
  - destruct WF as (Hne & WFl & WFr).
    apply in_map_iff in Hin. destruct Hin as (q0 & <- & Hin).
    exists q0. split; [reflexivity|].
    apply in_app_or in Hin. destruct Hin as [Hin|Hin].
    + destruct (IHl WFl q0 Hin) as (q' & -> & leaf & Hf & Hleaf).
      exists leaf. simpl. rewrite Nat.eqb_refl. auto.
    + destruct (IHr WFr q0 Hin) as (q' & -> & leaf & Hf & Hleaf).
      exists leaf. simpl.
      assert (E : Nat.eqb (get_transformation l) (get_transformation r) = false)
        by now apply Nat.eqb_neq.
      rewrite E, Nat.eqb_refl. auto.
  - apply in_map_iff in Hin. destruct Hin as (q0 & <- & Hin).
    rewrite app_nil_r in Hin.
    exists q0. split; [reflexivity|].
    destruct (IHl WF q0 Hin) as (q' & -> & leaf & Hf & Hleaf).
    exists leaf. simpl. rewrite Nat.eqb_refl. auto.
  - destruct WF.
  - destruct Hin as [<-|[]]. exists []. split; [reflexivity|].
    exists (Node t None None). auto.
Qed.

Lemma leaf_paths_below_find (n : NeighborNode) (q : list nat) :
  well_formed n -> In q (leaf_paths_below n) ->
  exists leaf, find_node q n = Done leaf /\ is_leaf leaf = true.
Proof.
  intros WF Hin. unfold leaf_paths_below in Hin.
  apply in_app_or in Hin. destruct Hin as [Hin|Hin].
  - destruct (get_left_son n) as [l|] eqn:El; [|destruct Hin].
    destruct (leaf_paths_find l (well_formed_left n l WF El) q Hin)
      as (q' & -> & leaf & Hf & Hleaf).
    exists leaf. simpl. rewrite El, Nat.eqb_refl. auto.
  - destruct (get_right_son n) as [r|] eqn:Er; [|destruct Hin].
    destruct (well_formed_right n r WF Er) as (WFr & l & El & Hne).
    destruct (leaf_paths_find r WFr q Hin) as (q' & -> & leaf & Hf & Hleaf).
    exists leaf. simpl. rewrite El, Er.
    assert (E : Nat.eqb (get_transformation l) (get_transformation r) = false)
      by now apply Nat.eqb_neq.
    rewrite E, Nat.eqb_refl. auto.
Qed.

Lemma find_node_well_formed (p : list nat) : forall t n,
  well_formed t -> find_node p t = Done n -> well_formed n.
Proof.
  induction p as [|x p IH]; intros t n WF H; simpl in H.
  - now inversion H; subst.
  - destruct (get_left_son t) as [l|] eqn:El.
    + destruct (Nat.eqb (get_transformation l) x).
      * eapply IH; [|exact H]. eapply well_formed_left; eauto.
      * destruct (get_right_son t) as [r|] eqn:Er; [|discriminate].
        destruct (Nat.eqb (get_transformation r) x); [|discriminate].
        eapply IH; [|exact H]. now apply (well_formed_right t r).
    + destruct (get_right_son t) as [r|] eqn:Er; [|discriminate].
      destruct (Nat.eqb (get_transformation r) x); [|discriminate].
      eapply IH; [|exact H]. now apply (well_formed_right t r).
Qed.

Lemma reconciled_ends_at_leaves (root : NeighborNode) (ns : NeighborSearch) (nb : Neighbor) :
  well_formed root ->
  In nb (reconciled ns root) ->
  exists leaf,
    find_node (central_transformations nb) root = Done leaf /\ is_leaf leaf = true.
Proof.
  intros WF Hin. unfold reconciled in Hin. apply in_app_or in Hin.
  destruct Hin as [Hin|Hin].
  - apply filter_In in Hin. destruct Hin as [_ Hst]. unfold stays in Hst.
    destruct (find_node (central_transformations nb) root) as [n| |] eqn:Hf;
      try discriminate.
    destruct (get_left_son n) eqn:El; [discriminate|].
    exists n. split; [reflexivity|].
    pose proof (well_formed_shape n (find_node_well_formed _ _ _ WF Hf) El) as Er.
    destruct n as [t [l|] [r|]]; simpl in *; congruence.
  - apply in_flat_map in Hin. destruct Hin as (nb0 & _ & Hin).
    unfold expansion in Hin.
    destruct (find_node (central_transformations nb0) root) as [n| |] eqn:Hf;
      try destruct Hin.
    destruct (get_left_son n) eqn:El; [|destruct Hin].
    unfold expand_neighbor in Hin. apply in_map_iff in Hin.
    destruct Hin as (q & <- & Hq). simpl.
    rewrite (find_node_app _ q root n Hf).
    apply leaf_paths_below_find; [|exact Hq].
    eapply find_node_well_formed; eauto.
Qed.

Lemma leaf_paths_nonempty : forall n, leaf_paths n <> [].
Proof.
  induction n as [t l r IHl IHr] using NeighborNode_induction.
  destruct l as [l|]; destruct r as [r|]; simpl in *; try discriminate.
  - destruct (leaf_paths l); [contradiction|discriminate].
  - destruct (leaf_paths l); [contradiction|discriminate].
  - destruct (leaf_paths r); [contradiction|discriminate].
Qed.

Lemma reconciled_nonempty (root : NeighborNode) (ns : NeighborSearch) :
  Forall (resolved root) (neighbors ns) ->
  neighbors ns <> [] -> reconciled ns root <> [].
Proof.
  intros Hres Hne. unfold reconciled.
  destruct (neighbors ns) as [|nb L]; [contradiction|].
  inversion Hres as [|? ? (n & Hf & _) _]; subst.
  simpl. unfold stays, expansion. rewrite Hf.
  destruct (get_left_son n) as [l|] eqn:El.
  - unfold expand_neighbor, leaf_paths_below. rewrite El.
    pose proof (leaf_paths_nonempty l) as Hl.
    destruct (leaf_paths l); [contradiction|].
    destruct (filter _ L); simpl; discriminate.
  - simpl. discriminate.
Qed.

(** *** The comparison of the neighbor counts *)

Lemma update_and_check_spec (root : NeighborNode) :
  forall nss num,
    (forall ns, In (Some ns) nss ->
       update_neighbor_search ns root = Done (updated root ns)
       /\ (0 < n_neighbors (updated root ns))%Z) ->
    match update_and_check nss root num with
    | Done (nss', n) =>
        nss' = map (option_map (updated root)) nss
        /\ (num <> 0%Z -> n = num)
        /\ (forall ns, In (Some ns) nss -> n_neighbors (updated root ns) = n)
    | Fatal e =>
        e = NumNeighborsMismatch
        /\ exists ns, In (Some ns) nss
             /\ ((num <> 0%Z /\ n_neighbors (updated root ns) <> num)
                 \/ exists ns2, In (Some ns2) nss
                      /\ n_neighbors (updated root ns2) <> n_neighbors (updated root ns))
    | OutOfFuel => False
    end.
Proof.
  induction nss as [|[ns|] nss IH]; intros num Hupd; simpl.
  - split; [reflexivity|]. split; [auto|]. intros ns [].
  - destruct (Hupd ns (or_introl eq_refl)) as [Hu Hpos]. rewrite Hu. simpl.
    set (c := n_neighbors (updated root ns)) in *.
    set (num1 := if (num =? 0)%Z then c else num).
    assert (Hrest : forall ns0, In (Some ns0) nss ->
              update_neighbor_search ns0 root = Done (updated root ns0)
              /\ (0 < n_neighbors (updated root ns0))%Z)
      by (intros ns0 Hin; apply Hupd; now right).
    destruct (c =? num1)%Z eqn:Ec; simpl.
    + apply Z.eqb_eq in Ec.
      assert (Hnum1 : num1 <> 0%Z) by lia.
      specialize (IH num1 Hrest).
      destruct (update_and_check nss root num1) as [[nss' n]| |]; simpl.
      * destruct IH as (-> & Hn & Hall). specialize (Hn Hnum1).
        split; [reflexivity|]. split.
        -- intros Hnz. subst num1. apply Z.eqb_neq in Hnz. rewrite Hnz in Hn. exact Hn.
        -- intros ns0 [[= <-]|Hin]; [fold c; lia|auto].
      * destruct IH as (-> & ns0 & Hin & Hd). split; [reflexivity|].
        exists ns0. split; [now right|]. right.
        destruct Hd as [[_ Hd]|(ns2 & Hin2 & Hd)].
        -- exists ns. split; [now left|]. fold c. lia.
        -- exists ns2. split; [now right|exact Hd].
      * exact IH.
    + apply Z.eqb_neq in Ec. split; [reflexivity|].
      exists ns. split; [now left|]. left. fold c. subst num1.
      destruct (num =? 0)%Z eqn:E0; [contradiction|].
      apply Z.eqb_neq in E0. auto.
  - assert (Hrest : forall ns0, In (Some ns0) nss ->
              update_neighbor_search ns0 root = Done (updated root ns0)
              /\ (0 < n_neighbors (updated root ns0))%Z)
      by (intros ns0 Hin; apply Hupd; now right).
    specialize (IH num Hrest).
    destruct (update_and_check nss root num) as [[nss' n]| |]; simpl.
    + destruct IH as (-> & Hn & Hall). split; [reflexivity|]. split; [exact Hn|].
      intros ns0 [[=]|Hin]. auto.
    + destruct IH as (-> & ns0 & Hin & Hd). split; [reflexivity|].
      exists ns0. split; [now right|].
      destruct Hd as [Hd|(ns2 & Hin2 & Hd)]; [now left|].
      right. exists ns2. split; [now right|exact Hd].
    + exact IH.
Qed.

(** C5, as the code has it.  Once the multimesh tree is built from the
    searches of one active edge (each with at least one neighbor, their number
    an [unsigned int]), [update_neighbor_search] updates every search without
    error: the neighbors whose central path ends at a leaf stay, in their
    order, and behind them every other neighbor is replaced by one neighbor
    per leaf below the node its path ends at, their central paths being the
    old path followed by the depth-first enumeration of these leaves.  The loop
    of [assemble_DG_forms] then either returns the updated searches, which all
    report the same number of neighbors, or stops with the fatal error
    "Num_neighbors ... not matching", and it does so exactly when two updated
    searches differ in their number of neighbors.  Every central
    transformation path of an updated search ends at a leaf of the tree.  For
    a search that had a single neighbor and no transformation, the central
    paths of the updated search are the depth-first enumeration of all leaves
    of the tree. *)
Theorem neighbor_counts_agree_and_paths_enumerate_leaves :
  forall (nss : list (option NeighborSearch)) (root : NeighborNode),
    (forall ns, In (Some ns) nss -> (0 < n_neighbors ns < 4294967296)%Z) ->
    build_multimesh_tree (new_NeighborNode 0) nss = Done root ->
    (forall ns, In (Some ns) nss ->
       update_neighbor_search ns root = Done (updated root ns)
       /\ neighbors (updated root ns)
          = filter (stays root) (neighbors ns)
              ++ flat_map (expansion (active_edge ns) (central_el_mode ns) root)
                          (neighbors ns))
    /\ ((exists n,
           reconcile_neighbor_searches nss
           = Done (root, map (option_map (updated root)) nss, n)
           /\ forall ns, In (Some ns) nss -> n_neighbors (updated root ns) = n)
        \/ (reconcile_neighbor_searches nss = Fatal NumNeighborsMismatch
            /\ exists ns1 ns2,
                 In (Some ns1) nss /\ In (Some ns2) nss
                 /\ n_neighbors (updated root ns1) <> n_neighbors (updated root ns2)))
    /\ (forall ns nb,
          In (Some ns) nss -> In nb (neighbors (updated root ns)) ->
          exists leaf,
            find_node (central_transformations nb) root = Done leaf
            /\ is_leaf leaf = true)
    /\ (forall ns nb node,
          In (Some ns) nss -> In nb (neighbors ns) ->
          find_node (central_transformations nb) root = Done node ->
          is_leaf node = false ->
          map central_transformations
            (expansion (active_edge ns) (central_el_mode ns) root nb)
          = map (app (central_transformations nb)) (leaf_paths_below node))
    /\ (forall ns nb,
          In (Some ns) nss -> neighbors ns = [nb] ->
          central_transformations nb = [] ->
          is_leaf root = false ->
          map central_transformations (neighbors (updated root ns))
          = leaf_paths_below root).
Proof.
  intros nss root Hsize Hbuild.
  destruct (build_multimesh_tree_resolves nss root Hbuild) as [WF Hres].
  assert (Hupd : forall ns, In (Some ns) nss ->
            update_neighbor_search ns root = Done (updated root ns)
            /\ (0 < n_neighbors (updated root ns))%Z).
  { intros ns Hin. split.
    - apply update_neighbor_search_total; [apply (Hsize ns Hin)|apply (Hres ns Hin)].
    - unfold n_neighbors, updated. simpl.
      pose proof (reconciled_nonempty root ns (Hres ns Hin)) as Hne.
      destruct (reconciled ns root).
      + exfalso. apply Hne; [|reflexivity].
        destruct (Hsize ns Hin) as [Hpos _]. unfold n_neighbors in Hpos.
        destruct (neighbors ns); [simpl in Hpos; lia|discriminate].
      + simpl. lia. }
  split; [intros ns Hin; split; [apply (Hupd ns Hin)|reflexivity]|].
  split; [|split; [|split]].
  - unfold reconcile_neighbor_searches. rewrite Hbuild. simpl.
    pose proof (update_and_check_spec root nss 0%Z Hupd) as Hspec.
    destruct (update_and_check nss root 0) as [[nss' n]| |]; simpl.
    + destruct Hspec as (-> & _ & Hall). left. exists n. auto.
    + destruct Hspec as (-> & ns & Hin & [[Hnz _]|(ns2 & Hin2 & Hd)]); [congruence|].
      right. split; [reflexivity|]. exists ns2, ns. auto.
    + destruct Hspec.
  - intros ns nb Hin Hnb. apply (reconciled_ends_at_leaves root ns nb WF Hnb).
  - intros ns nb node Hin Hnb Hf Hleaf. unfold expansion. rewrite Hf.
    assert (WFn : well_formed node) by (eapply find_node_well_formed; eauto).
    destruct (get_left_son node) as [l|] eqn:El.
    + unfold expand_neighbor. rewrite map_map. reflexivity.
    + pose proof (well_formed_shape node WFn El) as Er.
      destruct node as [t [l|] [r|]]; simpl in *; congruence.
  - intros ns nb Hin Hnb Hc Hleaf. unfold updated, reconciled. simpl.
    rewrite Hnb. simpl. unfold stays, expansion. rewrite Hc. simpl.
    destruct (get_left_son root) as [l|] eqn:El.
    + simpl. rewrite app_nil_r. unfold expand_neighbor. rewrite map_map. simpl.
      rewrite Hc. simpl. apply map_id.
    + pose proof (well_formed_shape root WF El) as Er.
      destruct root as [t [l|] [r|]]; simpl in *; congruence.
Qed.

(** Two meshes along edge 0 of a triangle: on the first the central element
    has two neighbors, reached through its sons 0 and 1; on the second it has
    one neighbor and no transformation. *)
Definition example_searches : list (option NeighborSearch) :=
  [ Some {| neighbors :=
              [ {| neighb_el := 11;
                   neighbor_edge := {| local_num_of_edge := 2; orientation := true |};
                   central_transformations := [0];
                   neighbor_transformations := [] |};
                {| neighb_el := 12;
                   neighbor_edge := {| local_num_of_edge := 2; orientation := true |};
                   central_transformations := [1];
                   neighbor_transformations := [] |} ];
            active_edge := 0;
            central_el_mode := HERMES_MODE_TRIANGLE |};
    Some {| neighbors :=
              [ {| neighb_el := 20;
                   neighbor_edge := {| local_num_of_edge := 1; orientation := false |};
                   central_transformations := [];
                   neighbor_transformations := [] |} ];
            active_edge := 0;
            central_el_mode := HERMES_MODE_TRIANGLE |} ].

Definition example_tree : NeighborNode :=
  Node 0 (Some (Node 0 None None)) (Some (Node 1 None None)).

(** On the example both searches end with two neighbors; the second search
    gets the central paths [0] and [1] and the neighbor paths [1] and [2]. *)
Example example_searches_reconciled :
  reconcile_neighbor_searches example_searches
  = Done (example_tree,
          [ nth 0 example_searches None;
            Some {| neighbors :=
                      [ {| neighb_el := 20;
                           neighbor_edge := {| local_num_of_edge := 1; orientation := false |};
                           central_transformations := [0];
                           neighbor_transformations := [1] |};
                        {| neighb_el := 20;
                           neighbor_edge := {| local_num_of_edge := 1; orientation := false |};
                           central_transformations := [1];
                           neighbor_transformations := [2] |} ];
                    active_edge := 0;
                    central_el_mode := HERMES_MODE_TRIANGLE |} ],
          2%Z).
Proof. vm_compute. reflexivity. Qed.

Lemma neighbor_counts_agree_and_paths_enumerate_leaves_witness :
  (forall ns, In (Some ns) example_searches -> (0 < n_neighbors ns < 4294967296)%Z)
  /\ build_multimesh_tree (new_NeighborNode 0) example_searches = Done example_tree
  /\ (forall ns, In (Some ns) example_searches ->
        update_neighbor_search ns example_tree = Done (updated example_tree ns)
        /\ neighbors (updated example_tree ns)
           = filter (stays example_tree) (neighbors ns)
               ++ flat_map (expansion (active_edge ns) (central_el_mode ns) example_tree)
                           (neighbors ns))
  /\ ((exists n,
         reconcile_neighbor_searches example_searches
         = Done (example_tree, map (option_map (updated example_tree)) example_searches, n)
         /\ forall ns, In (Some ns) example_searches ->
                       n_neighbors (updated example_tree ns) = n)
      \/ (reconcile_neighbor_searches example_searches = Fatal NumNeighborsMismatch
          /\ exists ns1 ns2,
               In (Some ns1) example_searches /\ In (Some ns2) example_searches
               /\ n_neighbors (updated example_tree ns1)
                  <> n_neighbors (updated example_tree ns2)))
  /\ (forall ns nb,
        In (Some ns) example_searches -> In nb (neighbors (updated example_tree ns)) ->
        exists leaf,
          find_node (central_transformations nb) example_tree = Done leaf
          /\ is_leaf leaf = true)
  /\ (forall ns nb node,
        In (Some ns) example_searches -> In nb (neighbors ns) ->
        find_node (central_transformations nb) example_tree = Done node ->
        is_leaf node = false ->
        map central_transformations
          (expansion (active_edge ns) (central_el_mode ns) example_tree nb)
        = map (app (central_transformations nb)) (leaf_paths_below node))
  /\ (forall ns nb,
        In (Some ns) example_searches -> neighbors ns = [nb] ->
        central_transformations nb = [] ->
        is_leaf example_tree = false ->
        map central_transformations (neighbors (updated example_tree ns))
        = leaf_paths_below example_tree).
Proof.
  assert (Hsize : forall ns, In (Some ns) example_searches ->
                             (0 < n_neighbors ns < 4294967296)%Z).
  { intros ns [[= <-]|[[= <-]|[]]]; vm_compute; split; reflexivity. }
  assert (Hbuild : build_multimesh_tree (new_NeighborNode 0) example_searches
                   = Done example_tree) by (vm_compute; reflexivity).
  split; [exact Hsize|]. split; [exact Hbuild|].
  exact (neighbor_counts_agree_and_paths_enumerate_leaves
           example_searches example_tree Hsize Hbuild).
Defined.

(** Two searches along edge 0 of a quadrilateral: in the first the central
    element has the neighbors reached through its sons 0 and 1, in the second
    the first of these is split once more. *)
Definition neighbor_through (element : nat) (central : list nat) : Neighbor :=
  {| neighb_el := element;
     neighbor_edge := {| local_num_of_edge := 2; orientation := true |};
     central_transformations := central;
     neighbor_transformations := [] |}.

Definition search_of (l : list Neighbor) : NeighborSearch :=
  {| neighbors := l; active_edge := 0; central_el_mode := HERMES_MODE_QUAD |}.

Definition coarse_search : NeighborSearch :=
  search_of [neighbor_through 1 [0]; neighbor_through 2 [1]].

Definition fine_search : NeighborSearch :=
  search_of [neighbor_through 3 [0; 0]; neighbor_through 4 [0; 1]; neighbor_through 2 [1]].

Definition central_paths (ns : option NeighborSearch) : list (list nat) :=
  match ns with
  | Some s => map central_transformations (neighbors s)
  | None => []
  end.

(** The claim of C5 as stated fails in two ways.  The new neighbors are
    appended behind the neighbors that stay: reconciling the coarse with the
    fine search succeeds with three neighbors each, and the coarse search ends
    with the central paths [1], [0;0], [0;1], while the depth-first
    enumeration of the leaves (and the fine search) has [0;0], [0;1], [1].
    And a search without any neighbor passes the comparison of the counts
    next to a search with two neighbors, because the count 0 is taken for
    "not yet set". *)
Lemma updated_paths_not_in_depth_first_order :
  (let r := reconcile_neighbor_searches [Some coarse_search; Some fine_search] in
   exists root nss' n,
     r = Done (root, nss', n)
     /\ n = 3%Z
     /\ central_paths (nth 0 nss' None) = [[1]; [0; 0]; [0; 1]]
     /\ central_paths (nth 1 nss' None) = [[0; 0]; [0; 1]; [1]]
     /\ leaf_paths_below root = [[0; 0]; [0; 1]; [1]]
     /\ central_paths (nth 0 nss' None) <> leaf_paths_below root)
  /\ (let r := reconcile_neighbor_searches [Some (search_of []); Some coarse_search] in
      exists root nss' n,
        r = Done (root, nss', n)
        /\ option_map n_neighbors (nth 0 nss' None) = Some 0%Z
        /\ option_map n_neighbors (nth 1 nss' None) = Some 2%Z).
Proof.
  split.
  - eexists. eexists. eexists. split; [vm_compute; reflexivity|].
    repeat split; try reflexivity. vm_compute. discriminate.
  - eexists. eexists. eexists. split; [vm_compute; reflexivity|].
    split; reflexivity.
Qed.

End MultimeshTree.
(** ** Volume matrix forms *)

Section VolumeMatrixFormsFacts.

Import Assembly.

Context {Scalar : Type} {ops : ScalarOps Scalar}.
Variable HERMES_ANY : String.string.
Variable get_internal_marker : String.string -> Z.
Variable eval_form : MatrixFormVol (Scalar := Scalar) -> Z -> Z -> Scalar.
Variable new_matrix : nat -> Buffer (Scalar := Scalar).

Lemma block_of_entry (b : Buffer) (m n i j : nat) :
  i < m -> j < n ->
  nth j (nth i (block_of b m n) []) s_zero = b i j.
Proof.
  intros Hi Hj. unfold block_of.
  rewrite (nth_indep _ [] (map (fun j0 => b 0 j0) (seq 0 n)))
    by (rewrite length_map, length_seq; exact Hi).
  rewrite (map_nth (fun i0 => map (fun j0 => b i0 j0) (seq 0 n)) (seq 0 m) 0 i).
  rewrite seq_nth by exact Hi. simpl.
  rewrite (nth_indep _ s_zero (b i 0))
    by (rewrite length_map, length_seq; exact Hj).
  rewrite (map_nth (fun j0 => b i j0) (seq 0 n) 0 j).
  now rewrite seq_nth by exact Hj.
Qed.

(** The second call of a pair inserts the negated transpose of the block of
    the first call, with rows and columns exchanged. *)
Definition negated_transpose_of (d t : MatAdd (Scalar := Scalar)) : Prop :=
  add_rows t = add_cols d
  /\ add_cols t = add_rows d
  /\ forall i j,
       i < length (add_rows d) -> j < length (add_cols d) ->
       block_entry t j i = s_neg (block_entry d i j).

(** A sequence of calls made of pairs: the block for rows [rows] and columns
    [cols], then its negated transpose. *)
Inductive direct_then_transposed (rows cols : list Z)
    : list (MatAdd (Scalar := Scalar)) -> Prop :=
| dt_nil : direct_then_transposed rows cols []
| dt_pair (d t : MatAdd) (rest : list MatAdd) :
    add_rows d = rows -> add_cols d = cols ->
    negated_transpose_of d t ->
    direct_then_transposed rows cols rest ->
    direct_then_transposed rows cols (d :: t :: rest).

Lemma direct_then_transposed_app rows cols (l1 l2 : list MatAdd) :
  direct_then_transposed rows cols l1 ->
  direct_then_transposed rows cols l2 ->
  direct_then_transposed rows cols (l1 ++ l2).
Proof.
  intros Hl1 Hl2. induction Hl1; simpl; [exact Hl2|]. constructor; auto.
Qed.

Lemma antisymmetric_row_step (mfv : MatrixFormVol) (bsc : Scalar) (sym_block : bool)
    (alm aln : AsmList) (st : State) (iem : nat * AsmEntry) :
  (sym mfv < 0)%Z ->
  exists d t,
    mat_log (row_step eval_form mfv bsc true true sym_block alm aln st iem)
    = mat_log st ++ [d; t]
    /\ add_rows d = map dof alm /\ add_cols d = map dof aln
    /\ negated_transpose_of d t.
Proof.
  intros Hsym. destruct iem as [i em]. unfold row_step. simpl negb. simpl andb.
  apply Z.ltb_lt in Hsym. rewrite Hsym.
  set (b1 := if negb sym_block
             then unsymmetric_row eval_form mfv bsc true aln i em (matrix_buffer st)
             else symmetric_row eval_form mfv bsc true aln i em (matrix_buffer st)).
  eexists. eexists. split.
  - unfold mat_add, set_buffer. simpl. rewrite <- app_assoc. reflexivity.
  - simpl. split; [reflexivity|]. split; [reflexivity|].
    unfold negated_transpose_of. simpl. split; [reflexivity|]. split; [reflexivity|].
    intros i0 j0 Hi Hj. rewrite length_map in Hi, Hj. unfold cnt.
    unfold block_entry. simpl.
    rewrite !block_of_entry by assumption.
    unfold transpose, chsgn.
    apply Nat.ltb_lt in Hi, Hj. unfold cnt. now rewrite Hi, Hj.
Qed.

Lemma antisymmetric_rows (mfv : MatrixFormVol) (bsc : Scalar) (sym_block : bool)
    (alm aln : AsmList) :
  (sym mfv < 0)%Z ->
  forall (rows : list (nat * AsmEntry)) (st : State),
  exists calls,
    mat_log (fold_left (row_step eval_form mfv bsc true true sym_block alm aln) rows st)
    = mat_log st ++ calls
    /\ direct_then_transposed (map dof alm) (map dof aln) calls.
Proof.
  intros Hsym. induction rows as [|iem rows IH]; intros st; simpl.
  - exists []. split; [now rewrite app_nil_r|constructor].
  - destruct (antisymmetric_row_step mfv bsc sym_block alm aln st iem Hsym)
      as (d & t & E & Hr & Hc & Hnt).
    destruct (IH (row_step eval_form mfv bsc true true sym_block alm aln st iem))
      as (calls & E' & Hdt).
    exists (d :: t :: calls). split.
    + rewrite E', E. now rewrite <- app_assoc.
    + constructor; assumption.
Qed.

Lemma skipn_app_exact {A : Type} (l1 l2 : list A) : skipn (length l1) (l1 ++ l2) = l2.
Proof. induction l1; simpl; auto. Qed.

(** Within one row the code does what an antisymmetric form asks for: for a
    form with [sym < 0] and distinct row and column space indices the calls
    come in pairs, the block for the rows of [al[m]] and the columns of
    [al[n]], then the block for the rows of [al[n]] and the columns of [al[m]]
    whose entry [[j][i]] is the negation of entry [[i][j]] of the block just
    inserted.  It says nothing about the values of the first block of a pair:
    that block is the buffer as the rows before left it. *)
Lemma transposed_call_negates_the_call_before :
  forall (block_weights : option (nat -> nat -> Scalar)) (isempty : list bool)
         (marker : Z) (al : list AsmList) (st : State) (mfv : MatrixFormVol),
    form_i mfv <> form_j mfv ->
    (sym mfv < 0)%Z ->
    direct_then_transposed
      (map dof (nth (form_i mfv) al []))
      (map dof (nth (form_j mfv) al []))
      (calls_of_form HERMES_ANY get_internal_marker eval_form new_matrix
         true block_weights isempty marker al st mfv).
Proof.
  intros bw isempty marker al st mfv Hmn Hsym.
  unfold calls_of_form, assemble_volume_matrix_form.
  assert (Hskip : direct_then_transposed
                    (map dof (nth (form_i mfv) al []))
                    (map dof (nth (form_j mfv) al []))
                    (skipn (length (mat_log st)) (mat_log st))).
  { rewrite skipn_all. constructor. }
  destruct (nth (form_i mfv) isempty false || nth (form_j mfv) isempty false);
    [exact Hskip|].
  destruct (abs_lt_1e12 (scaling_factor mfv)); [exact Hskip|].
  destruct (negb (assemble_this_form HERMES_ANY get_internal_marker mfv marker));
    [exact Hskip|].
  match goal with
  | |- context [if ?c then st else _] => destruct c; [exact Hskip|]
  end.
  assert (Htra : negb (Nat.eqb (form_i mfv) (form_j mfv)) && negb (sym mfv =? 0)%Z = true).
  { apply andb_true_iff. split.
    - apply negb_true_iff. now apply Nat.eqb_neq.
    - apply negb_true_iff. apply Z.eqb_neq. lia. }
  rewrite Htra.
  match goal with
  | |- context [fold_left ?f ?rows ?st0] =>
      destruct (antisymmetric_rows mfv
                  (match bw with Some A => A (form_i mfv) (form_j mfv) | None => s_one end)
                  (Nat.eqb (form_i mfv) (form_j mfv) && (sym mfv =? 1)%Z)
                  (nth (form_i mfv) al []) (nth (form_j mfv) al []) Hsym rows st0)
        as (calls & E & Hdt)
  end.
  rewrite E.
  assert (Hlog : forall n, mat_log (get_matrix_buffer new_matrix n st) = mat_log st).
  { intros n. unfold get_matrix_buffer. now destruct (n <=? matrix_buffer_dim st). }
  rewrite Hlog, skipn_app_exact. exact Hdt.
Qed.


(** *** How often the local block is inserted *)

Lemma row_step_call_count (mfv : MatrixFormVol) (bsc : Scalar) (sym_block : bool)
    (alm aln : AsmList) :
  forall (rows : list (nat * AsmEntry)) (st : State),
    length (mat_log (fold_left (row_step eval_form mfv bsc true false sym_block alm aln)
                               rows st))
    = length (mat_log st)
      + length (filter (fun iem : nat * AsmEntry => (0 <=? dof (snd iem))%Z) rows).
Proof.
  induction rows as [|[i em] rows IH]; intros st; simpl; [lia|].
  rewrite IH. destruct (dof em <? 0)%Z eqn:E.
  - assert (E' : (0 <=? dof em)%Z = false) by (apply Z.leb_gt; now apply Z.ltb_lt).
    rewrite E'. reflexivity.
  - assert (E' : (0 <=? dof em)%Z = true) by (apply Z.leb_le; apply Z.ltb_ge in E; lia).
    rewrite E'. simpl. rewrite length_app. simpl. lia.
Qed.

Lemma filter_combine_seq (al : AsmList (Scalar := Scalar)) : forall start,
  length (filter (fun iem : nat * AsmEntry => (0 <=? dof (snd iem))%Z)
                 (combine (seq start (length al)) al))
  = length (filter (fun em : AsmEntry => (0 <=? dof em)%Z) al).
Proof.
  induction al as [|em al IH]; intros start; simpl; [reflexivity|].
  destruct (0 <=? dof em)%Z; simpl; now rewrite IH.
Qed.

(** A form that is assembled and needs no transposed block has its local
    block inserted once for every row of [al[m]] with a nonnegative DOF. *)
Lemma volume_block_inserted_once_per_row
    (isempty : list bool) (marker : Z) (al : list AsmList) (st : State)
    (mfv : MatrixFormVol) :
  nth (form_i mfv) isempty false = false ->
  nth (form_j mfv) isempty false = false ->
  abs_lt_1e12 (scaling_factor mfv) = false ->
  assemble_this_form HERMES_ANY get_internal_marker mfv marker = true ->
  (form_i mfv = form_j mfv \/ sym mfv = 0%Z) ->
  length (calls_of_form HERMES_ANY get_internal_marker eval_form new_matrix
            true None isempty marker al st mfv)
  = length (filter (fun em : AsmEntry => (0 <=? dof em)%Z) (nth (form_i mfv) al [])).
Proof.
  intros Hm Hn Hsf Harea Htra.
  unfold calls_of_form, assemble_volume_matrix_form.
  rewrite Hm, Hn, Hsf, Harea. simpl.
  assert (E : negb (Nat.eqb (form_i mfv) (form_j mfv)) && negb (sym mfv =? 0)%Z = false).
  { destruct Htra as [H|H].
    - rewrite H, Nat.eqb_refl. reflexivity.
    - rewrite H. simpl. apply andb_false_r. }
  rewrite E, length_skipn, row_step_call_count.
  unfold cnt. rewrite filter_combine_seq.
  assert (Hlog : forall n, mat_log (get_matrix_buffer new_matrix n st) = mat_log st).
  { intros n. unfold get_matrix_buffer. now destruct (n <=? matrix_buffer_dim st). }
  rewrite Hlog. lia.
Qed.

End VolumeMatrixFormsFacts.

Section VolumeMatrixFormsRuns.

Import Assembly AssemblyExample.

(** C1, on a state whose assembly list has two unconstrained shapes (DOFs 0
    and 1): the one non-symmetric form has its local block inserted twice,
    after the first row and after the second.  The global entry (0, 0) gets
    the value of the form twice; the entry (1, 0) gets the content the buffer
    had before row 1 was computed, and then the value of the form. *)
Theorem volume_block_inserted_after_each_row :
  let log := mat_log (run_forms [form 0 0 0] [[shape 0 0; shape 1 1]]) in
  length log = 2
  /\ added_at log 0 0 = [1%Q; 1%Q]
  /\ added_at log 1 0 = [1010%Q; 11%Q].
Proof. vm_compute. repeat split; reflexivity. Qed.

(** What the sink receives depends on the content of the storage that
    [new_matrix] hands out: with zeroed storage the entry (1, 0) gets 0 and 11,
    with the example content it gets 1010 and 11. *)
Example volume_output_depends_on_fresh_storage :
  added_at (mat_log (run_forms_with (fun _ _ _ => 0%Q) [form 0 0 0]
                       [[shape 0 0; shape 1 1]])) 1 0 = [0%Q; 11%Q]
  /\ added_at (mat_log (run_forms_with example_new_matrix [form 0 0 0]
                          [[shape 0 0; shape 1 1]])) 1 0 = [1010%Q; 11%Q].
Proof. vm_compute. split; reflexivity. Qed.

(** C3, on a state whose assembly list has three unconstrained shapes: a
    form with [sym = 1] assembled after a non-symmetric one inserts, after its
    first row, the cells [[1][2]] and [[2][1]] that the earlier form left in
    the buffer, so what it adds at (1, 2) and at (2, 1) differs. *)
Theorem symmetric_form_inserts_stale_cells :
  let calls := calls_after [form 0 0 0] (form 0 0 1)
                 [[shape 0 0; shape 1 1; shape 2 2]] in
  added_at calls 1 2 = [13%Q; 103%Q; 103%Q]
  /\ added_at calls 2 1 = [22%Q; 103%Q; 103%Q]
  /\ total_at calls 1 2 = 219%Q
  /\ total_at calls 2 1 = 228%Q
  /\ total_at calls 1 2 <> total_at calls 2 1.
Proof. vm_compute. repeat split; try reflexivity. discriminate. Qed.

(** C4, on a state with two unconstrained shapes in space 0 (DOFs 0 and 1)
    and one in space 1 (DOF 10), for the antisymmetric form between the two
    spaces.  The directly computed block is (100, 101).  After row 0 the
    buffer is negated and transposed in place and stays so: row 1 is written
    into it, and the second direct insertion adds the negated entry of row 0
    again.  The matrix receives 100 and -100 at (0, 10) and -100 and 100 at
    (10, 0): both entries end at 0 instead of 100 and -100, whether the fresh
    storage of the buffer was zeroed or not. *)
Theorem antisymmetric_block_is_undone_by_the_next_row :
  let al := [[shape 0 0; shape 1 1]; [shape 0 10]] in
  let mfv := form 0 1 (-1) in
  let calls := calls_after [] mfv al in
  let calls_zeroed :=
    calls_of_form example_any example_marker_table example_eval_form
      (fun _ _ _ => 0%Q) true None [false; false] 1%Z al
      (start_with (fun _ _ _ => 0%Q)) mfv in
  local_value example_eval_form mfv 1%Q (shape 0 0) (shape 0 10) = 100%Q
  /\ local_value example_eval_form mfv 1%Q (shape 1 1) (shape 0 10) = 101%Q
  /\ map add_block calls
     = [[[100%Q]; [1010%Q]]; [[(-100)%Q; (-1010)%Q]];
        [[(-100)%Q]; [101%Q]]; [[100%Q; (-101)%Q]]]
  /\ added_at calls 0 10 = [100%Q; (-100)%Q]
  /\ added_at calls 10 0 = [(-100)%Q; 100%Q]
  /\ total_at calls 0 10 = 0%Q
  /\ total_at calls 10 0 = 0%Q
  /\ map add_block calls_zeroed
     = [[[100%Q]; [0%Q]]; [[(-100)%Q; 0%Q]];
        [[(-100)%Q]; [101%Q]]; [[100%Q; (-101)%Q]]]
  /\ total_at calls_zeroed 0 10 = 0%Q
  /\ total_at calls_zeroed 10 0 = 0%Q
  /\ total_at calls_zeroed 1 10 = 101%Q
  /\ total_at calls_zeroed 10 1 = (-101)%Q.
Proof. vm_compute. repeat split; reflexivity. Qed.

End VolumeMatrixFormsRuns.

(** ** The sparse structure *)

Section SparseStructureFacts.

Import SparseStructure.

Context {Scalar : Type} {ops : ScalarOps Scalar}.

Lemma forallb_agree {A : Type} (f g : A -> bool) (l : list A) :
  (forall x, In x l -> f x = g x) -> forallb f l = forallb g l.
Proof.
  induction l as [|x l IH]; intros H; simpl; [reflexivity|].
  rewrite (H x (or_introl eq_refl)), IH; [reflexivity|].
  intros y Hy. apply H. now right.
Qed.

Lemma forallb_seq_ext (f g : nat -> bool) (n : nat) :
  (forall i, i < n -> f i = g i) ->
  forallb f (seq 0 n) = forallb g (seq 0 n).
Proof.
  intros H. apply forallb_agree. intros i Hi. apply in_seq in Hi. apply H. lia.
Qed.

Lemma nth_map_seq (f : nat -> Z) (n i : nat) :
  i < n -> nth i (map f (seq 0 n)) 0%Z = f i.
Proof.
  intros Hi. rewrite (nth_indep _ 0%Z (f 0)) by (rewrite length_map, length_seq; exact Hi).
  rewrite (map_nth f (seq 0 n) 0 i). now rewrite seq_nth.
Qed.

(** After a call with a matrix sink the structure is up to date. *)
Lemma up_to_date_after_create (dp : DiscreteProblem) (c : Collaborators)
    (m : SparseMatrix (Scalar := Scalar)) (rhs : option (Vector (Scalar := Scalar)))
    (f : bool) (bw : option (nat -> nat -> Scalar)) :
  is_up_to_date (fst (fst (create_sparse_structure dp c (Some m) rhs f bw))) c = true.
Proof.
  unfold create_sparse_structure.
  destruct (is_up_to_date dp c) eqn:E; simpl; [exact E|].
  unfold is_up_to_date. simpl.
  rewrite (forallb_seq_ext _ (fun _ => true)).
  - rewrite Z.eqb_refl. simpl.
    induction (seq 0 (neq c)); simpl; auto.
  - intros i Hi. rewrite nth_map_seq by exact Hi. apply Z.eqb_refl.
Qed.

Lemma is_up_to_date_same_seq (dp : DiscreteProblem) (c c' : Collaborators) :
  neq c' = neq c ->
  (forall i, i < neq c -> space_seq c' i = space_seq c i) ->
  weakform_seq c' = weakform_seq c ->
  is_up_to_date dp c' = is_up_to_date dp c.
Proof.
  intros Hneq Hsp Hwf. unfold is_up_to_date. rewrite Hneq, Hwf.
  rewrite (forallb_seq_ext
             (fun i => (space_seq c' i =? nth i (sp_seq dp) 0)%Z)
             (fun i => (space_seq c i =? nth i (sp_seq dp) 0)%Z)); [reflexivity|].
  intros i Hi. now rewrite Hsp.
Qed.

(** What the sinks hold when [create_sparse_structure] returns: no value. *)
Lemma create_leaves_no_entries (dp : DiscreteProblem) (c : Collaborators)
    (mat : option (SparseMatrix (Scalar := Scalar)))
    (rhs : option (Vector (Scalar := Scalar)))
    (f : bool) (bw : option (nat -> nat -> Scalar)) :
  let r := create_sparse_structure dp c mat rhs f bw in
  (forall m1, snd (fst r) = Some m1 -> entries m1 = [])
  /\ (forall v1, snd r = Some v1 -> vec_entries v1 = []).
Proof.
  unfold create_sparse_structure.
  destruct (is_up_to_date dp c); simpl; split; intros x Hx;
    destruct mat, rhs; simpl in Hx; inversion Hx; reflexivity.
Qed.

(** C2, as the code has it.  When the first call of [assemble] is given a
    matrix sink and neither a space's nor the weak form's sequence number
    changes afterwards, [is_up_to_date] is true at the second call, and
    [create_sparse_structure] rebuilds nothing: whatever values the numeric
    assembly has added in between, it returns the problem state unchanged and
    the two sinks exactly as the first call left them for the numeric assembly
    (same registered pattern, same number of allocations, no value). *)
Theorem structure_reused_after_matrix_assembly :
  forall (dp : DiscreteProblem) (c c' : Collaborators)
         (m : SparseMatrix (Scalar := Scalar)) (rhs : option (Vector (Scalar := Scalar)))
         (f f' : bool) (bw bw' : option (nat -> nat -> Scalar))
         (vals : list (Z * Z * Scalar)) (vvals : list (Z * Scalar))
         (dp1 : DiscreteProblem) (m1 : option SparseMatrix) (r1 : option Vector),
    neq c' = neq c ->
    (forall i, i < neq c -> space_seq c' i = space_seq c i) ->
    weakform_seq c' = weakform_seq c ->
    create_sparse_structure dp c (Some m) rhs f bw = (dp1, m1, r1) ->
    is_up_to_date dp1 c' = true
    /\ create_sparse_structure dp1 c'
         (option_map (fun x => with_entries x vals) m1)
         (option_map (fun v => with_vec_entries v vvals) r1) f' bw'
       = (dp1, m1, r1).
Proof.
  intros dp c c' m rhs f f' bw bw' vals vvals dp1 m1 r1 Hneq Hsp Hwf Hcreate.
  assert (Hup : is_up_to_date dp1 c' = true).
  { rewrite (is_up_to_date_same_seq dp1 c c' Hneq Hsp Hwf).
    pose proof (up_to_date_after_create dp c m rhs f bw) as H.
    now rewrite Hcreate in H. }
  split; [exact Hup|].
  pose proof (create_leaves_no_entries dp c (Some m) rhs f bw) as [Hm Hv].
  rewrite Hcreate in Hm, Hv. simpl in Hm, Hv.
  unfold create_sparse_structure at 1. rewrite Hup.
  f_equal; [f_equal|].
  - destruct m1 as [x|]; simpl; [|reflexivity].
    specialize (Hm x eq_refl). destruct x; simpl in *. now subst.
  - destruct r1 as [v|]; simpl; [|reflexivity].
    specialize (Hv v eq_refl). destruct v; simpl in *. now subst.
Qed.

(** The volume pass registers nothing for a block it is told to skip. *)
Lemma pre_add_volume_respects_weights (c : Collaborators) (f : bool)
    (bw : option (nat -> nat -> Scalar)) (s : TraverseState) (al : list (list Z))
    (p : PreAdd) :
  In p (pre_add_volume c f bw s al) ->
  skip_block f bw (row_space p) (col_space p) = false.
Proof.
  unfold pre_add_volume. intros H.
  apply in_flat_map in H. destruct H as (m & _ & H).
  apply in_flat_map in H. destruct H as (n & _ & H).
  destruct (skip_block f bw m n) eqn:E; [destruct H|].
  destruct (get_blocks c f m n && negb (is_null (nth m (e s) None))
            && negb (is_null (nth n (e s) None))); [|destruct H].
  unfold for_dof_pairs in H.
  apply in_flat_map in H. destruct H as (di & _ & H).
  destruct (0 <=? di)%Z; [|destruct H].
  apply in_flat_map in H. destruct H as (dj & _ & H).
  destruct (0 <=? dj)%Z; [|destruct H].
  destruct H as [<-|[]]. exact E.
Qed.

End SparseStructureFacts.

Section SparseStructureRuns.

Import SparseStructure StructureExample.

(** The claim of C2 as stated fails for right-hand-side-only assembly: with
    no matrix sink, [have_matrix] stays false, [is_up_to_date] is false at the
    second call although no sequence number changed, and the vector is
    allocated a second time. *)
Lemma structure_not_reused_without_matrix_sink :
  let first := create_sparse_structure (init 2) example_collaborators
                 None (Some empty_vector) false None in
  let dp1 := fst (fst first) in
  let second := create_sparse_structure dp1 example_collaborators
                  None (snd first) false None in
  is_up_to_date dp1 example_collaborators = false
  /\ option_map vec_allocs (snd second) = Some 2.
Proof. vm_compute. split; reflexivity. Qed.

Lemma structure_reused_after_matrix_assembly_witness :
  neq example_collaborators = neq example_collaborators
  /\ (forall i, i < neq example_collaborators ->
        space_seq example_collaborators i = space_seq example_collaborators i)
  /\ weakform_seq example_collaborators = weakform_seq example_collaborators
  /\ (let first := create_sparse_structure (init 2) example_collaborators
                     (Some empty_matrix) (Some empty_vector) false None in
      let dp1 := fst (fst first) in
      let m1 := snd (fst first) in
      let r1 := snd first in
      is_up_to_date dp1 example_collaborators = true
      /\ create_sparse_structure dp1 example_collaborators
           (option_map (fun x => with_entries x [(0%Z, 0%Z, 1%Q)]) m1)
           (option_map (fun v => with_vec_entries v [(0%Z, 1%Q)]) r1) false None
         = (dp1, m1, r1)).
Proof.
  split; [reflexivity|]. split; [reflexivity|]. split; [reflexivity|].
  cbv zeta.
  apply (structure_reused_after_matrix_assembly
           (init 2) example_collaborators example_collaborators
           empty_matrix (Some empty_vector) false false None None
           [(0%Z, 0%Z, 1%Q)] [(0%Z, 1%Q)]).
  - reflexivity.
  - reflexivity.
  - reflexivity.
  - destruct (create_sparse_structure (init 2) example_collaborators
                (Some empty_matrix) (Some empty_vector) false None) as [[a b] d].
    reflexivity.
Defined.

(** C8, on the example: with [A[1][0] = 0] and [force_diagonal_blocks] false
    the discovery pass still registers the pair (11, 0), whose row is a DOF of
    space 1 and whose column is a DOF of space 0.  It is registered by the DG
    loop while it handles the block (0, 1), whose weight is 1; the volume loop
    registers nothing for the block (1, 0). *)
Theorem dg_pass_registers_zero_weight_block :
  let bw := Some example_weights in
  abs_lt_1e12 (example_weights 1 0) = true
  /\ In {| row_space := 1; col_space := 0; row := 11%Z; col := 0%Z |}
        (registrations example_collaborators false bw)
  /\ In {| row_space := 1; col_space := 0; row := 11%Z; col := 0%Z |}
        (pre_add_DG example_collaborators false bw example_state [[0%Z]; [10%Z]])
  /\ filter (fun p => Nat.eqb (row_space p) 1 && Nat.eqb (col_space p) 0)
            (pre_add_volume example_collaborators false bw example_state [[0%Z]; [10%Z]])
     = []
  /\ option_map
       (fun m => existsb (fun p => (row p =? 11)%Z && (col p =? 0)%Z) (registered m))
       (snd (fst (create_sparse_structure (init 2) example_collaborators
                    (Some empty_matrix) None false bw)))
     = Some true.
Proof.
  cbv zeta. split; [reflexivity|]. split; [vm_compute; tauto|].
  split; [vm_compute; tauto|]. split; vm_compute; reflexivity.
Qed.

End SparseStructureRuns.

(** ** Form evaluation *)

Section QuadratureFacts.

Import Quadrature.

Context {Scalar : Type} {ops : ScalarOps Scalar}.

(** One level of [eval_form_adaptive]. *)
Lemma eval_form_adaptive_unfold (subelement : list nat -> Z -> Scalar) (f : Form)
    (fuel : nat) (transforms : list nat) (order_init : Z) (result_init : Scalar) :
  eval_form_adaptive subelement f fuel transforms order_init result_init
  = let order := (order_init + adapt_order_increase f)%Z in
    let sum := sum_of_sons subelement transforms order in
    if abs_lt_1e6 sum then Done sum
    else if tol_lt (rel_error sum result_init) (adapt_rel_error_tol f) then Done sum
    else
      match fuel with
      | O => OutOfFuel
      | S fuel' =>
          r0 <- eval_form_adaptive subelement f fuel' (transforms ++ [0]) order
                  (subelement (transforms ++ [0]) order) ;;
          r1 <- eval_form_adaptive subelement f fuel' (transforms ++ [1]) order
                  (subelement (transforms ++ [1]) order) ;;
          r2 <- eval_form_adaptive subelement f fuel' (transforms ++ [2]) order
                  (subelement (transforms ++ [2]) order) ;;
          r3 <- eval_form_adaptive subelement f fuel' (transforms ++ [3]) order
                  (subelement (transforms ++ [3]) order) ;;
          Done (s_add (s_add (s_add (s_add s_zero r0) r1) r2) r3)
      end.
Proof. destruct fuel; reflexivity. Qed.

(** More fuel never changes a result. *)
Lemma eval_form_adaptive_fuel_mono (subelement : list nat -> Z -> Scalar) (f : Form) :
  forall fuel transforms order_init result_init r,
    eval_form_adaptive subelement f fuel transforms order_init result_init = Done r ->
    eval_form_adaptive subelement f (S fuel) transforms order_init result_init = Done r.
Proof.
  induction fuel as [|fuel IH]; intros transforms order_init result_init r H;
    rewrite eval_form_adaptive_unfold in H; rewrite eval_form_adaptive_unfold;
    cbv zeta in *;
    destruct (abs_lt_1e6 _); try exact H;
    destruct (tol_lt _ _); try exact H; try discriminate.
  repeat match type of H with
  | bind (eval_form_adaptive ?s ?g fuel ?t ?o ?x) _ = Done _ =>
      let E := fresh "E" in
      destruct (eval_form_adaptive s g fuel t o x) eqn:E; try discriminate;
      rewrite (IH _ _ _ _ E); cbn [bind] in H |- *
  end.
  exact H.
Qed.

End QuadratureFacts.

(** ** The per-state driver *)

Section StateAssemblyFacts.

Import StateAssembly.

Variable assemble_volume_forms : nat -> outcome unit.
Variable assemble_surface_integrals : nat -> nat -> outcome unit.
Variable get_num_surf : nat -> nat.

Lemma allocate_assembly_lists_spec (neq : nat) : forall al h,
  allocate_assembly_lists neq al h
  = (al ++ seq (next_handle h) neq,
     {| next_handle := next_handle h + neq;
        live := live h ++ seq (next_handle h) neq |}).
Proof.
  induction neq as [|neq IH]; intros al h; simpl.
  - rewrite !app_nil_r, Nat.add_0_r. now destruct h.
  - rewrite IH. simpl. rewrite <- !app_assoc. simpl.
    now rewrite Nat.add_succ_r.
Qed.

Lemma remove_not_in (x : nat) (l : list nat) :
  ~ In x l -> remove Nat.eq_dec x l = l.
Proof. apply notin_remove. Qed.

Lemma delete_fresh_handles (n : nat) : forall start l,
  Forall (fun x => x < start) l ->
  fold_left (fun l' x => remove Nat.eq_dec x l') (seq start n) (l ++ seq start n) = l.
Proof.
  induction n as [|n IH]; intros start l Hl; simpl.
  - apply app_nil_r.
  - rewrite remove_app. simpl.
    destruct (Nat.eq_dec start start) as [_|Hne]; [|contradiction].
    rewrite (remove_not_in start l).
    + rewrite (remove_not_in start (seq (S start) n)).
      * apply IH. eapply Forall_impl; [|exact Hl]. simpl. intros; lia.
      * intros Hin. apply in_seq in Hin. lia.
    + intros Hin. rewrite Forall_forall in Hl. specialize (Hl start Hin). lia.
Qed.

Lemma delete_assembly_lists_live (al : list nat) : forall h,
  live (delete_assembly_lists al h)
  = fold_left (fun l' x => remove Nat.eq_dec x l') al (live h).
Proof.
  induction al as [|x al IH]; intros h; simpl; [reflexivity|].
  now rewrite IH.
Qed.

Lemma assemble_surfaces_return (rep : nat) (isurfs : list nat) :
  (forall isurf, In isurf isurfs -> assemble_surface_integrals rep isurf = Done tt) ->
  assemble_surfaces assemble_surface_integrals rep isurfs = Done tt.
Proof.
  induction isurfs as [|isurf rest IH]; intros H; simpl; [reflexivity|].
  rewrite (H isurf) by now left. cbn [bind]. apply IH. intros i Hi. apply H. now right.
Qed.

(** When the state has a usable element, [e[0]] is one, and the assembly of
    the forms returns, the assembly lists are released. *)
Lemma assemble_one_state_releases (neq : nat) (stage_idx : list nat)
    (e : list (option nat)) (h : Heap) (rep e0 : nat) :
  consistent h ->
  init_state stage_idx e = Some rep ->
  nth 0 e None = Some e0 ->
  assemble_volume_forms rep = Done tt ->
  (forall isurf, isurf < get_num_surf e0 -> assemble_surface_integrals rep isurf = Done tt) ->
  exists h',
    assemble_one_state assemble_volume_forms assemble_surface_integrals get_num_surf
      neq stage_idx e h = Done h'
    /\ live h' = live h.
Proof.
  intros Hc Hrep He0 Hvol Hsurf. unfold assemble_one_state.
  rewrite allocate_assembly_lists_spec, Hrep, Hvol. cbn [bind]. rewrite He0.
  rewrite assemble_surfaces_return
    by (intros isurf Hin; apply Hsurf; apply in_seq in Hin; lia).
  cbn [bind]. eexists. split; [reflexivity|].
  rewrite delete_assembly_lists_live. simpl.
  now apply delete_fresh_handles.
Qed.

(** When no element of the state is usable, the early return leaves every
    assembly list the call allocated alive. *)
Lemma assemble_one_state_leaks (neq : nat) (stage_idx : list nat)
    (e : list (option nat)) (h : Heap) :
  init_state stage_idx e = None ->
  assemble_one_state assemble_volume_forms assemble_surface_integrals get_num_surf
    neq stage_idx e h
  = Done {| next_handle := next_handle h + neq;
            live := live h ++ seq (next_handle h) neq |}.
Proof.
  intros Hrep. unfold assemble_one_state.
  now rewrite allocate_assembly_lists_spec, Hrep.
Qed.

(** When the state has a usable element but [e[0]] is NULL, the call ends in
    the dereference of [e[0]], before the deletion loop. *)
Lemma assemble_one_state_needs_first_element (neq : nat) (stage_idx : list nat)
    (e : list (option nat)) (h : Heap) (rep : nat) :
  init_state stage_idx e = Some rep ->
  nth 0 e None = None ->
  assemble_volume_forms rep = Done tt ->
  assemble_one_state assemble_volume_forms assemble_surface_integrals get_num_surf
    neq stage_idx e h = Fatal NullDereference.
Proof.
  intros Hrep He0 Hvol. unfold assemble_one_state.
  rewrite allocate_assembly_lists_spec, Hrep, Hvol. cbn [bind]. now rewrite He0.
Qed.

(** C10, on a stage of two spaces, whatever the assembly of the forms does.
    On the state [e = [NULL, NULL]] the call returns with the two assembly
    lists it allocated still alive.  On the state [e = [element 7, NULL]] it
    releases them when the assembly of the forms returns; on
    [e = [NULL, element 7]] it does not reach the deletion loop either: it
    stops in [e[0]->get_num_surf()]. *)
Theorem assembly_lists_leak_on_empty_state :
  let h := {| next_handle := 0; live := [] |} in
  let run := assemble_one_state assemble_volume_forms assemble_surface_integrals
               get_num_surf 2 [0; 1] in
  init_state [0; 1] [None; None] = None
  /\ run [None; None] h = Done {| next_handle := 2; live := [0; 1] |}
  /\ (assemble_volume_forms 7 = Done tt ->
      (forall isurf, isurf < get_num_surf 7 ->
         assemble_surface_integrals 7 isurf = Done tt) ->
      run [Some 7; None] h = Done {| next_handle := 2; live := [] |})
  /\ (assemble_volume_forms 7 = Done tt ->
      run [None; Some 7] h = Fatal NullDereference).
Proof.
  cbv zeta. split; [reflexivity|]. split; [|split].
  - exact (assemble_one_state_leaks 2 [0; 1] [None; None]
             {| next_handle := 0; live := [] |} eq_refl).
  - intros Hvol Hsurf. unfold assemble_one_state. simpl.
    rewrite Hvol. cbn [bind].
    rewrite assemble_surfaces_return
      by (intros isurf Hin; apply Hsurf; apply in_seq in Hin; lia).
    reflexivity.
  - intros Hvol.
    exact (assemble_one_state_needs_first_element 2 [0; 1] [None; Some 7]
             {| next_handle := 0; live := [] |} 7 eq_refl eq_refl Hvol).
Qed.

End StateAssemblyFacts.

Section StateAssemblyRuns.

Import StateAssembly.

(** The three states with forms whose assembly returns, on triangles. *)
Example one_state_runs :
  let run := assemble_one_state (fun _ => Done tt) (fun _ _ => Done tt) (fun _ => 3)
               2 [0; 1] in
  let h := {| next_handle := 0; live := [] |} in
  run [None; None] h = Done {| next_handle := 2; live := [0; 1] |}
  /\ run [Some 7; None] h = Done {| next_handle := 2; live := [] |}
  /\ run [None; Some 7] h = Fatal NullDereference.
Proof. vm_compute. repeat split; reflexivity. Qed.

End StateAssemblyRuns.
(** ** The multimesh tree: lookup, re-insertion and enumeration *)

Section MultimeshLookup.

Import Multimesh.

Lemma find_node_occurs (q : list nat) : forall t n,
  find_node q t = Done n -> occurs t q.
Proof.
  induction q as [|x q IH]; intros t n H; simpl in *; [exact I|].
  destruct (get_left_son t) as [l|] eqn:El.
  - destruct (Nat.eqb (get_transformation l) x) eqn:E.
    + left. exists l. apply Nat.eqb_eq in E. eauto.
    + destruct (get_right_son t) as [r|] eqn:Er; [|discriminate].
      destruct (Nat.eqb (get_transformation r) x) eqn:E2; [|discriminate].
      right. exists r. apply Nat.eqb_eq in E2. eauto.
  - destruct (get_right_son t) as [r|] eqn:Er; [|discriminate].
    destruct (Nat.eqb (get_transformation r) x) eqn:E2; [|discriminate].
    right. exists r. apply Nat.eqb_eq in E2. eauto.
Qed.

Lemma find_node_outcomes (q : list nat) : forall t,
  (exists n, find_node q t = Done n) \/ find_node q t = Fatal TransformationNotFound.
Proof.
  induction q as [|x q IH]; intros t; simpl; [eauto|].
  destruct (get_left_son t) as [l|].
  - destruct (Nat.eqb (get_transformation l) x); [apply IH|].
    destruct (get_right_son t) as [r|]; [|auto].
    destruct (Nat.eqb (get_transformation r) x); [apply IH|auto].
  - destruct (get_right_son t) as [r|]; [|auto].
    destruct (Nat.eqb (get_transformation r) x); [apply IH|auto].
Qed.

(** [find_node] returns a node exactly for the transformation paths that lead
    to a node of the tree; for every other path it stops with the error
    "Transformation of a central element not found in the multimesh tree". *)
Theorem find_node_decides_occurrence (t : NeighborNode) (q : list nat)
    (WF : well_formed t) :
  (occurs t q -> exists n, find_node q t = Done n)
  /\ (~ occurs t q -> find_node q t = Fatal TransformationNotFound).
Proof.
  split.
  - intros Ho. destruct (occurs_find q t WF Ho) as (n & Hf & _). eauto.
  - intros Hno. destruct (find_node_outcomes q t) as [(n & Hf)|Hf]; [|exact Hf].
    exfalso. apply Hno. eapply find_node_occurs; eauto.
Qed.

Lemma insert_then_find_self (p : list nat) : forall t t',
  well_formed t ->
  insert_into_multimesh_tree t p = Done t' ->
  exists n, find_node p t' = Done n.
Proof.
  intros t t' WF H.
  destruct (occurs_find p t' (insert_well_formed p t t' WF H)
              (insert_occurs_self p t t' H)) as (n & Hf & _).
  eauto.
Qed.

(** After a path is inserted, [find_node] resolves it, and every path that
    [find_node] resolved before the insertion is still resolved. *)
Theorem inserted_path_is_found (t t' : NeighborNode) (p : list nat)
    (WF : well_formed t)
    (H : insert_into_multimesh_tree t p = Done t') :
  (exists n, find_node p t' = Done n)
  /\ (forall q n, find_node q t = Done n -> exists n', find_node q t' = Done n').
Proof.
  split; [eapply insert_then_find_self; eauto|].
  intros q n Hf.
  pose proof (find_node_occurs q t n Hf) as Ho.
  pose proof (insert_occurs_mono p t t' q H Ho) as Ho'.
  destruct (occurs_find q t' (insert_well_formed p t t' WF H) Ho') as (n' & Hf' & _).
  eauto.
Qed.

(** Inserting a path a second time leaves the tree as it is. *)
Theorem insertion_is_idempotent (p : list nat) : forall t t',
  insert_into_multimesh_tree t p = Done t' ->
  insert_into_multimesh_tree t' p = Done t'.
Proof.
  induction p as [|t0 rest IH]; intros t t' H; simpl in H.
  - inversion H; subst. reflexivity.
  - destruct t as [lbl [l|] [r|]]; simpl in H.
    + destruct (Nat.eqb (get_transformation l) t0) eqn:El.
      * destruct (insert_into_multimesh_tree l rest) as [l'| |] eqn:E;
          inversion H; subst; clear H.
        simpl. rewrite (insert_keeps_label _ _ _ E), El.
        rewrite (IH _ _ E). reflexivity.
      * destruct (Nat.eqb (get_transformation r) t0) eqn:Er; [|discriminate].
        destruct (insert_into_multimesh_tree r rest) as [r'| |] eqn:E;
          inversion H; subst; clear H.
        simpl. rewrite El, (insert_keeps_label _ _ _ E), Er.
        rewrite (IH _ _ E). reflexivity.
    + destruct (Nat.eqb (get_transformation l) t0) eqn:El.
      * destruct (insert_into_multimesh_tree l rest) as [l'| |] eqn:E;
          inversion H; subst; clear H.
        simpl. rewrite (insert_keeps_label _ _ _ E), El.
        rewrite (IH _ _ E). reflexivity.
      * destruct (insert_into_multimesh_tree (new_NeighborNode t0) rest) as [r'| |] eqn:E;
          inversion H; subst; clear H.
        simpl. rewrite El, (insert_keeps_label _ _ _ E). simpl.
        rewrite Nat.eqb_refl, (IH _ _ E). reflexivity.
    + discriminate.
    + destruct (insert_into_multimesh_tree (new_NeighborNode t0) rest) as [l'| |] eqn:E;
        inversion H; subst; clear H.
      simpl. rewrite (insert_keeps_label _ _ _ E). simpl.
      rewrite Nat.eqb_refl, (IH _ _ E). reflexivity.
Qed.

Lemma insert_outcomes (p : list nat) : forall t,
  well_formed t ->
  (exists t', insert_into_multimesh_tree t p = Done t' /\ well_formed t')
  \/ insert_into_multimesh_tree t p = Fatal MoreThanTwoSons.
Proof.
  induction p as [|t0 rest IH]; intros t WF.
  - left. exists t. simpl. auto.
  - assert (Hnew : (exists t', insert_into_multimesh_tree (new_NeighborNode t0) rest = Done t'
                               /\ well_formed t')
                   \/ insert_into_multimesh_tree (new_NeighborNode t0) rest
                      = Fatal MoreThanTwoSons)
      by (apply IH; exact I).
    destruct t as [lbl [l|] [r|]]; simpl in WF |- *.
    + destruct WF as (Hne & WFl & WFr).
      destruct (Nat.eqb (get_transformation l) t0) eqn:El.
      * destruct (IH l WFl) as [(l' & E & WF')|E]; rewrite E; simpl; [|auto].
        left. eexists. split; [reflexivity|]. simpl.
        rewrite (insert_keeps_label _ _ _ E). auto.
      * destruct (Nat.eqb (get_transformation r) t0) eqn:Er; [|auto].
        destruct (IH r WFr) as [(r' & E & WF')|E]; rewrite E; simpl; [|auto].
        left. eexists. split; [reflexivity|]. simpl.
        rewrite (insert_keeps_label _ _ _ E). auto.
    + destruct (Nat.eqb (get_transformation l) t0) eqn:El.
      * destruct (IH l WF) as [(l' & E & WF')|E]; rewrite E; simpl; [|auto].
        left. eexists. split; [reflexivity|]. simpl. exact WF'.
      * destruct Hnew as [(r' & E & WF')|E]; rewrite E; simpl; [|auto].
        left. eexists. split; [reflexivity|]. simpl.
        rewrite (insert_keeps_label _ _ _ E). simpl.
        apply Nat.eqb_neq in El. auto.
    + destruct WF.
    + destruct Hnew as [(l' & E & WF')|E]; rewrite E; simpl; [|auto].
      left. eexists. split; [reflexivity|]. simpl. exact WF'.
Qed.

Lemma insert_all_outcomes (ps : list (list nat)) : forall t,
  well_formed t ->
  (exists t', insert_all t ps = Done t' /\ well_formed t')
  \/ insert_all t ps = Fatal MoreThanTwoSons.
Proof.
  induction ps as [|p ps IH]; intros t WF; simpl.
  - left. eauto.
  - destruct (insert_outcomes p t WF) as [(t1 & E & WF1)|E]; rewrite E; simpl; [|auto].
    apply IH. exact WF1.
Qed.

Lemma build_multimesh_tree_outcomes (nss : list (option NeighborSearch)) : forall t,
  well_formed t ->
  (exists root, build_multimesh_tree t nss = Done root /\ well_formed root)
  \/ build_multimesh_tree t nss = Fatal MoreThanTwoSons.
Proof.
  induction nss as [|[ns|] nss IH]; intros t WF; simpl.
  - left. eauto.
  - destruct (single_untransformed ns); [now apply IH|].
    destruct (insert_all_outcomes (map central_transformations (neighbors ns)) t WF)
      as [(t1 & E & WF1)|E]; rewrite E; simpl; [|auto].
    now apply IH.
  - now apply IH.
Qed.

(** Building the multimesh tree of an edge from the empty root either
    succeeds, with a tree in which a right son only stands beside a left son
    with a different transformation, or stops with "More than two possible
    sons": the branch of [insert_into_multimesh_tree] that reads the left son
    is never reached with a NULL left son. *)
Theorem build_fails_only_on_a_third_son (neighbor_searches : list (option NeighborSearch)) :
  (exists root,
      build_multimesh_tree (new_NeighborNode 0) neighbor_searches = Done root
      /\ well_formed root)
  \/ build_multimesh_tree (new_NeighborNode 0) neighbor_searches = Fatal MoreThanTwoSons.
Proof. apply build_multimesh_tree_outcomes. exact I. Qed.

End MultimeshLookup.

Section MultimeshLookupRuns.

Import Multimesh.

(** The tree of the paths [0;1], [0;2] and [3]. *)
Definition lookup_tree : NeighborNode :=
  Node 0 (Some (Node 0 (Some (Node 1 None None)) (Some (Node 2 None None))))
         (Some (Node 3 None None)).

Lemma find_node_decides_occurrence_witness :
  (exists n, find_node [0; 2] lookup_tree = Done n)
  /\ find_node [0; 3] lookup_tree = Fatal TransformationNotFound.
Proof.
  assert (WF : well_formed lookup_tree).
  { simpl. repeat split; discriminate. }
  split.
  - apply (proj1 (find_node_decides_occurrence lookup_tree [0; 2] WF)).
    simpl. left. eexists. split; [reflexivity|]. split; [reflexivity|].
    simpl. right. eexists. split; [reflexivity|]. split; [reflexivity|]. exact I.
  - apply (proj2 (find_node_decides_occurrence lookup_tree [0; 3] WF)).
    simpl. intros [(l & [= <-] & _ & [(l2 & [= <-] & E & _)|(r2 & [= <-] & E & _)])
                  |(r & [= <-] & E & _)]; discriminate.
Defined.

Lemma inserted_path_is_found_witness :
  (exists n, find_node [3; 1]
               (Node 0 (Some (Node 0 (Some (Node 1 None None)) (Some (Node 2 None None))))
                       (Some (Node 3 (Some (Node 1 None None)) None))) = Done n)
  /\ (forall q n, find_node q lookup_tree = Done n ->
        exists n', find_node q
                     (Node 0 (Some (Node 0 (Some (Node 1 None None)) (Some (Node 2 None None))))
                             (Some (Node 3 (Some (Node 1 None None)) None))) = Done n').
Proof.
  apply (inserted_path_is_found lookup_tree _ [3; 1]).
  - simpl. repeat split; discriminate.
  - reflexivity.
Defined.

Lemma insertion_is_idempotent_witness :
  insert_into_multimesh_tree
    (Node 0 (Some (Node 0 (Some (Node 1 None None)) (Some (Node 2 None None))))
            (Some (Node 3 (Some (Node 1 None None)) None)))
    [3; 1]
  = Done (Node 0 (Some (Node 0 (Some (Node 1 None None)) (Some (Node 2 None None))))
                 (Some (Node 3 (Some (Node 1 None None)) None))).
Proof.
  apply (insertion_is_idempotent [3; 1] lookup_tree). reflexivity.
Defined.

End MultimeshLookupRuns.

Section MultimeshEnumerationFacts.

Import Multimesh MultimeshEnumeration.

Lemma traverse_multimesh_tree_nonzero : forall n,
  Forall (fun x => x <> 0) (labels n) ->
  forall rs cur,
    traverse_multimesh_tree n (rs ++ [cur])
    = Done (rs ++ map (app cur) (leaf_paths n) ++ [cur]).
Proof.
  induction n as [t l r IHl IHr] using NeighborNode_induction.
  intros NZ rs cur.
  simpl in NZ. inversion NZ as [|x xs Ht Hrest]; subst.
  apply Forall_app in Hrest. destruct Hrest as [NZl NZr].
  assert (Et : Nat.eqb t 0 = false) by now apply Nat.eqb_neq.
  assert (Hne : forall (a : list (list nat)) b, a ++ [b] <> []).
  { intros a b E. destruct a; discriminate. }
  assert (Hcons : forall X : list (list nat),
             map (app cur) (map (cons t) X) = map (app (cur ++ [t])) X).
  { intros X. rewrite map_map. apply map_ext. intros q.
    now rewrite <- app_assoc. }
  assert (Hpop : forall pre : list (list nat),
             checked_back_pop (pre ++ [cur ++ [t]]) = Done (pre ++ [cur])).
  { intros pre. unfold checked_back_pop.
    destruct (pre ++ [cur ++ [t]]) eqn:E; [now apply Hne in E|]. rewrite <- E.
    rewrite last_snoc.
    destruct (cur ++ [t]) eqn:E2; [destruct cur; discriminate|]. rewrite <- E2.
    now rewrite back_pop_snoc. }
  assert (Hpush : checked_back_push (rs ++ [cur]) t = Done (rs ++ [cur ++ [t]])).
  { unfold checked_back_push.
    destruct (rs ++ [cur]) eqn:E; [now apply Hne in E|]. rewrite <- E.
    now rewrite back_push_snoc. }
  destruct l as [l|]; destruct r as [r|]; simpl in IHl, IHr |- *; rewrite Et.
  - rewrite Hpush. simpl.
    rewrite (IHl NZl rs (cur ++ [t])). simpl.
    rewrite app_assoc.
    rewrite (IHr NZr (rs ++ map (app (cur ++ [t])) (leaf_paths l)) (cur ++ [t])). simpl.
    rewrite app_assoc, Hpop.
    rewrite Hcons, map_app, <- !app_assoc. reflexivity.
  - rewrite Hpush. simpl.
    rewrite (IHl NZl rs (cur ++ [t])). simpl.
    rewrite app_assoc, Hpop.
    rewrite Hcons, app_nil_r, <- !app_assoc. reflexivity.
  - rewrite Hpush. simpl.
    rewrite (IHr NZr rs (cur ++ [t])). simpl.
    rewrite app_assoc, Hpop.
    rewrite Hcons, <- !app_assoc. reflexivity.
  - destruct (rs ++ [cur]) eqn:E; [now apply Hne in E|]. rewrite <- E.
    rewrite last_snoc, back_push_snoc. unfold push_back.
    simpl. rewrite <- app_assoc. reflexivity.
Qed.

(** On a tree whose root carries the transformation [0] and whose other
    nodes all carry a nonzero transformation,
    [get_multimesh_neighbors_transformations] returns the transformation
    paths from the root to every leaf, left sons before right sons. *)
Theorem enumeration_lists_the_leaf_paths (root : NeighborNode)
    (Hroot : get_transformation root = 0)
    (NZ : Forall (fun x => x <> 0) (labels_below root)) :
  get_multimesh_neighbors_transformations root = Done (leaf_paths_below root).
Proof.
  destruct root as [t l r]. simpl in Hroot. subst t.
  unfold get_multimesh_neighbors_transformations, labels_below, leaf_paths_below in *.
  simpl in NZ |- *.
  apply Forall_app in NZ. destruct NZ as [NZl NZr].
  assert (Hid : forall X : list (list nat), map (app []) X = X).
  { intros X. rewrite <- (map_id X) at 2. apply map_ext. reflexivity. }
  assert (Hpop : forall X : list (list nat), checked_pop_back (X ++ [[]]) = Done X).
  { intros X. unfold checked_pop_back, pop_back.
    destruct (X ++ [[]]) eqn:E; [destruct X; discriminate|]. rewrite <- E.
    now rewrite removelast_last. }
  assert (Hfrom : forall n, Forall (fun x => x <> 0) (labels n) ->
             forall rs, traverse_multimesh_tree n (rs ++ [[]])
                        = Done (rs ++ leaf_paths n ++ [[]])).
  { intros n Hn rs. rewrite (traverse_multimesh_tree_nonzero n Hn rs []).
    now rewrite Hid. }
  unfold push_back. change ([] ++ [[]]) with (@nil (list nat) ++ [[]]).
  destruct l as [l|]; destruct r as [r|].
  - rewrite (Hfrom l NZl []). cbn [bind app].
    rewrite (Hfrom r NZr (leaf_paths l)). cbn [bind].
    rewrite app_assoc, Hpop. reflexivity.
  - rewrite (Hfrom l NZl []). cbn [bind app].
    rewrite Hpop, app_nil_r. reflexivity.
  - cbn [bind]. rewrite (Hfrom r NZr []). cbn [bind app].
    rewrite Hpop. reflexivity.
  - reflexivity.
Qed.

(** The leaves of a subtree that carry a nonzero transformation. *)
Fixpoint nonzero_leaves (node : NeighborNode) : nat :=
  match node with
  | Node t None None => if Nat.eqb t 0 then 0 else 1
  | Node t l r =>
      (match l with Some ln => nonzero_leaves ln | None => 0 end)
      + (match r with Some rn => nonzero_leaves rn | None => 0 end)
  end.

Definition zeros (l : list nat) : nat := count_occ Nat.eq_dec l 0.

Lemma checked_pop_back_length (v r : list (list nat)) :
  checked_pop_back v = Done r -> S (length r) = length v.
Proof.
  intros H.
  assert (Hv : v <> []) by (intros ->; discriminate).
  assert (Hr : r = removelast v).
  { destruct v; [discriminate|]. now inversion H. }
  subst r. rewrite removelast_firstn_len, length_firstn.
  destruct v; [now destruct Hv|]. simpl length. lia.
Qed.

Lemma back_push_length (v : list (list nat)) (x : nat) :
  length (back_push v x) = length v.
Proof.
  destruct v as [|y v]; [reflexivity|].
  destruct (exists_last (l := y :: v)) as (v' & z & E); [discriminate|].
  rewrite E, back_push_snoc, !length_app. reflexivity.
Qed.

Lemma back_pop_length (v : list (list nat)) :
  length (back_pop v) = length v.
Proof.
  destruct v as [|y v]; [reflexivity|].
  destruct (exists_last (l := y :: v)) as (v' & z & E); [discriminate|].
  rewrite E. unfold back_pop.
  destruct (v' ++ [z]) eqn:E2; [destruct v'; discriminate|]. rewrite <- E2.
  rewrite removelast_last, !length_app. reflexivity.
Qed.

Lemma checked_back_push_length (v r : list (list nat)) (x : nat) :
  checked_back_push v x = Done r -> length r = length v.
Proof.
  intros H.
  assert (Hr : r = back_push v x).
  { destruct v; [discriminate|]. now inversion H. }
  subst r. apply back_push_length.
Qed.

Lemma checked_back_pop_length (v r : list (list nat)) :
  checked_back_pop v = Done r -> length r = length v.
Proof.
  intros H.
  assert (Hr : r = back_pop v).
  { unfold checked_back_pop in H. destruct v; [discriminate|].
    destruct (last (l :: v) []); [discriminate|]. now inversion H. }
  subst r. apply back_pop_length.
Qed.

(** Every node with transformation [0] removes one running vector, every
    leaf with a nonzero transformation adds one. *)
Lemma traverse_multimesh_tree_length : forall n running r',
  traverse_multimesh_tree n running = Done r' ->
  length r' + zeros (labels n) = length running + nonzero_leaves n.
Proof.
  induction n as [t l r IHl IHr] using NeighborNode_induction.
  intros running r' H.
  assert (Hsons : forall r0 r2,
             (r1 <- match l with
                    | Some ln => traverse_multimesh_tree ln r0
                    | None => Done r0
                    end ;;
              match r with
              | Some rn => traverse_multimesh_tree rn r1
              | None => Done r1
              end) = Done r2 ->
             length r2
             + zeros ((match l with Some ln => labels ln | None => [] end)
                        ++ (match r with Some rn => labels rn | None => [] end))
             = length r0
               + ((match l with Some ln => nonzero_leaves ln | None => 0 end)
                  + (match r with Some rn => nonzero_leaves rn | None => 0 end))).
  { intros r0 r2 E. unfold zeros in *. rewrite count_occ_app.
    destruct l as [ln|]; simpl in IHl, E.
    - destruct (traverse_multimesh_tree ln r0) as [r1| |] eqn:E1; try discriminate.
      simpl in E. specialize (IHl _ _ E1).
      destruct r as [rn|]; simpl in IHr.
      + specialize (IHr _ _ E). lia.
      + inversion E; subst. simpl. lia.
    - destruct r as [rn|]; simpl in IHr.
      + specialize (IHr _ _ E). simpl. lia.
      + inversion E; subst. simpl. lia. }
  simpl in H. unfold zeros. cbn [labels count_occ].
  destruct (Nat.eqb t 0) eqn:Et.
  - apply Nat.eqb_eq in Et. subst t.
    match type of H with
    | (r2 <- ?S ;; _) = _ => destruct S as [r2| |] eqn:E2; try discriminate
    end.
    simpl in H. apply checked_pop_back_length in H.
    specialize (Hsons _ _ E2). unfold zeros in Hsons.
    destruct (Nat.eq_dec 0 0) as [_|C]; [|now destruct C].
    destruct l as [ln|]; destruct r as [rn|]; simpl nonzero_leaves; simpl in Hsons |- *; lia.
  - apply Nat.eqb_neq in Et.
    destruct (Nat.eq_dec t 0) as [C|_]; [now destruct Et|].
    assert (Hinner :
              (r0 <- checked_back_push running t ;;
               r2 <- (r1 <- match l with
                            | Some ln => traverse_multimesh_tree ln r0
                            | None => Done r0
                            end ;;
                      match r with
                      | Some rn => traverse_multimesh_tree rn r1
                      | None => Done r1
                      end) ;;
               checked_back_pop r2) = Done r' ->
              length r'
              + zeros ((match l with Some ln => labels ln | None => [] end)
                         ++ (match r with Some rn => labels rn | None => [] end))
              = length running
                + ((match l with Some ln => nonzero_leaves ln | None => 0 end)
                   + (match r with Some rn => nonzero_leaves rn | None => 0 end))).
    { intros E.
      destruct (checked_back_push running t) as [r0| |] eqn:E0; try discriminate.
      apply checked_back_push_length in E0.
      cbn [bind] in E.
      match type of E with
      | (r2 <- ?S ;; _) = _ => destruct S as [r2| |] eqn:E2; try discriminate
      end.
      cbn [bind] in E. specialize (Hsons _ _ E2).
      apply checked_back_pop_length in E. lia. }
    destruct l as [ln|]; destruct r as [rn|].
    + specialize (Hinner H). unfold zeros in Hinner. simpl in Hinner |- *. lia.
    + specialize (Hinner H). unfold zeros in Hinner. simpl in Hinner |- *. lia.
    + specialize (Hinner H). unfold zeros in Hinner. simpl in Hinner |- *. lia.
    + assert (Hr : r' = push_back (back_push running t) (last running [])).
      { destruct running; [discriminate|]. now inversion H. }
      subst r'. unfold push_back.
      rewrite length_app, back_push_length. simpl.
      apply Nat.eqb_neq in Et. rewrite Et. lia.
Qed.

Lemma nonzero_leaves_bound : forall n, nonzero_leaves n <= length (leaf_paths n).
Proof.
  induction n as [t l r IHl IHr] using NeighborNode_induction.
  destruct l as [l|]; destruct r as [r|]; simpl in *.
  - rewrite length_map, length_app. lia.
  - rewrite length_map, length_app. simpl. lia.
  - rewrite length_map. lia.
  - destruct (Nat.eqb t 0); lia.
Qed.

Lemma zeros_positive (l : list nat) : In 0 l -> 0 < zeros l.
Proof. intros H. unfold zeros. apply (count_occ_In Nat.eq_dec) in H. lia. Qed.

(** A transformation [0] below the root makes
    [get_multimesh_neighbors_transformations] lose neighbors: whatever it
    returns then has fewer entries than the tree has leaves. *)
Theorem enumeration_loses_paths_below_transformation_zero
    (root : NeighborNode) (paths : list (list nat))
    (Hroot : get_transformation root = 0)
    (Hzero : In 0 (labels_below root))
    (H : get_multimesh_neighbors_transformations root = Done paths) :
  length paths < length (leaf_paths_below root).
Proof.
  unfold get_multimesh_neighbors_transformations in H.
  apply traverse_multimesh_tree_length in H.
  apply zeros_positive in Hzero.
  destruct root as [t l r]. simpl in Hroot. subst t.
  unfold labels_below, leaf_paths_below, zeros in *. simpl in *.
  rewrite count_occ_app in *. rewrite length_app.
  destruct l as [l|]; destruct r as [r|]; simpl in *.
  - pose proof (nonzero_leaves_bound l). pose proof (nonzero_leaves_bound r). lia.
  - pose proof (nonzero_leaves_bound l). lia.
  - pose proof (nonzero_leaves_bound r). lia.
  - lia.
Qed.

End MultimeshEnumerationFacts.

Section MultimeshEnumerationRuns.

Import Multimesh MultimeshEnumeration.

Lemma enumeration_lists_the_leaf_paths_witness :
  get_multimesh_neighbors_transformations
    (Node 0 (Some (Node 1 (Some (Node 2 None None)) (Some (Node 3 None None))))
            (Some (Node 4 None None)))
  = Done [[1; 2]; [1; 3]; [4]].
Proof.
  apply (enumeration_lists_the_leaf_paths
           (Node 0 (Some (Node 1 (Some (Node 2 None None)) (Some (Node 3 None None))))
                   (Some (Node 4 None None)))).
  - reflexivity.
  - simpl. repeat constructor; discriminate.
Defined.

(** The tree of the paths [1] and [0]: the leaf with transformation [0] takes
    the branch meant for the root, and nothing is reported. *)
Lemma enumeration_loses_paths_below_transformation_zero_witness :
  get_multimesh_neighbors_transformations
    (Node 0 (Some (Node 1 None None)) (Some (Node 0 None None))) = Done []
  /\ length (@nil (list nat))
     < length (leaf_paths_below
                 (Node 0 (Some (Node 1 None None)) (Some (Node 0 None None)))).
Proof.
  split; [reflexivity|].
  apply (enumeration_loses_paths_below_transformation_zero
           (Node 0 (Some (Node 1 None None)) (Some (Node 0 None None))) []).
  - reflexivity.
  - simpl. auto.
  - reflexivity.
Defined.

End MultimeshEnumerationRuns.

(** ** The sparse structure: invalidation and the registered pattern *)

Section SparseStructureMore.

Import SparseStructure StructureLifecycle.

Context {Scalar : Type} {ops : ScalarOps Scalar}.

Lemma forallb_seq_false (f : nat -> bool) (n i : nat) :
  i < n -> f i = false -> forallb f (seq 0 n) = false.
Proof.
  intros Hi Hf. destruct (forallb f (seq 0 n)) eqn:E; [|reflexivity].
  rewrite forallb_forall in E. rewrite E in Hf; [discriminate|]. apply in_seq. lia.
Qed.

Lemma is_up_to_date_false_space (dp : DiscreteProblem) (c : Collaborators) (i : nat) :
  i < neq c -> space_seq c i <> nth i (sp_seq dp) 0%Z ->
  is_up_to_date dp c = false.
Proof.
  intros Hi Hne. unfold is_up_to_date.
  rewrite (forallb_seq_false _ (neq c) i Hi); [|now apply Z.eqb_neq].
  now destruct (negb (weakform_seq c =? wf_seq dp)%Z).
Qed.

Lemma is_up_to_date_false_weakform (dp : DiscreteProblem) (c : Collaborators) :
  weakform_seq c <> wf_seq dp -> is_up_to_date dp c = false.
Proof.
  intros Hne. unfold is_up_to_date.
  apply Z.eqb_neq in Hne. now rewrite Hne.
Qed.

Lemma create_records_sequences (dp : DiscreteProblem) (c : Collaborators)
    (m : SparseMatrix (Scalar := Scalar)) (rhs : option (Vector (Scalar := Scalar)))
    (f : bool) (bw : option (nat -> nat -> Scalar)) :
  let dp1 := fst (fst (create_sparse_structure dp c (Some m) rhs f bw)) in
  (forall i, i < neq c -> nth i (sp_seq dp1) 0%Z = space_seq c i)
  /\ wf_seq dp1 = weakform_seq c.
Proof.
  pose proof (up_to_date_after_create dp c m rhs f bw) as Hup.
  cbv zeta. set (dp1 := fst (fst _)) in *.
  split.
  - intros i Hi.
    destruct (Z.eq_dec (space_seq c i) (nth i (sp_seq dp1) 0%Z)) as [E|E]; [now rewrite E|].
    rewrite (is_up_to_date_false_space dp1 c i Hi E) in Hup. discriminate.
  - destruct (Z.eq_dec (weakform_seq c) (wf_seq dp1)) as [E|E]; [now rewrite E|].
    rewrite (is_up_to_date_false_weakform dp1 c E) in Hup. discriminate.
Qed.

(** When the sequence number of one space, or of the weak form, differs from
    the one recorded by the last [create_sparse_structure] that had a matrix
    sink, the structure is not up to date, and the next call frees the
    matrix, registers the pattern of the current spaces and allocates it
    again. *)
Theorem changed_sequence_forces_rebuild
    (dp : DiscreteProblem) (c c' : Collaborators)
    (m m' : SparseMatrix (Scalar := Scalar)) (rhs rhs' : option (Vector (Scalar := Scalar)))
    (f f' : bool) (bw bw' : option (nat -> nat -> Scalar))
    (Hneq : neq c' = neq c)
    (Hchanged : (exists i, i < neq c /\ space_seq c' i <> space_seq c i)
                \/ weakform_seq c' <> weakform_seq c) :
  let dp1 := fst (fst (create_sparse_structure dp c (Some m) rhs f bw)) in
  is_up_to_date dp1 c' = false
  /\ snd (fst (create_sparse_structure dp1 c' (Some m') rhs' f' bw'))
     = Some (mat_alloc (fold_left pre_add_ij (registrations c' f' bw') (mat_free m'))).
Proof.
  pose proof (create_records_sequences dp c m rhs f bw) as [Hsp Hwf].
  cbv zeta in *. set (dp1 := fst (fst _)) in *.
  assert (Hstale : is_up_to_date dp1 c' = false).
  { destruct Hchanged as [(i & Hi & Hne)|Hne].
    - apply (is_up_to_date_false_space dp1 c' i); [lia|].
      rewrite (Hsp i Hi). exact Hne.
    - apply is_up_to_date_false_weakform. now rewrite Hwf. }
  split; [exact Hstale|].
  unfold create_sparse_structure. rewrite Hstale. reflexivity.
Qed.

(** After [free()] the structure is not up to date for any weak form whose
    sequence number is not [-1], although [have_matrix] keeps its value: the
    next [create_sparse_structure] with a matrix sink builds the pattern
    anew. *)
Theorem free_forces_rebuild
    (dp : DiscreteProblem) (c : Collaborators)
    (m : SparseMatrix (Scalar := Scalar)) (rhs : option (Vector (Scalar := Scalar)))
    (f : bool) (bw : option (nat -> nat -> Scalar))
    (Hseq : weakform_seq c <> (-1)%Z) :
  let dp1 := free dp (Some (neq c)) in
  have_matrix dp1 = have_matrix dp
  /\ is_up_to_date dp1 c = false
  /\ snd (fst (create_sparse_structure dp1 c (Some m) rhs f bw))
     = Some (mat_alloc (fold_left pre_add_ij (registrations c f bw) (mat_free m))).
Proof.
  cbv zeta.
  assert (Hstale : is_up_to_date (free dp (Some (neq c))) c = false)
    by (apply is_up_to_date_false_weakform; exact Hseq).
  split; [reflexivity|]. split; [exact Hstale|].
  unfold create_sparse_structure. rewrite Hstale. reflexivity.
Qed.

(** *** The registered pattern *)

Lemma for_dof_pairs_in (am an : list Z) (emit : Z -> Z -> list PreAdd) (p : PreAdd) :
  In p (for_dof_pairs am an emit) <->
  exists di dj, In di am /\ In dj an /\ (0 <= di)%Z /\ (0 <= dj)%Z /\ In p (emit di dj).
Proof.
  unfold for_dof_pairs. rewrite in_flat_map. split.
  - intros (di & Hdi & H).
    destruct (0 <=? di)%Z eqn:Ei; [|destruct H].
    apply in_flat_map in H. destruct H as (dj & Hdj & H).
    destruct (0 <=? dj)%Z eqn:Ej; [|destruct H].
    apply Z.leb_le in Ei, Ej. exists di, dj. auto.
  - intros (di & dj & Hdi & Hdj & Ei & Ej & H).
    exists di. split; [exact Hdi|].
    apply Z.leb_le in Ei, Ej. rewrite Ei.
    apply in_flat_map. exists dj. split; [exact Hdj|]. now rewrite Ej.
Qed.

Lemma is_null_false (x : option nat) : negb (is_null x) = true <-> x <> None.
Proof. destruct x; simpl; split; intros H; congruence. Qed.

Lemma pre_add_volume_in
    (c : Collaborators) (f : bool) (bw : option (nat -> nat -> Scalar))
    (s : TraverseState) (al : list (list Z)) (p : PreAdd) :
  In p (pre_add_volume c f bw s al) <->
  (row_space p < neq c /\ col_space p < neq c
   /\ skip_block f bw (row_space p) (col_space p) = false
   /\ get_blocks c f (row_space p) (col_space p) = true
   /\ nth (row_space p) (e s) None <> None
   /\ nth (col_space p) (e s) None <> None
   /\ In (row p) (nth (row_space p) al [])
   /\ In (col p) (nth (col_space p) al [])
   /\ (0 <= row p)%Z /\ (0 <= col p)%Z).
Proof.
  unfold pre_add_volume. split.
  - intros H.
    apply in_flat_map in H. destruct H as (m & Hm & H).
    apply in_flat_map in H. destruct H as (n & Hn & H).
    apply in_seq in Hm, Hn.
    destruct (skip_block f bw m n) eqn:Es; [destruct H|].
    destruct (get_blocks c f m n) eqn:Eb; simpl in H; [|destruct H].
    destruct (negb (is_null (nth m (e s) None))) eqn:Em; simpl in H; [|destruct H].
    destruct (negb (is_null (nth n (e s) None))) eqn:En; simpl in H; [|destruct H].
    apply for_dof_pairs_in in H.
    destruct H as (di & dj & Hdi & Hdj & Ei & Ej & [<-|[]]). simpl.
    apply is_null_false in Em, En.
    repeat split; try assumption; lia.
  - intros (Hm & Hn & Es & Eb & Em & En & Hdi & Hdj & Ei & Ej).
    apply in_flat_map. exists (row_space p). split; [apply in_seq; lia|].
    apply in_flat_map. exists (col_space p). split; [apply in_seq; lia|].
    rewrite Es, Eb.
    apply is_null_false in Em, En. rewrite Em, En. simpl.
    apply for_dof_pairs_in. exists (row p), (col p).
    repeat split; try assumption.
    left. destruct p; reflexivity.
Qed.

Lemma pre_add_DG_nonnegative
    (c : Collaborators) (f : bool) (bw : option (nat -> nat -> Scalar))
    (s : TraverseState) (al : list (list Z)) (p : PreAdd) :
  In p (pre_add_DG c f bw s al) -> (0 <= row p)%Z /\ (0 <= col p)%Z.
Proof.
  unfold pre_add_DG. intros H.
  apply in_flat_map in H. destruct H as (m & _ & H).
  apply in_flat_map in H. destruct H as (el & _ & H).
  destruct (skip_block f bw m el); [destruct H|].
  apply in_flat_map in H. destruct H as (ed & _ & H).
  apply in_flat_map in H. destruct H as (neigh & _ & H).
  destruct ((get_blocks c f m el || get_blocks c f el m)
            && negb (is_null (nth m (e s) None))); [|destruct H].
  apply for_dof_pairs_in in H.
  destruct H as (di & dj & _ & _ & Ei & Ej & H).
  apply in_app_or in H. destruct H as [H|H].
  - destruct (get_blocks c f m el); [|destruct H].
    destruct H as [<-|[]]. simpl. auto.
  - destruct (get_blocks c f el m); [|destruct H].
    destruct H as [<-|[]]. simpl. auto.
Qed.

Lemma register_states_nonnegative
    (c : Collaborators) (is_DG f : bool) (bw : option (nat -> nat -> Scalar))
    (sts : list TraverseState) : forall acc,
  Forall (fun p => (0 <= row p)%Z /\ (0 <= col p)%Z) (snd acc) ->
  Forall (fun p => (0 <= row p)%Z /\ (0 <= col p)%Z)
         (snd (fold_left (register_state c is_DG f bw) sts acc)).
Proof.
  induction sts as [|s sts IH]; intros acc Hacc; simpl; [exact Hacc|].
  apply IH. unfold register_state. simpl.
  apply Forall_app. split; [exact Hacc|].
  apply Forall_app. split.
  - destruct is_DG; [|constructor].
    apply Forall_forall. intros p Hp. eapply pre_add_DG_nonnegative; eauto.
  - apply Forall_forall. intros p Hp.
    apply pre_add_volume_in in Hp. tauto.
Qed.

(** No discovery pass, with or without DG forms, registers a matrix position
    with a negative row or column: constrained DOFs never enter the pattern. *)
Theorem pattern_has_no_negative_index
    (c : Collaborators) (f : bool) (bw : option (nat -> nat -> Scalar)) (p : PreAdd) :
  In p (registrations c f bw) -> (0 <= row p)%Z /\ (0 <= col p)%Z.
Proof.
  intros H. unfold registrations in H.
  pose proof (register_states_nonnegative c
                (existsb (fun b => b) (dg_inner_edge_forms c)) f bw (states c)
                (repeat [] (neq c), []) (Forall_nil _)) as HF.
  rewrite Forall_forall in HF. exact (HF p H).
Qed.

(** The pass over the edges registers a position together with its
    transpose: for every position it registers in a block whose transposed
    block the weak form declares as well, it registers the transposed
    position, with the two spaces and the two DOFs exchanged. *)
Theorem edge_pattern_is_closed_under_transposition
    (c : Collaborators) (f : bool) (bw : option (nat -> nat -> Scalar))
    (s : TraverseState) (al : list (list Z)) (p : PreAdd)
    (Hp : In p (pre_add_DG c f bw s al))
    (Hdeclared : get_blocks c f (col_space p) (row_space p) = true) :
  In {| row_space := col_space p; col_space := row_space p;
        row := col p; col := row p |}
     (pre_add_DG c f bw s al).
Proof.
  unfold pre_add_DG in *.
  apply in_flat_map in Hp. destruct Hp as (m & Hm & Hp).
  apply in_flat_map in Hp. destruct Hp as (el & Hel & Hp).
  destruct (skip_block f bw m el) eqn:Es; [destruct Hp|].
  apply in_flat_map in Hp. destruct Hp as (ed & Hed & Hp).
  apply in_flat_map in Hp. destruct Hp as (neigh & Hneigh & Hp).
  destruct ((get_blocks c f m el || get_blocks c f el m)
            && negb (is_null (nth m (e s) None))) eqn:Ec; [|destruct Hp].
  apply for_dof_pairs_in in Hp.
  destruct Hp as (di & dj & Hdi & Hdj & Ei & Ej & Hp).
  apply in_flat_map. exists m. split; [exact Hm|].
  apply in_flat_map. exists el. split; [exact Hel|]. rewrite Es.
  apply in_flat_map. exists ed. split; [exact Hed|].
  apply in_flat_map. exists neigh. split; [exact Hneigh|]. rewrite Ec.
  apply for_dof_pairs_in. exists di, dj.
  repeat split; try assumption.
  apply in_app_or in Hp. apply in_or_app. destruct Hp as [Hp|Hp].
  - destruct (get_blocks c f m el); [|destruct Hp].
    destruct Hp as [<-|[]]. simpl in *. right. rewrite Hdeclared. now left.
  - destruct (get_blocks c f el m); [|destruct Hp].
    destruct Hp as [<-|[]]. simpl in *. left. rewrite Hdeclared. now left.
Qed.

End SparseStructureMore.


Section SparseStructureMoreRuns.

Import SparseStructure StructureLifecycle StructureExample.

(** The example configuration after the weak form was changed. *)
Definition example_collaborators_changed : Collaborators :=
  {| neq := 2;
     space_seq := fun i => 5%Z;
     weakform_seq := 8%Z;
     num_dofs := 4%Z;
     dg_inner_edge_forms := [true];
     get_blocks := fun force m n => true;
     get_element_assembly_list := example_asmlist;
     states := [example_state] |}.

Lemma changed_sequence_forces_rebuild_witness :
  is_up_to_date
    (fst (fst (create_sparse_structure (init 2) example_collaborators
                 (Some empty_matrix) None false None)))
    example_collaborators_changed = false
  /\ snd (fst (create_sparse_structure
                 (fst (fst (create_sparse_structure (init 2) example_collaborators
                              (Some empty_matrix) None false None)))
                 example_collaborators_changed (Some empty_matrix) None false None))
     = Some (mat_alloc (fold_left pre_add_ij
                          (registrations (Scalar := Q) example_collaborators_changed false None)
                          (mat_free empty_matrix))).
Proof.
  apply (changed_sequence_forces_rebuild (init 2) example_collaborators
           example_collaborators_changed empty_matrix empty_matrix None None
           false false None None).
  - reflexivity.
  - right. discriminate.
Defined.

(** The structure built for the example, then discarded. *)
Definition example_freed : DiscreteProblem :=
  free (fst (fst (create_sparse_structure (init 2) example_collaborators
                    (Some empty_matrix) None false None)))
       (Some 2).

Lemma free_forces_rebuild_witness :
  have_matrix example_freed = true
  /\ is_up_to_date example_freed example_collaborators = false
  /\ snd (fst (create_sparse_structure example_freed example_collaborators
                 (Some empty_matrix) None false None))
     = Some (mat_alloc (fold_left pre_add_ij
                          (registrations (Scalar := Q) example_collaborators false None)
                          (mat_free empty_matrix))).
Proof.
  apply (free_forces_rebuild
           (fst (fst (create_sparse_structure (init 2) example_collaborators
                        (Some empty_matrix) None false None)))
           example_collaborators empty_matrix None false None).
  discriminate.
Defined.

Lemma pattern_has_no_negative_index_witness :
  (0 <= 0)%Z /\ (0 <= 10)%Z.
Proof.
  apply (pattern_has_no_negative_index (Scalar := Q) example_collaborators false None
           {| row_space := 0; col_space := 1; row := 0%Z; col := 10%Z |}).
  vm_compute. tauto.
Defined.

Lemma edge_pattern_is_closed_under_transposition_witness :
  In {| row_space := 1; col_space := 0; row := 11%Z; col := 0%Z |}
     (pre_add_DG (Scalar := Q) example_collaborators false None example_state
        [[0%Z]; [10%Z]]).
Proof.
  apply (edge_pattern_is_closed_under_transposition (Scalar := Q)
           example_collaborators false None example_state [[0%Z]; [10%Z]]
           {| row_space := 0; col_space := 1; row := 0%Z; col := 11%Z |}).
  - vm_compute. tauto.
  - reflexivity.
Defined.

End SparseStructureMoreRuns.
(** ** Volume matrix forms: the matrix sink and the local buffer *)

Section VolumeMatrixFormsMore.

Import Assembly.

Context {Scalar : Type} {ops : ScalarOps Scalar}.
Variable HERMES_ANY : String.string.
Variable get_internal_marker : String.string -> Z.
Variable eval_form : MatrixFormVol (Scalar := Scalar) -> Z -> Z -> Scalar.
Variable new_matrix : nat -> Buffer (Scalar := Scalar).

Lemma fold_left_invariant {A B : Type} (P : A -> Prop) (f : A -> B -> A) (l : list B) :
  (forall a b, P a -> P (f a b)) -> forall a, P a -> P (fold_left f l a).
Proof.
  intros Hstep. induction l as [|b l IH]; intros a Ha; simpl; auto.
Qed.

Lemma row_step_without_sink (mfv : MatrixFormVol) (bsc : Scalar) (tra sym_block : bool)
    (alm aln : AsmList) (st : State) (iem : nat * AsmEntry) :
  mat_log (row_step eval_form mfv bsc false tra sym_block alm aln st iem) = mat_log st.
Proof.
  destruct iem as [i em]. unfold row_step.
  destruct (negb tra && (dof em <? 0)%Z); [reflexivity|].
  destruct tra; reflexivity.
Qed.

(** Without a matrix sink ([mat == NULL]) the assembly of the volume matrix
    forms of a state makes no call to a matrix. *)
Theorem no_matrix_sink_no_insertion
    (mfvol : list MatrixFormVol) (block_weights : option (nat -> nat -> Scalar))
    (isempty : list bool) (marker : Z) (al : list AsmList) (st : State) :
  mat_log (assemble_volume_matrix_forms HERMES_ANY get_internal_marker eval_form
             new_matrix mfvol false block_weights isempty marker al st)
  = mat_log st.
Proof.
  unfold assemble_volume_matrix_forms.
  apply (fold_left_invariant (fun s => mat_log s = mat_log st)); [|reflexivity].
  intros a mfv Ha. unfold assemble_volume_matrix_form.
  repeat match goal with
         | |- mat_log (if ?c then _ else _) = _ => destruct c; [exact Ha|]
         end.
  apply (fold_left_invariant (fun s => mat_log s = mat_log st)).
  - intros s iem Hs. now rewrite row_step_without_sink.
  - rewrite <- Ha. unfold get_matrix_buffer.
    now destruct (_ <=? _).
Qed.

(** A call whose index arrays and block all lie inside a buffer of dimension
    [dim]. *)
Definition fits (dim : nat) (call : MatAdd (Scalar := Scalar)) : Prop :=
  length (add_rows call) <= dim
  /\ length (add_cols call) <= dim
  /\ length (add_block call) = length (add_rows call)
  /\ Forall (fun r => length r = length (add_cols call)) (add_block call).

Lemma block_of_shape (b : Buffer) (m n : nat) :
  length (block_of b m n) = m
  /\ Forall (fun r : list Scalar => length r = n) (block_of b m n).
Proof.
  unfold block_of. split.
  - now rewrite length_map, length_seq.
  - apply Forall_forall. intros r Hr.
    apply in_map_iff in Hr. destruct Hr as (i & <- & _).
    now rewrite length_map, length_seq.
Qed.

Lemma fits_mat_add (b : Buffer) (dim : nat) (alr alc : AsmList (Scalar := Scalar)) :
  cnt alr <= dim -> cnt alc <= dim ->
  fits dim {| add_rows := map dof alr; add_cols := map dof alc;
              add_block := block_of b (cnt alr) (cnt alc) |}.
Proof.
  intros Hr Hc. unfold fits, cnt in *. simpl. rewrite !length_map.
  destruct (block_of_shape b (length alr) (length alc)) as [H1 H2].
  auto.
Qed.

(** What the assembly keeps true of the buffer and of the calls made since
    the state [st0]. *)
Definition buffer_covers_calls (st0 st : State (Scalar := Scalar)) : Prop :=
  matrix_buffer_dim st0 <= matrix_buffer_dim st
  /\ exists new, mat_log st = mat_log st0 ++ new
                 /\ Forall (fits (matrix_buffer_dim st)) new.

Lemma fits_mono (d d' : nat) (call : MatAdd) : d <= d' -> fits d call -> fits d' call.
Proof. unfold fits. intros Hd (H1 & H2 & H3 & H4). repeat split; auto; lia. Qed.

Lemma row_step_covers (mfv : MatrixFormVol) (bsc : Scalar)
    (mat_present tra sym_block : bool) (alm aln : AsmList) (st0 st : State)
    (iem : nat * AsmEntry) :
  cnt alm <= matrix_buffer_dim st -> cnt aln <= matrix_buffer_dim st ->
  buffer_covers_calls st0 st ->
  let st' := row_step eval_form mfv bsc mat_present tra sym_block alm aln st iem in
  matrix_buffer_dim st' = matrix_buffer_dim st /\ buffer_covers_calls st0 st'.
Proof.
  intros Hm Hn (Hdim & new & Hlog & Hfits). destruct iem as [i em].
  cbv zeta. unfold row_step.
  destruct (negb tra && (dof em <? 0)%Z).
  { split; [reflexivity|]. split; [exact Hdim|]. eauto. }
  destruct mat_present, tra; unfold buffer_covers_calls; simpl;
    (split; [reflexivity|]); (split; [exact Hdim|]); rewrite Hlog.
  - eexists. rewrite <- !app_assoc. split; [reflexivity|].
    apply Forall_app. split; [exact Hfits|].
    constructor; [now apply fits_mat_add|].
    constructor; [now apply fits_mat_add|constructor].
  - eexists. rewrite <- !app_assoc. split; [reflexivity|].
    apply Forall_app. split; [exact Hfits|].
    constructor; [now apply fits_mat_add|constructor].
  - eauto.
  - eauto.
Qed.

Lemma rows_cover (mfv : MatrixFormVol) (bsc : Scalar)
    (mat_present tra sym_block : bool) (alm aln : AsmList) (st0 : State)
    (rows : list (nat * AsmEntry)) : forall st,
  cnt alm <= matrix_buffer_dim st -> cnt aln <= matrix_buffer_dim st ->
  buffer_covers_calls st0 st ->
  buffer_covers_calls st0
    (fold_left (row_step eval_form mfv bsc mat_present tra sym_block alm aln) rows st).
Proof.
  induction rows as [|iem rows IH]; intros st Hm Hn Hcov; simpl; [exact Hcov|].
  destruct (row_step_covers mfv bsc mat_present tra sym_block alm aln st0 st iem Hm Hn Hcov)
    as [Hd Hc].
  apply IH; try rewrite Hd; assumption.
Qed.

Lemma get_matrix_buffer_covers (n : nat) (st0 st : State) :
  buffer_covers_calls st0 st ->
  n <= matrix_buffer_dim (get_matrix_buffer new_matrix n st)
  /\ buffer_covers_calls st0 (get_matrix_buffer new_matrix n st).
Proof.
  intros (Hdim & new & Hlog & Hfits). unfold get_matrix_buffer.
  destruct (n <=? matrix_buffer_dim st) eqn:E.
  - apply Nat.leb_le in E. split; [exact E|]. split; [exact Hdim|]. eauto.
  - apply Nat.leb_gt in E. simpl. split; [lia|]. split; [simpl; lia|].
    exists new. simpl. split; [exact Hlog|].
    eapply Forall_impl; [|exact Hfits]. intros call. apply fits_mono. lia.
Qed.

(** The local buffer never shrinks while the volume matrix forms of a state
    are assembled, and every block handed to the matrix sink lies inside it:
    its index arrays are no longer than the buffer dimension and its shape is
    that of the two index arrays. *)
Theorem inserted_blocks_fit_the_buffer
    (mfvol : list MatrixFormVol) (mat_present : bool)
    (block_weights : option (nat -> nat -> Scalar))
    (isempty : list bool) (marker : Z) (al : list AsmList) (st : State) :
  let st' := assemble_volume_matrix_forms HERMES_ANY get_internal_marker eval_form
               new_matrix mfvol mat_present block_weights isempty marker al st in
  matrix_buffer_dim st <= matrix_buffer_dim st'
  /\ exists new, mat_log st' = mat_log st ++ new
                 /\ Forall (fits (matrix_buffer_dim st')) new.
Proof.
  cbv zeta. unfold assemble_volume_matrix_forms.
  apply (fold_left_invariant (buffer_covers_calls st)).
  - intros a mfv Ha. unfold assemble_volume_matrix_form.
    repeat match goal with
           | |- buffer_covers_calls _ (if ?c then _ else _) => destruct c; [exact Ha|]
           end.
    destruct (get_matrix_buffer_covers
                (Nat.max (cnt (nth (form_i mfv) al [])) (cnt (nth (form_j mfv) al [])))
                st a Ha) as [Hmax Hcov].
    apply rows_cover; [lia|lia|exact Hcov].
  - split; [lia|]. exists []. rewrite app_nil_r. auto.
Qed.

End VolumeMatrixFormsMore.
(** ** Boundary forms *)

Section SurfaceFormsFacts.

Import Assembly SurfaceAssembly.

Context {Scalar : Type} {ops : ScalarOps Scalar}.
Variable HERMES_ANY : String.string.
Variable H2D_DG_INNER_EDGE : String.string.
Variable H2D_DG_BOUNDARY_EDGE : String.string.
Variable get_internal_marker : String.string -> Z.
Variable has_essential_bc : nat -> Z -> bool.
Variable eval_form : MatrixFormSurf (Scalar := Scalar) -> Z -> Z -> Scalar.
Variable eval_vector_form : VectorFormSurf (Scalar := Scalar) -> Z -> Scalar.
Variable new_matrix : nat -> Buffer (Scalar := Scalar).

(** *** Lists with their indices *)

Lemma flat_map_combine_map {A B C D : Type} (g : A -> C) (h : nat -> D)
    (F : C * D -> list B) (l : list A) : forall s,
  flat_map F (combine (map g l) (map h (seq s (length l))))
  = flat_map (fun p : nat * A => F (g (snd p), h (fst p))) (combine (seq s (length l)) l).
Proof.
  induction l as [|x l IH]; intros s; simpl; [reflexivity|].
  now rewrite IH.
Qed.

Lemma flat_map_agree {A B : Type} (f g : A -> list B) (l : list A) :
  (forall a, In a l -> f a = g a) -> flat_map f l = flat_map g l.
Proof.
  induction l as [|x l IH]; intros H; simpl; [reflexivity|].
  rewrite (H x (or_introl eq_refl)), IH; [reflexivity|].
  intros a Ha. apply H. now right.
Qed.

Lemma flat_map_drop_index {A B : Type} (F : A -> list B) (l : list A) : forall s,
  flat_map (fun p : nat * A => F (snd p)) (combine (seq s (length l)) l) = flat_map F l.
Proof.
  induction l as [|x l IH]; intros s; simpl; [reflexivity|].
  now rewrite IH.
Qed.

Lemma flat_map_nil {A B : Type} (l : list A) :
  flat_map (fun _ : A => @nil B) l = [].
Proof. induction l; simpl; auto. Qed.

Lemma indexed_bound {A : Type} (l : list A) : forall s k x,
  In (k, x) (combine (seq s (length l)) l) -> s <= k.
Proof.
  induction l as [|y l IH]; intros s k x H; simpl in H; [destruct H|].
  destruct H as [[= <- <-]|H]; [lia|].
  apply IH in H. lia.
Qed.

(** *** The content of the buffer after the two loops *)

Lemma surface_row_content (mfs : MatrixFormSurf) (bsc : Scalar) (i : nat) (em : AsmEntry)
    (l : AsmList) : forall s b,
  let b' :=
    fold_left
      (fun b0 (jen : nat * AsmEntry) =>
         let '(j, en) := jen in
         if (0 <=? dof en)%Z then
           if true then buffer_set b0 i j (surface_local_value eval_form mfs bsc em en)
           else b0
         else b0)
      (combine (seq s (length l)) l) b in
  (forall i' j', i' <> i \/ j' < s -> b' i' j' = b i' j')
  /\ (forall j en, In (j, en) (combine (seq s (length l)) l) -> (0 <= dof en)%Z ->
        b' i j = surface_local_value eval_form mfs bsc em en).
Proof.
  induction l as [|en0 l IH]; intros s b; cbv zeta; simpl.
  - split; [reflexivity|]. intros j en [].
  - specialize (IH (S s)
                  (if (0 <=? dof en0)%Z
                   then buffer_set b i s (surface_local_value eval_form mfs bsc em en0)
                   else b)).
    cbv zeta in IH. destruct IH as [Hkeep Hset]. split.
    + intros i' j' Hout. rewrite Hkeep by (destruct Hout; [left; assumption|right; lia]).
      destruct (0 <=? dof en0)%Z; [|reflexivity].
      unfold buffer_set.
      destruct (Nat.eqb i' i) eqn:Ei; [|reflexivity].
      destruct (Nat.eqb j' s) eqn:Ej; [|reflexivity].
      apply Nat.eqb_eq in Ei, Ej. destruct Hout; [congruence|lia].
    + intros j en [[= <- <-]|Hin] Hdof.
      * rewrite Hkeep by (right; lia).
        apply Z.leb_le in Hdof. rewrite Hdof.
        unfold buffer_set. now rewrite !Nat.eqb_refl.
      * now apply Hset.
Qed.

Lemma surface_rows_content (mfs : MatrixFormSurf) (bsc : Scalar) (aln : AsmList)
    (l : AsmList) : forall s b,
  let b' :=
    fold_left
      (fun b0 (iem : nat * AsmEntry) =>
         let '(i, em) := iem in
         if (dof em <? 0)%Z then b0
         else surface_row eval_form mfs bsc true aln i em b0)
      (combine (seq s (length l)) l) b in
  (forall i' j', i' < s -> b' i' j' = b i' j')
  /\ (forall i em j en,
        In (i, em) (combine (seq s (length l)) l) -> (0 <= dof em)%Z ->
        In (j, en) (combine (seq 0 (length aln)) aln) -> (0 <= dof en)%Z ->
        b' i j = surface_local_value eval_form mfs bsc em en).
Proof.
  induction l as [|em0 l IH]; intros s b; cbv zeta; simpl.
  - split; [reflexivity|]. intros i em j en [].
  - set (b1 := if (dof em0 <? 0)%Z then b
               else surface_row eval_form mfs bsc true aln s em0 b).
    specialize (IH (S s) b1). cbv zeta in IH. destruct IH as [Hkeep Hset].
    destruct (surface_row_content mfs bsc s em0 aln 0 b) as [Hrow_keep Hrow_set].
    split.
    + intros i' j' Hlt. rewrite Hkeep by lia. unfold b1.
      destruct (dof em0 <? 0)%Z; [reflexivity|].
      unfold surface_row, cnt. apply Hrow_keep. left. lia.
    + intros i em j en [[= <- <-]|Hin] Hdi Hjn Hdj.
      * rewrite Hkeep by lia. unfold b1.
        assert (E : (dof em0 <? 0)%Z = false) by (apply Z.ltb_ge; exact Hdi).
        rewrite E. unfold surface_row, cnt. now apply Hrow_set.
      * now apply Hset.
Qed.

(** *** The scalar additions of one inserted block *)

Lemma contributions_of_block (b : Buffer (Scalar := Scalar))
    (alm aln : AsmList (Scalar := Scalar))
    (f : AsmEntry (Scalar := Scalar) -> AsmEntry (Scalar := Scalar) -> Scalar) :
  (forall i em j en,
      In (i, em) (combine (seq 0 (length alm)) alm) -> (0 <= dof em)%Z ->
      In (j, en) (combine (seq 0 (length aln)) aln) -> (0 <= dof en)%Z ->
      b i j = f em en) ->
  contributions {| add_rows := map dof alm; add_cols := map dof aln;
                   add_block := block_of b (cnt alm) (cnt aln) |}
  = flat_map
      (fun em =>
         if (0 <=? dof em)%Z then
           flat_map (fun en => if (0 <=? dof en)%Z then [(dof em, dof en, f em en)] else [])
                    aln
         else [])
      alm.
Proof.
  intros Hb. unfold contributions, block_of, cnt. simpl.
  rewrite (flat_map_combine_map dof
             (fun i => map (fun j => b i j) (seq 0 (length aln)))).
  rewrite <- (flat_map_drop_index
                (fun em =>
                   if (0 <=? dof em)%Z then
                     flat_map
                       (fun en => if (0 <=? dof en)%Z then [(dof em, dof en, f em en)] else [])
                       aln
                   else [])
                alm 0).
  apply flat_map_agree. intros [i em] Hi. simpl.
  rewrite (flat_map_combine_map dof (fun j => b i j)).
  destruct (0 <=? dof em)%Z eqn:Em.
  - rewrite <- (flat_map_drop_index
                  (fun en => if (0 <=? dof en)%Z then [(dof em, dof en, f em en)] else [])
                  aln 0).
    apply flat_map_agree. intros [j en] Hj. simpl.
    destruct (0 <=? dof en)%Z eqn:En; [|reflexivity].
    apply Z.leb_le in Em, En. now rewrite (Hb i em j en Hi Em Hj En).
  - simpl. apply flat_map_nil.
Qed.

(** A boundary matrix form reaches the matrix sink at most once, after its
    local block is complete: when [assemble_surface_matrix_forms] assembles a
    form with a matrix sink, it either leaves the state as it is or makes one
    call whose scalar additions are, for every pair of nonnegative DOFs of
    [al[m]] and [al[n]] in order, the value computed for that pair, whatever
    the local buffer held before. *)
Theorem boundary_block_inserted_once_and_complete
    (block_weights : option (nat -> nat -> Scalar))
    (isempty nat_flags : list bool) (marker : Z) (al : list AsmList)
    (st st' : State) (mfs : MatrixFormSurf)
    (H : assemble_surface_matrix_form HERMES_ANY H2D_DG_INNER_EDGE H2D_DG_BOUNDARY_EDGE
           get_internal_marker eval_form new_matrix
           true block_weights isempty nat_flags marker al st mfs = Done st') :
  st' = st
  \/ exists call,
       mat_log st' = mat_log st ++ [call]
       /\ add_rows call = map dof (nth (surf_i mfs) al [])
       /\ add_cols call = map dof (nth (surf_j mfs) al [])
       /\ contributions call
          = expected_contributions eval_form mfs
              (match block_weights with
               | Some A => A (surf_i mfs) (surf_j mfs)
               | None => s_one
               end)
              (nth (surf_i mfs) al []) (nth (surf_j mfs) al []).
Proof.
  unfold assemble_surface_matrix_form in H.
  repeat match type of H with
         | (if ?c then Done st else _) = _ =>
             destruct c; [left; now inversion H|]
         end.
  destruct (surf_areas mfs) as [|a0 rest]; [discriminate|].
  repeat match type of H with
         | (if ?c then Done st else _) = _ =>
             destruct c; [left; now inversion H|]
         end.
  right. inversion H; subst st'; clear H.
  set (bsc := match block_weights with
              | Some A => A (surf_i mfs) (surf_j mfs)
              | None => s_one
              end).
  set (alm := nth (surf_i mfs) al []).
  set (aln := nth (surf_j mfs) al []).
  set (st0 := get_matrix_buffer new_matrix (Nat.max (cnt alm) (cnt aln)) st).
  assert (Hlog : mat_log st0 = mat_log st).
  { unfold st0, get_matrix_buffer. now destruct (_ <=? _). }
  eexists. split; [simpl; rewrite Hlog; reflexivity|].
  split; [reflexivity|]. split; [reflexivity|].
  simpl. unfold expected_contributions.
  apply contributions_of_block.
  intros i em j en Hi Hdi Hj Hdj.
  destruct (surface_rows_content mfs bsc aln alm 0 (matrix_buffer st0)) as [_ Hset].
  unfold surface_rows, cnt. now apply Hset.
Qed.

(** *** Edges with an essential boundary condition *)

Lemma set_flag_same (flags : list bool) : forall j v,
  j < length flags -> nth j (set_flag flags j v) false = v.
Proof.
  induction flags as [|x flags IH]; intros j v Hj; simpl in Hj; [lia|].
  destruct j as [|j]; simpl; [reflexivity|]. apply IH. lia.
Qed.

Lemma set_flag_other (flags : list bool) : forall j k v,
  j <> k -> nth k (set_flag flags j v) false = nth k flags false.
Proof.
  induction flags as [|x flags IH]; intros j k v Hne; simpl; [reflexivity|].
  destruct j as [|j]; destruct k as [|k]; simpl; try reflexivity; try lia.
  apply IH. lia.
Qed.

Lemma set_flag_length (flags : list bool) : forall j v,
  length (set_flag flags j v) = length flags.
Proof.
  induction flags as [|x flags IH]; intros j v; simpl; [reflexivity|].
  destruct j; simpl; auto.
Qed.

Lemma update_nat_flags_essential (isempty : list bool) (marker : Z) (m : nat)
    (stage_idx : list nat) :
  (0 < marker)%Z ->
  nth m isempty false = false ->
  has_essential_bc m marker = true ->
  forall nat_flags,
    m < length nat_flags ->
    (In m stage_idx \/ nth m nat_flags false = false) ->
    nth m (update_nat_flags has_essential_bc stage_idx isempty marker nat_flags) false
    = false.
Proof.
  intros Hmk He Hbc. unfold update_nat_flags.
  assert (Hpos : (0 <? marker)%Z = true) by now apply Z.ltb_lt.
  rewrite Hpos.
  induction stage_idx as [|j stage IH]; intros flags Hlen Hin; simpl.
  - destruct Hin as [[]|Hf]. exact Hf.
  - destruct (Nat.eq_dec j m) as [->|Hne].
    + rewrite He. apply IH.
      * now rewrite set_flag_length.
      * right. rewrite set_flag_same by exact Hlen. now rewrite Hbc.
    + destruct Hin as [[Hjm|Hin]|Hf]; [congruence| |].
      * destruct (nth j isempty false); apply IH; auto.
        now rewrite set_flag_length.
      * destruct (nth j isempty false); apply IH; auto.
        -- now rewrite set_flag_length.
        -- right. now rewrite set_flag_other.
Qed.

Lemma fold_outcome_fixed {A B : Type} (f : A -> B -> outcome A) (a : A) (l : list B) :
  (forall b, In b l -> f a b = Done a) -> fold_outcome f l a = Done a.
Proof.
  induction l as [|b l IH]; intros H; simpl; [reflexivity|].
  rewrite (H b (or_introl eq_refl)). simpl. apply IH.
  intros b' Hb'. apply H. now right.
Qed.

(** On an edge with a positive marker on which a space of the stage has an
    essential boundary condition, the boundary matrix forms that take their
    test or their basis functions from that space leave the matrix and the
    buffer untouched, and so do, for the right-hand side, the boundary vector
    forms of that space whose first area is [HERMES_ANY]. *)
Theorem essential_edge_receives_no_boundary_terms
    (stage_idx : list nat) (isempty nat_flags : list bool) (marker : Z) (m : nat)
    (mfsurf : list MatrixFormSurf) (vfsurf : list VectorFormSurf)
    (mat_present : bool) (block_weights : option (nat -> nat -> Scalar))
    (al : list AsmList) (st : State) (rhs : RhsLog)
    (Hmarker : (0 < marker)%Z)
    (Hstage : In m stage_idx)
    (Helement : nth m isempty false = false)
    (Hspace : m < length nat_flags)
    (Hbc : has_essential_bc m marker = true)
    (Hmatrix : forall mfs, In mfs mfsurf -> surf_i mfs = m \/ surf_j mfs = m)
    (Hvector : forall vfs, In vfs vfsurf ->
                 vsurf_i vfs = m /\ exists rest, vsurf_areas vfs = HERMES_ANY :: rest) :
  let nat_flags' := update_nat_flags has_essential_bc stage_idx isempty marker nat_flags in
  assemble_surface_matrix_forms HERMES_ANY H2D_DG_INNER_EDGE H2D_DG_BOUNDARY_EDGE
    get_internal_marker eval_form new_matrix
    mfsurf mat_present block_weights isempty nat_flags' marker al st = Done st
  /\ assemble_surface_vector_forms HERMES_ANY H2D_DG_INNER_EDGE H2D_DG_BOUNDARY_EDGE
       get_internal_marker eval_vector_form
       vfsurf isempty nat_flags' marker al (Some rhs) = Done (Some rhs).
Proof.
  cbv zeta.
  pose proof (update_nat_flags_essential isempty marker m stage_idx
                Hmarker Helement Hbc nat_flags Hspace (or_introl Hstage)) as Hflag.
  split.
  - unfold assemble_surface_matrix_forms. apply fold_outcome_fixed.
    intros mfs Hin. unfold assemble_surface_matrix_form.
    destruct (nth (surf_i mfs) isempty false || nth (surf_j mfs) isempty false);
      [reflexivity|].
    destruct (Hmatrix mfs Hin) as [E|E]; rewrite E, Hflag; simpl;
      [reflexivity|now rewrite orb_true_r].
  - unfold assemble_surface_vector_forms.
    rewrite fold_outcome_fixed; [reflexivity|].
    intros vfs Hin. unfold assemble_surface_vector_form.
    destruct (Hvector vfs Hin) as (E & rest & Ea). rewrite E, Helement, Ea.
    destruct (abs_lt_1e12 (vsurf_scaling_factor vfs)); [reflexivity|].
    destruct (String.eqb HERMES_ANY H2D_DG_INNER_EDGE); [reflexivity|].
    destruct (negb _); [reflexivity|].
    rewrite String.eqb_refl, Hflag. reflexivity.
Qed.

End SurfaceFormsFacts.

Section SurfaceFormsRuns.

Import Assembly AssemblyExample SurfaceAssembly SurfaceExample.

Lemma boundary_block_inserted_once_and_complete_witness :
  after_boundary_form = example_start
  \/ exists call,
       mat_log after_boundary_form = mat_log example_start ++ [call]
       /\ add_rows call = map dof (nth 0 [edge_asmlist] [])
       /\ add_cols call = map dof (nth 0 [edge_asmlist] [])
       /\ contributions call
          = expected_contributions example_eval_surface_form boundary_form 1%Q
              (nth 0 [edge_asmlist] []) (nth 0 [edge_asmlist] []).
Proof.
  exact (boundary_block_inserted_once_and_complete
           example_any example_inner_edge example_boundary_edge
           example_marker_table example_eval_surface_form example_new_matrix
           None [false] [true] 1%Z [edge_asmlist] example_start after_boundary_form
           boundary_form eq_refl).
Defined.

(** The run above does insert: four additions, none of them a stale cell of
    the buffer. *)
Example boundary_form_run :
  flat_map contributions (mat_log after_boundary_form)
  = [(0%Z, 0%Z, 1%Q); (0%Z, 5%Z, 3%Q); (5%Z, 0%Z, 21%Q); (5%Z, 5%Z, 23%Q)].
Proof. vm_compute. reflexivity. Qed.

Lemma essential_edge_receives_no_boundary_terms_witness :
  assemble_surface_matrix_forms example_any example_inner_edge example_boundary_edge
    example_marker_table example_eval_surface_form example_new_matrix
    [boundary_form] true None [false]
    (update_nat_flags example_essential_bc [0] [false] 1%Z [false]) 1%Z
    [edge_asmlist] example_start = Done example_start
  /\ assemble_surface_vector_forms example_any example_inner_edge example_boundary_edge
       example_marker_table example_eval_surface_vector_form
       [boundary_vector_form] [false]
       (update_nat_flags example_essential_bc [0] [false] 1%Z [false]) 1%Z
       [edge_asmlist] (Some []) = Done (Some []).
Proof.
  apply (essential_edge_receives_no_boundary_terms
           example_any example_inner_edge example_boundary_edge
           example_marker_table example_essential_bc
           example_eval_surface_form example_eval_surface_vector_form example_new_matrix
           [0] [false] [false] 1%Z 0 [boundary_form] [boundary_vector_form]
           true None [edge_asmlist] example_start []).
  - reflexivity.
  - simpl. auto.
  - reflexivity.
  - simpl. lia.
  - reflexivity.
  - intros mfs [<-|[]]. left. reflexivity.
  - intros vfs [<-|[]]. split; [reflexivity|]. exists []. reflexivity.
Defined.

End SurfaceFormsRuns.
(** ** Multi-component volume matrix forms *)

Section MulticomponentFacts.

Import Assembly MulticomponentAssembly.

Context {Scalar : Type} {ops : ScalarOps Scalar}.
Variable HERMES_ANY : String.string.
Variable get_internal_marker : String.string -> Z.
Variable eval_form : MultiComponentMatrixFormVol (Scalar := Scalar) -> Z -> Z -> list Scalar.

(** A sequence of additions that gives every matrix position the values it
    gives the transposed position, in the same order. *)
Definition mirrored (new : EntryLog (Scalar := Scalar)) : Prop :=
  forall r c, values_at new r c = values_at new c r.

Lemma values_at_app (a b : EntryLog (Scalar := Scalar)) (r c : Z) :
  values_at (a ++ b) r c = values_at a r c ++ values_at b r c.
Proof. unfold values_at. apply flat_map_app. Qed.

Lemma mirrored_nil : mirrored [].
Proof. intros r c. reflexivity. Qed.

Lemma mirrored_app (a b : EntryLog) : mirrored a -> mirrored b -> mirrored (a ++ b).
Proof. intros Ha Hb r c. now rewrite !values_at_app, Ha, Hb. Qed.

Lemma mirrored_diagonal (a : Z) (v : Scalar) : mirrored [(a, a, v)].
Proof.
  intros r c. unfold values_at. simpl.
  destruct (a =? r)%Z, (a =? c)%Z; reflexivity.
Qed.

Lemma mirrored_pair (a b : Z) (v : Scalar) : mirrored [(a, b, v); (b, a, v)].
Proof.
  intros r c. unfold values_at. simpl.
  destruct (a =? r)%Z eqn:Ear, (b =? c)%Z eqn:Ebc,
           (b =? r)%Z eqn:Ebr, (a =? c)%Z eqn:Eac; simpl; try reflexivity;
    repeat match goal with
           | H : (_ =? _)%Z = true |- _ => apply Z.eqb_eq in H
           | H : (_ =? _)%Z = false |- _ => apply Z.eqb_neq in H
           end; subst; congruence.
Qed.

(** The additions made since [log0] are mirrored. *)
Definition mirrored_since (log0 log : EntryLog (Scalar := Scalar)) : Prop :=
  exists new, log = log0 ++ new /\ mirrored new.

Lemma mirrored_since_refl (log0 : EntryLog) : mirrored_since log0 log0.
Proof. exists []. rewrite app_nil_r. split; [reflexivity|apply mirrored_nil]. Qed.

Lemma mirrored_since_more (log0 log chunk : EntryLog) :
  mirrored_since log0 log -> mirrored chunk -> mirrored_since log0 (log ++ chunk).
Proof.
  intros (new & -> & Hnew) Hchunk. exists (new ++ chunk).
  rewrite app_assoc. split; [reflexivity|now apply mirrored_app].
Qed.

Lemma fold_checked_invariant {A B : Type} (P : A -> Prop) (f : A -> B -> checked A)
    (l : list B) :
  (forall a b a', In b l -> P a -> f a b = inr a' -> P a') ->
  forall a a', P a -> fold_checked f l a = inr a' -> P a'.
Proof.
  induction l as [|b l IH]; intros Hstep a a' Ha H; simpl in H.
  - now inversion H; subst.
  - destruct (f a b) as [e|a1] eqn:E; simpl in H; [discriminate|].
    apply (IH (fun a0 b0 a0' Hin => Hstep a0 b0 a0' (or_intror Hin)) a1 a'); [|exact H].
    apply (Hstep a b a1); auto. now left.
Qed.

Lemma add_components_mirrored (al : list AsmList) (coords : list (nat * nat))
    (result bscs : list Scalar) (i j : nat) (em en : AsmEntry)
    (log0 log log' : EntryLog) :
  (forall c, In c coords -> fst c = snd c) ->
  mirrored_since log0 log ->
  add_components true al coords result bscs i j em en log = inr log' ->
  mirrored_since log0 log'.
Proof.
  intros Hdiag Hlog H. unfold add_components in H.
  refine (fold_checked_invariant (mirrored_since log0) _ _ _ log log' Hlog H).
  intros a [k [first second]] a' Hin Ha Hstep.
  assert (Hc : first = second).
  { apply in_combine_r in Hin. exact (Hdiag _ Hin). }
  subst second.
  destruct (read (nth first al []) i) as [e|row_entry] eqn:Ei; [discriminate|].
  destruct (read (nth first al []) j) as [e|col_entry] eqn:Ej; [discriminate|].
  cbn [and_then] in Hstep.
  destruct (read result k) as [e|result_k]; [discriminate|].
  destruct (read bscs k) as [e|coeff_k]; [discriminate|].
  cbn [and_then] in Hstep.
  destruct (Nat.eqb i j) eqn:Eij; cbn [andb negb] in Hstep.
  - apply Nat.eqb_eq in Eij. subst j.
    inversion Hstep; subst a'.
    assert (col_entry = row_entry) by congruence. subst col_entry.
    apply mirrored_since_more; [exact Ha|apply mirrored_diagonal].
  - cbn [and_then] in Hstep.
    inversion Hstep; subst a'.
    rewrite <- app_assoc.
    apply mirrored_since_more; [exact Ha|apply mirrored_pair].
Qed.

Lemma sym_entry_mirrored (mfv : MultiComponentMatrixFormVol) (mat_present : bool)
    (al : list AsmList) (bscs : list Scalar) (i : nat) (em : AsmEntry)
    (log0 log log' : EntryLog) (jen : nat * AsmEntry) :
  (forall c, In c (coordinates mfv) -> fst c = snd c) ->
  mirrored_since log0 log ->
  sym_entry eval_form mfv mat_present al bscs i em log jen = inr log' ->
  mirrored_since log0 log'.
Proof.
  intros Hdiag Hlog H. destruct jen as [j en]. unfold sym_entry in H.
  repeat match type of H with
         | (if ?c then _ else _) = _ => destruct c
         end;
    try (inversion H; subst; exact Hlog).
  eapply add_components_mirrored; eauto.
Qed.

(** Every multi-component volume matrix form that is not [HERMES_NONSYM]
    adds each of its values at a matrix position and at the transposed
    position alike: if the assembly of such forms returns, the values added
    at [(r, c)] are, in the same order, the values added at [(c, r)]. *)
Theorem multicomponent_symmetric_forms_add_mirrored_values
    (mfvol_mc : list MultiComponentMatrixFormVol)
    (mat_present : bool) (block_weights : option (nat -> nat -> Scalar))
    (marker : Z) (al : list AsmList) (log log' : EntryLog)
    (Hsym : forall mfv, In mfv mfvol_mc -> mcf_sym mfv <> 0%Z)
    (H : assemble_multicomponent_volume_matrix_forms HERMES_ANY get_internal_marker
           eval_form mfvol_mc mat_present block_weights marker al log = inr log') :
  exists new,
    log' = log ++ new
    /\ forall r c, values_at new r c = values_at new c r.
Proof.
  unfold assemble_multicomponent_volume_matrix_forms in H.
  refine (fold_checked_invariant (mirrored_since log) _ _ _ log log'
            (mirrored_since_refl log) H).
  intros a mfv a' Hin Ha Hform.
  specialize (Hsym mfv Hin). apply Z.eqb_neq in Hsym.
  unfold assemble_multicomponent_volume_matrix_form in Hform.
  destruct (abs_lt_1e12 (mcf_scaling_factor mfv)); [inversion Hform; subst; exact Ha|].
  destruct (negb (mc_assemble_this_form HERMES_ANY get_internal_marker mfv marker));
    [inversion Hform; subst; exact Ha|].
  destruct (coordinates mfv) as [|[m n] rest] eqn:Ec; [discriminate|].
  rewrite Hsym in Hform. cbn [negb andb] in Hform.
  destruct (existsb _ _) eqn:Ediag in Hform; [discriminate|].
  assert (Hdiag : forall c, In c (coordinates mfv) -> fst c = snd c).
  { intros c Hc. rewrite Ec in Hc.
    destruct (Nat.eqb (fst c) (snd c)) eqn:E; [now apply Nat.eqb_eq|].
    assert (Hex : existsb (fun c0 : nat * nat => negb (Nat.eqb (fst c0) (snd c0)))
                    ((m, n) :: rest) = true).
    { apply existsb_exists. exists c. split; [exact Hc|]. now rewrite E. }
    rewrite Hex in Ediag. discriminate. }
  refine (fold_checked_invariant (mirrored_since log) _ _ _ a a' Ha Hform).
  intros b [i em] b' _ Hb Hrow. unfold mc_row in Hrow.
  rewrite Hsym, andb_false_r in Hrow.
  refine (fold_checked_invariant (mirrored_since log) _ _ _ b b' Hb Hrow).
  intros x jen x' _ Hx Hentry.
  eapply sym_entry_mirrored; eauto.
Qed.

(** *** When the assembly returns *)

Lemma read_in_range {A : Type} (v : list A) (i : nat) :
  i < length v -> exists x, read v i = inr x.
Proof.
  intros Hi. unfold read.
  destruct (nth_error v i) as [x|] eqn:E; [eauto|].
  apply nth_error_None in E. lia.
Qed.

Lemma fold_checked_returns {A B : Type} (f : A -> B -> checked A) (l : list B) :
  (forall a b, In b l -> exists a', f a b = inr a') ->
  forall a, exists a', fold_checked f l a = inr a'.
Proof.
  induction l as [|b l IH]; intros Hstep a; simpl; [eauto|].
  destruct (Hstep a b (or_introl eq_refl)) as (a1 & E). rewrite E. simpl.
  apply IH. intros a0 b0 Hb0. apply Hstep. now right.
Qed.

Lemma indexed_in_range {A : Type} (l : list A) (k : nat) (x : A) :
  In (k, x) (combine (seq 0 (length l)) l) -> k < length l.
Proof. intros H. apply in_combine_l in H. apply in_seq in H. lia. Qed.

Lemma add_components_returns (mirror : bool) (al : list AsmList)
    (coords : list (nat * nat)) (result bscs : list Scalar) (size i j : nat)
    (em en : AsmEntry) (log : EntryLog) :
  (forall c, In c coords ->
     length (nth (fst c) al []) = size /\ length (nth (snd c) al []) = size) ->
  length coords <= length result ->
  length coords <= length bscs ->
  i < size -> j < size ->
  exists log', add_components mirror al coords result bscs i j em en log = inr log'.
Proof.
  intros Hsize Hres Hbsc Hi Hj. unfold add_components.
  apply fold_checked_returns. intros a [k [first second]] Hin.
  pose proof (indexed_in_range _ _ _ Hin) as Hk.
  apply in_combine_r in Hin. destruct (Hsize _ Hin) as [Hf Hs]. simpl in Hf, Hs.
  destruct (read_in_range (nth first al []) i) as (x1 & E1); [lia|].
  destruct (read_in_range (nth second al []) j) as (x2 & E2); [lia|].
  destruct (read_in_range (nth first al []) j) as (x3 & E3); [lia|].
  destruct (read_in_range (nth second al []) i) as (x4 & E4); [lia|].
  destruct (read_in_range result k) as (x5 & E5); [lia|].
  destruct (read_in_range bscs k) as (x6 & E6); [lia|].
  rewrite E1, E2, E5, E6. cbn [and_then].
  destruct (mirror && negb (Nat.eqb i j)); [|eauto].
  rewrite E3, E4. cbn [and_then]. eauto.
Qed.

(** The assembly of a multi-component volume matrix form returns, reading no
    array past its end and raising no error, when the form names at least
    one block, is [HERMES_NONSYM] or names diagonal blocks only, when the
    assembly lists of all spaces it names have the same number of entries,
    and when its [value] fills one result per block. *)
Theorem multicomponent_assembly_returns
    (mfv : MultiComponentMatrixFormVol)
    (mat_present : bool) (block_weights : option (nat -> nat -> Scalar))
    (marker : Z) (al : list AsmList) (log : EntryLog) (size : nat)
    (Hblocks : coordinates mfv <> [])
    (Hsym : mcf_sym mfv = 0%Z \/ forall c, In c (coordinates mfv) -> fst c = snd c)
    (Hsize : forall c, In c (coordinates mfv) ->
               length (nth (fst c) al []) = size /\ length (nth (snd c) al []) = size)
    (Hvalue : forall fu fv, length (coordinates mfv) <= length (eval_form mfv fu fv)) :
  exists log',
    assemble_multicomponent_volume_matrix_form HERMES_ANY get_internal_marker eval_form
      mat_present block_weights marker al log mfv = inr log'.
Proof.
  unfold assemble_multicomponent_volume_matrix_form.
  destruct (abs_lt_1e12 (mcf_scaling_factor mfv)); [eauto|].
  destruct (negb (mc_assemble_this_form HERMES_ANY get_internal_marker mfv marker));
    [eauto|].
  destruct (coordinates mfv) as [|[m n] rest] eqn:Ec; [now destruct Hblocks|].
  assert (Hcheck : negb (mcf_sym mfv =? 0)%Z
                   && existsb (fun c : nat * nat => negb (Nat.eqb (fst c) (snd c)))
                              ((m, n) :: rest) = false).
  { destruct Hsym as [E|Hdiag].
    - rewrite E. reflexivity.
    - apply andb_false_iff. right.
      destruct (existsb _ _) eqn:Ex; [|reflexivity].
      apply existsb_exists in Ex. destruct Ex as (c & Hc & Hne).
      rewrite (Hdiag c Hc), Nat.eqb_refl in Hne. discriminate. }
  rewrite Hcheck.
  destruct (Hsize (m, n) (or_introl eq_refl)) as [Hm Hn]. simpl in Hm, Hn.
  set (bscs := map _ ((m, n) :: rest)).
  assert (Hbscs : length ((m, n) :: rest) <= length bscs)
    by (unfold bscs; rewrite length_map; lia).
  apply fold_checked_returns. intros a [i em] Hi.
  apply indexed_in_range in Hi. unfold cnt in *.
  unfold mc_row.
  destruct ((dof em <? 0)%Z && (mcf_sym mfv =? 0)%Z); [eauto|].
  destruct (mcf_sym mfv =? 0)%Z.
  - apply fold_checked_returns. intros b [j en] Hj.
    apply indexed_in_range in Hj. unfold nonsym_entry.
    repeat match goal with
           | |- exists _, (if ?c then _ else _) = _ => destruct c; [|eauto]
           end.
    rewrite Ec. apply (add_components_returns false al _ _ bscs size); auto; lia.
  - apply fold_checked_returns. intros b [j en] Hj.
    apply indexed_in_range in Hj. unfold sym_entry.
    destruct (Nat.ltb j i && (0 <=? dof en)%Z); [eauto|].
    repeat match goal with
           | |- exists _, (if ?c then _ else _) = _ => destruct c; [|eauto]
           end.
    rewrite Ec. apply (add_components_returns true al _ _ bscs size); auto; lia.
Qed.

End MulticomponentFacts.

Section MulticomponentRuns.

Import Assembly AssemblyExample MulticomponentAssembly MulticomponentExample.

Definition two_component_run : checked (EntryLog (Scalar := Q)) :=
  assemble_multicomponent_volume_matrix_forms example_any example_marker_table
    example_eval_components [two_component_form] true None 1%Z two_space_asmlists [].

Definition two_component_log : EntryLog (Scalar := Q) :=
  match two_component_run with
  | inr log => log
  | inl _ => []
  end.

Lemma multicomponent_symmetric_forms_add_mirrored_values_witness :
  exists new,
    two_component_log = [] ++ new
    /\ forall r c, values_at new r c = values_at new c r.
Proof.
  apply (multicomponent_symmetric_forms_add_mirrored_values
           example_any example_marker_table example_eval_components
           [two_component_form] true None 1%Z two_space_asmlists [] two_component_log).
  - intros mfv [<-|[]]. discriminate.
  - reflexivity.
Defined.

Lemma multicomponent_assembly_returns_witness :
  exists log',
    assemble_multicomponent_volume_matrix_form example_any example_marker_table
      example_eval_components true None 1%Z two_space_asmlists [] two_component_form
    = inr log'.
Proof.
  apply (multicomponent_assembly_returns example_any example_marker_table
           example_eval_components two_component_form true None 1%Z
           two_space_asmlists [] 2).
  - discriminate.
  - right. intros c [<-|[<-|[]]]; reflexivity.
  - intros c [<-|[<-|[]]]; split; reflexivity.
  - intros fu fv. simpl. lia.
Defined.

(** The run above: the off-diagonal value of each component goes to both
    triangles, the diagonal values to the diagonal once. *)
Example two_component_entries :
  two_component_log
  = [(0%Z, 0%Z, 1%Q); (10%Z, 10%Z, 100%Q);
     (0%Z, 1%Z, 2%Q); (1%Z, 0%Z, 2%Q); (10%Z, 11%Z, 101%Q); (11%Z, 10%Z, 101%Q);
     (1%Z, 1%Z, 3%Q); (11%Z, 11%Z, 102%Q)].
Proof. vm_compute. reflexivity. Qed.

End MulticomponentRuns.
(** ** The registered pattern covers the volume insertions *)

Section PatternCoversInsertions.

Import Assembly SparseStructure.

Context {Scalar : Type} {ops : ScalarOps Scalar}.
Variable HERMES_ANY : String.string.
Variable get_internal_marker : String.string -> Z.
Variable eval_form : MatrixFormVol (Scalar := Scalar) -> Z -> Z -> Scalar.
Variable new_matrix : nat -> Buffer (Scalar := Scalar).

Lemma contributions_in (call : MatAdd (Scalar := Scalar)) (r c : Z) (v : Scalar) :
  In (r, c, v) (contributions call) ->
  In r (add_rows call) /\ In c (add_cols call) /\ (0 <= r)%Z /\ (0 <= c)%Z.
Proof.
  unfold contributions. intros H.
  apply in_flat_map in H. destruct H as ([r0 vals] & Hrow & H).
  apply in_flat_map in H. destruct H as ([c0 v0] & Hcol & H).
  simpl in H.
  destruct (0 <=? r0)%Z eqn:Er; [|destruct H].
  destruct (0 <=? c0)%Z eqn:Ec; [|destruct H].
  destruct H as [[= <- <- <-]|[]].
  apply in_combine_l in Hrow, Hcol. apply Z.leb_le in Er, Ec. auto.
Qed.

(** Calls that all carry the DOFs of [alm] as rows and of [aln] as columns. *)
Definition direct_calls (alm aln : AsmList (Scalar := Scalar))
    (st0 st : State (Scalar := Scalar)) : Prop :=
  exists new,
    mat_log st = mat_log st0 ++ new
    /\ Forall (fun call => add_rows call = map dof alm /\ add_cols call = map dof aln) new.

Lemma row_step_direct (mfv : MatrixFormVol) (bsc : Scalar) (sym_block : bool)
    (alm aln : AsmList) (st0 st : State) (iem : nat * AsmEntry) :
  direct_calls alm aln st0 st ->
  direct_calls alm aln st0
    (row_step eval_form mfv bsc true false sym_block alm aln st iem).
Proof.
  intros (new & Hlog & Hall). destruct iem as [i em]. unfold row_step.
  destruct (negb false && (dof em <? 0)%Z); [now exists new|].
  unfold direct_calls. simpl. rewrite Hlog.
  eexists. rewrite <- app_assoc. split; [reflexivity|].
  apply Forall_app. split; [exact Hall|]. constructor; [|constructor].
  simpl. auto.
Qed.

Lemma skipn_whole {A : Type} (l : list A) : skipn (length l) l = [].
Proof. induction l; simpl; auto. Qed.

(** Every matrix position to which the assembly of a volume matrix form adds
    a value was registered by the volume pass of the discovery on the same
    state, for a form that needs no transposed block, whose block the weak
    form declares and whose two spaces have an element in the state. *)
Theorem volume_insertions_are_registered
    (c : Collaborators) (f : bool) (block_weights : option (nat -> nat -> Scalar))
    (s : TraverseState) (isempty : list bool) (marker : Z)
    (al : list AsmList) (st : State) (mfv : MatrixFormVol)
    (r cc : Z) (v : Scalar)
    (Hplain : form_i mfv = form_j mfv \/ sym mfv = 0%Z)
    (Hm : form_i mfv < neq c)
    (Hn : form_j mfv < neq c)
    (Hblock : get_blocks c f (form_i mfv) (form_j mfv) = true)
    (Hem : nth (form_i mfv) (e s) None <> None)
    (Hen : nth (form_j mfv) (e s) None <> None)
    (Hin : In (r, cc, v)
              (flat_map contributions
                 (calls_of_form HERMES_ANY get_internal_marker eval_form new_matrix
                    true block_weights isempty marker al st mfv))) :
  In {| row_space := form_i mfv; col_space := form_j mfv; row := r; col := cc |}
     (pre_add_volume c f block_weights s (map (map dof) al)).
Proof.
  unfold calls_of_form, assemble_volume_matrix_form in Hin.
  repeat match type of Hin with
         | context [if ?b then st else _] =>
             destruct b eqn:?; [rewrite skipn_whole in Hin; destruct Hin|]
         end.
  assert (Etra : negb (Nat.eqb (form_i mfv) (form_j mfv)) && negb (sym mfv =? 0)%Z = false).
  { destruct Hplain as [E|E].
    - rewrite E, Nat.eqb_refl. reflexivity.
    - rewrite E. simpl. apply andb_false_r. }
  rewrite Etra in Hin.
  set (alm := nth (form_i mfv) al []) in *.
  set (aln := nth (form_j mfv) al []) in *.
  set (st0 := get_matrix_buffer new_matrix (Nat.max (cnt alm) (cnt aln)) st) in *.
  assert (Hstart : direct_calls alm aln st st0).
  { exists []. rewrite app_nil_r. split; [|constructor].
    unfold st0, get_matrix_buffer. now destruct (_ <=? _). }
  match type of Hin with
  | context [fold_left ?F ?rows st0] =>
      assert (Hcalls : direct_calls alm aln st (fold_left F rows st0))
  end.
  { apply (fold_left_invariant (direct_calls alm aln st)); [|exact Hstart].
    intros a iem Ha. now apply row_step_direct. }
  destruct Hcalls as (new & Hlog & Hall).
  rewrite Hlog, skipn_app_exact in Hin.
  apply in_flat_map in Hin. destruct Hin as (call & Hcall & Hin).
  rewrite Forall_forall in Hall. destruct (Hall call Hcall) as [Hrows Hcols].
  apply contributions_in in Hin. destruct Hin as (Hr & Hc & Hr0 & Hc0).
  rewrite Hrows in Hr. rewrite Hcols in Hc.
  apply pre_add_volume_in. simpl.
  repeat split; try assumption.
  - unfold skip_block.
    destruct (negb (Nat.eqb (form_i mfv) (form_j mfv)) || negb f); [|reflexivity].
    destruct block_weights as [A|]; [assumption|reflexivity].
  - change (@nil Z) with (map (dof (Scalar := Scalar)) []). now rewrite map_nth.
  - change (@nil Z) with (map (dof (Scalar := Scalar)) []). now rewrite map_nth.
Qed.

End PatternCoversInsertions.

Section PatternCoversInsertionsRuns.

Import Assembly AssemblyExample SparseStructure StructureExample.

(** The assembly lists of the two spaces of the example configuration on
    element 1. *)
Definition element_one_asmlists : list (AsmList (Scalar := Q)) :=
  [[shape 0 0]; [shape 0 10]].

Lemma volume_insertions_are_registered_witness :
  In {| row_space := 0; col_space := 1; row := 0%Z; col := 10%Z |}
     (pre_add_volume (Scalar := Q) example_collaborators false None example_state
        (map (map dof) element_one_asmlists)).
Proof.
  apply (volume_insertions_are_registered example_any example_marker_table
           example_eval_form example_new_matrix
           example_collaborators false None example_state [false; false] 1%Z
           element_one_asmlists example_start (form 0 1 0) 0%Z 10%Z 1%Q).
  - right. reflexivity.
  - simpl. lia.
  - simpl. lia.
  - reflexivity.
  - simpl. discriminate.
  - simpl. discriminate.
  - vm_compute. left. reflexivity.
Defined.

End PatternCoversInsertionsRuns.
(** ** The value of the adaptive evaluation *)

Section AdaptiveValue.

Import Quadrature.

Context {Scalar : Type} {ops : ScalarOps Scalar}.

(** [quadtree_sum subelement inc transforms order v]: [v] is obtained by
    cutting the sub-element reached by [transforms] into its four sons, zero
    or more times in each son, and adding up, four by four, the values of
    [subelement] on the sons that are not cut further; every level of the cut
    raises the order by [inc]. *)
Inductive quadtree_sum (subelement : list nat -> Z -> Scalar) (inc : Z)
    : list nat -> Z -> Scalar -> Prop :=
| quadtree_sons (transforms : list nat) (order : Z) :
    quadtree_sum subelement inc transforms order
      (sum_of_sons subelement transforms (order + inc))
| quadtree_cut (transforms : list nat) (order : Z) (r0 r1 r2 r3 : Scalar) :
    quadtree_sum subelement inc (transforms ++ [0]) (order + inc) r0 ->
    quadtree_sum subelement inc (transforms ++ [1]) (order + inc) r1 ->
    quadtree_sum subelement inc (transforms ++ [2]) (order + inc) r2 ->
    quadtree_sum subelement inc (transforms ++ [3]) (order + inc) r3 ->
    quadtree_sum subelement inc transforms order
      (s_add (s_add (s_add (s_add s_zero r0) r1) r2) r3).

(** Whatever the tolerance tests decide, a value returned by
    [eval_form_adaptive] is a sum of sub-element quadratures over a quadtree
    cut of the element: the sons of every cell are visited in the order 0, 1,
    2, 3, a cell at depth [d] is integrated at the starting order raised [d]
    times by [adapt_order_increase], and the coarse estimates only steer the
    cut, they are not part of the value. *)
Theorem adaptive_value_is_a_quadtree_sum
    (subelement : list nat -> Z -> Scalar) (f : Form) :
  forall fuel transforms order_init result_init r,
    eval_form_adaptive subelement f fuel transforms order_init result_init = Done r ->
    quadtree_sum subelement (adapt_order_increase f) transforms order_init r.
Proof.
  induction fuel as [|fuel IH]; intros transforms order_init result_init r H;
    rewrite eval_form_adaptive_unfold in H; cbv zeta in H;
    destruct (abs_lt_1e6 _); try (inversion H; subst; apply quadtree_sons);
    destruct (tol_lt _ _); try (inversion H; subst; apply quadtree_sons);
    try discriminate.
  repeat match type of H with
  | bind (eval_form_adaptive ?s ?g fuel ?t ?o ?x) _ = Done _ =>
      let E := fresh "E" in
      destruct (eval_form_adaptive s g fuel t o x) eqn:E; try discriminate;
      apply IH in E; cbn [bind] in H
  end.
  inversion H; subst.
  now apply quadtree_cut.
Qed.

End AdaptiveValue.

Section AdaptiveValueRuns.

Import Quadrature QuadratureExample.

Lemma adaptive_value_is_a_quadtree_sum_witness :
  quadtree_sum (eval_form_subelement_vol exact_form) 1%Z [] 2%Z 1%Q.
Proof.
  apply (adaptive_value_is_a_quadtree_sum (eval_form_subelement_vol exact_form)
           exact_form 0 [] 2%Z 1%Q 1%Q).
  vm_compute. reflexivity.
Defined.

End AdaptiveValueRuns.
(** ** Neighbors appended by the update, and the pattern across edges *)

Section AppendedNeighbors.

Import Multimesh.

(** The number of sons that share an edge with the neighbor's edge is two;
    they are numbered modulo the number of edges of the element. *)
Definition edges_of (mode : ElementMode) : nat :=
  match mode with
  | HERMES_MODE_TRIANGLE => 3
  | HERMES_MODE_QUAD => 4
  end.

Lemma neighbor_label_along_edge (edge_info : NeighborEdgeInfo) (active_edge : nat)
    (mode : ElementMode) (t : nat) :
  neighbor_label edge_info active_edge mode t = local_num_of_edge edge_info
  \/ neighbor_label edge_info active_edge mode t
     = (local_num_of_edge edge_info + 1) mod edges_of mode.
Proof.
  unfold neighbor_label, edges_of. destruct mode.
  - destruct (_ || _); [destruct (negb (orientation edge_info))|
                        destruct (orientation edge_info)]; auto.
  - destruct (_ || _); [destruct (negb (orientation edge_info))|
                        destruct (orientation edge_info)]; auto.
Qed.

Lemma erase_subset {A : Type} (l : list A) : forall i x, In x (erase l i) -> In x l.
Proof.
  induction l as [|y l IH]; intros i x H; simpl in *; [exact H|].
  destruct i as [|i]; [now right|].
  destruct H as [->|H]; [now left|]. right. eapply IH; eauto.
Qed.

(** When [update_ns_subtree] replaces a neighbor whose central path ends at
    an inner node of the tree, every neighbor of the updated search is either
    one it had before or a copy of the replaced neighbor, with the same
    element and edge, whose central path is extended by the way from the node
    down to one of the leaves below it and whose neighbor path is extended by
    as many transformations, each the number of the neighbor's edge or its
    successor modulo the number of edges; and every leaf below the node is
    reached by such a copy. *)
Theorem appended_neighbors_descend_along_the_edge
    (ns ns' : NeighborSearch) (node : NeighborNode) (i : nat) (nb : Neighbor)
    (added : Z)
    (Hson : get_left_son node <> None)
    (Hnb : nth_error (neighbors ns) i = Some nb)
    (H : update_ns_subtree ns node i = Done (ns', added)) :
  (forall nb', In nb' (neighbors ns') ->
     In nb' (neighbors ns)
     \/ (neighb_el nb' = neighb_el nb
         /\ neighbor_edge nb' = neighbor_edge nb
         /\ exists q q',
              In q (leaf_paths_below node)
              /\ central_transformations nb' = central_transformations nb ++ q
              /\ neighbor_transformations nb' = neighbor_transformations nb ++ q'
              /\ length q' = length q
              /\ Forall (fun x =>
                           x = local_num_of_edge (neighbor_edge nb)
                           \/ x = (local_num_of_edge (neighbor_edge nb) + 1)
                                    mod edges_of (central_el_mode ns))
                        q'))
  /\ (forall q, In q (leaf_paths_below node) ->
        exists nb',
          In nb' (neighbors ns')
          /\ neighb_el nb' = neighb_el nb
          /\ neighbor_edge nb' = neighbor_edge nb
          /\ central_transformations nb' = central_transformations nb ++ q).
Proof.
  destruct (get_left_son node) as [l|] eqn:El; [clear Hson|now destruct Hson].
  rewrite (update_ns_subtree_inner ns node i nb l El Hnb) in H.
  inversion H; subst ns' added; clear H. split.
  - intros nb' Hin. simpl in Hin. apply in_app_or in Hin. destruct Hin as [Hin|Hin].
    + left. eapply erase_subset; eauto.
    + right. unfold expand_neighbor in Hin.
      apply in_map_iff in Hin. destruct Hin as (q & <- & Hq). simpl.
      split; [reflexivity|]. split; [reflexivity|].
      exists q, (neighbor_path (neighbor_edge nb) (active_edge ns) (central_el_mode ns) q).
      split; [exact Hq|]. split; [reflexivity|]. split; [reflexivity|].
      unfold neighbor_path. split; [apply length_map|].
      apply Forall_forall. intros x Hx.
      apply in_map_iff in Hx. destruct Hx as (t & <- & _).
      apply neighbor_label_along_edge.
  - intros q Hq. eexists. split.
    + simpl. apply in_or_app. right. unfold expand_neighbor.
      apply in_map_iff. exists q. split; [reflexivity|exact Hq].
    + simpl. repeat split.
Qed.

End AppendedNeighbors.

Section AppendedNeighborsRuns.

Import Multimesh.

(** A triangle neighbor across its edge 1, reached from the central edge 0,
    whose central path [0] ends at a node with the leaves [0] and [1]. *)
Definition coarse_neighbor : Neighbor :=
  {| neighb_el := 7;
     neighbor_edge := {| local_num_of_edge := 1; orientation := false |};
     central_transformations := [0];
     neighbor_transformations := [] |}.

Definition one_neighbor_search : NeighborSearch :=
  {| neighbors := [coarse_neighbor]; active_edge := 0;
     central_el_mode := HERMES_MODE_TRIANGLE |}.

Definition split_node : NeighborNode :=
  Node 0 (Some (Node 0 None None)) (Some (Node 1 None None)).

Definition after_split : NeighborSearch :=
  match update_ns_subtree one_neighbor_search split_node 0 with
  | Done (ns', _) => ns'
  | _ => one_neighbor_search
  end.

(** The second neighbor of the updated search. *)
Definition fine_neighbor : Neighbor :=
  {| neighb_el := 7;
     neighbor_edge := {| local_num_of_edge := 1; orientation := false |};
     central_transformations := [0; 1];
     neighbor_transformations := [2] |}.

Lemma appended_neighbors_descend_along_the_edge_witness :
  (In fine_neighbor (neighbors one_neighbor_search)
   \/ (neighb_el fine_neighbor = 7
       /\ neighbor_edge fine_neighbor = {| local_num_of_edge := 1; orientation := false |}
       /\ exists q q',
            In q (leaf_paths_below split_node)
            /\ central_transformations fine_neighbor = [0] ++ q
            /\ neighbor_transformations fine_neighbor = [] ++ q'
            /\ length q' = length q
            /\ Forall (fun x => x = 1 \/ x = (1 + 1) mod 3) q'))
  /\ (exists nb',
        In nb' (neighbors after_split)
        /\ neighb_el nb' = 7
        /\ neighbor_edge nb' = {| local_num_of_edge := 1; orientation := false |}
        /\ central_transformations nb' = [0] ++ [0]).
Proof.
  pose proof (appended_neighbors_descend_along_the_edge
                one_neighbor_search after_split split_node 0 coarse_neighbor
                (wrap32 (-1)) ltac:(discriminate) eq_refl eq_refl) as [Hold Hall].
  split.
  - apply Hold. vm_compute. right. left. reflexivity.
  - apply (Hall [0]). vm_compute. left. reflexivity.
Defined.

Example after_split_neighbors :
  map (fun nb => (central_transformations nb, neighbor_transformations nb))
      (neighbors after_split)
  = [([0; 0], [1]); ([0; 1], [2])].
Proof. vm_compute. reflexivity. Qed.

End AppendedNeighborsRuns.
(** ** The leaves of the built tree *)

Section BuiltTreeLeaves.

Import Multimesh.

Lemma occurs_new (t0 : nat) (q : list nat) : occurs (new_NeighborNode t0) q -> q = [].
Proof.
  destruct q as [|x q]; [reflexivity|]. simpl.
  intros [(l & [=] & _)|(r & [=] & _)].
Qed.

Lemma prefix_of_cons (x : nat) (q p : list nat) :
  prefix_of q p -> prefix_of (x :: q) (x :: p).
Proof. intros (s & ->). now exists s. Qed.

Lemma prefix_of_nil (p : list nat) : prefix_of [] p.
Proof. now exists p. Qed.

(** A way down the tree after an insertion was there before, or it is the
    beginning of the inserted path. *)
Lemma insert_occurs_inv (p : list nat) : forall t t' q,
  insert_into_multimesh_tree t p = Done t' ->
  occurs t' q -> occurs t q \/ prefix_of q p.
Proof.
  induction p as [|t0 rest IH]; intros t t' q H Ho; simpl in H.
  - inversion H; subst. now left.
  - destruct q as [|x q]; [left; exact I|].
    assert (Hfresh : forall n', insert_into_multimesh_tree (new_NeighborNode t0) rest = Done n' ->
               get_transformation n' = x -> occurs n' q ->
               prefix_of (x :: q) (t0 :: rest)).
    { intros n' E Lx Hq.
      rewrite (insert_keeps_label _ _ _ E) in Lx. simpl in Lx. subst x.
      apply prefix_of_cons.
      destruct (IH _ _ q E Hq) as [Hn|Hp]; [|exact Hp].
      apply occurs_new in Hn. subst q. apply prefix_of_nil. }
    assert (Hold : forall n n', insert_into_multimesh_tree n rest = Done n' ->
               Nat.eqb (get_transformation n) t0 = true ->
               get_transformation n' = x -> occurs n' q ->
               (get_transformation n = x /\ occurs n q) \/ prefix_of (x :: q) (t0 :: rest)).
    { intros n n' E Et Lx Hq.
      rewrite (insert_keeps_label _ _ _ E) in Lx.
      destruct (IH _ _ q E Hq) as [Hn|Hp]; [left; auto|].
      right. apply Nat.eqb_eq in Et. rewrite <- Lx, Et. now apply prefix_of_cons. }
    destruct t as [lbl [l|] [r|]]; simpl in H.
    + destruct (Nat.eqb (get_transformation l) t0) eqn:El.
      * destruct (insert_into_multimesh_tree l rest) as [l'| |] eqn:E;
          inversion H; subst; clear H.
        simpl in Ho. destruct Ho as [(l0 & [= <-] & Lx & Hq)|(r0 & [= <-] & Rx & Hq)].
        -- destruct (Hold l l' E El Lx Hq) as [[Hl Hq']|Hp]; [|now right].
           left. simpl. left. eauto.
        -- left. simpl. right. eauto.
      * destruct (Nat.eqb (get_transformation r) t0) eqn:Er; [|discriminate].
        destruct (insert_into_multimesh_tree r rest) as [r'| |] eqn:E;
          inversion H; subst; clear H.
        simpl in Ho. destruct Ho as [(l0 & [= <-] & Lx & Hq)|(r0 & [= <-] & Rx & Hq)].
        -- left. simpl. left. eauto.
        -- destruct (Hold r r' E Er Rx Hq) as [[Hr Hq']|Hp]; [|now right].
           left. simpl. right. eauto.
    + destruct (Nat.eqb (get_transformation l) t0) eqn:El.
      * destruct (insert_into_multimesh_tree l rest) as [l'| |] eqn:E;
          inversion H; subst; clear H.
        simpl in Ho. destruct Ho as [(l0 & [= <-] & Lx & Hq)|(r0 & [=] & _)].
        destruct (Hold l l' E El Lx Hq) as [[Hl Hq']|Hp]; [|now right].
        left. simpl. left. eauto.
      * destruct (insert_into_multimesh_tree (new_NeighborNode t0) rest) as [r'| |] eqn:E;
          inversion H; subst; clear H.
        simpl in Ho. destruct Ho as [(l0 & [= <-] & Lx & Hq)|(r0 & [= <-] & Rx & Hq)].
        -- left. simpl. left. eauto.
        -- right. eapply Hfresh; eauto.
    + discriminate.
    + destruct (insert_into_multimesh_tree (new_NeighborNode t0) rest) as [l'| |] eqn:E;
        inversion H; subst; clear H.
      simpl in Ho. destruct Ho as [(l0 & [= <-] & Lx & Hq)|(r0 & [=] & _)].
      right. eapply Hfresh; eauto.
Qed.

Lemma prefix_of_trans (a b c : list nat) : prefix_of a b -> prefix_of b c -> prefix_of a c.
Proof. intros (s & ->) (s' & ->). exists (s ++ s'). now rewrite app_assoc. Qed.

Lemma insert_covered (P : list (list nat)) (p : list nat) (t t' : NeighborNode) :
  insert_into_multimesh_tree t p = Done t' ->
  In p P -> covered P [] t -> covered P [] t'.
Proof.
  intros H Hin C x q Ho.
  destruct (insert_occurs_inv p t t' (x :: q) H Ho) as [Hold|Hp].
  - exact (C x q Hold).
  - exists p. split; [exact Hin|exact Hp].
Qed.

Lemma insert_all_covered (P : list (list nat)) (ps : list (list nat)) : forall t t',
  insert_all t ps = Done t' ->
  incl ps P -> covered P [] t -> covered P [] t'.
Proof.
  induction ps as [|p ps IH]; intros t t' H Hincl C; simpl in H.
  - now inversion H; subst.
  - destruct (insert_into_multimesh_tree t p) as [t1| |] eqn:E; try discriminate.
    simpl in H. apply (IH t1 t' H).
    + intros y Hy. apply Hincl. now right.
    + eapply insert_covered; eauto. apply Hincl. now left.
Qed.

Lemma build_multimesh_tree_covered (P : list (list nat))
    (nss : list (option NeighborSearch)) : forall t root,
  build_multimesh_tree t nss = Done root ->
  incl (all_central_paths nss) P -> covered P [] t -> covered P [] root.
Proof.
  induction nss as [|[ns|] nss IH]; intros t root H Hincl C; simpl in H.
  - now inversion H; subst.
  - assert (Hrest : incl (all_central_paths nss) P).
    { intros y Hy. apply Hincl. simpl. apply in_or_app. now right. }
    destruct (single_untransformed ns); [now apply (IH t root)|].
    destruct (insert_all t (map central_transformations (neighbors ns)))
      as [t1| |] eqn:E; try discriminate.
    simpl in H. apply (IH t1 root H Hrest).
    eapply insert_all_covered; eauto.
    intros y Hy. apply Hincl. simpl. apply in_or_app. now left.
  - now apply (IH t root).
Qed.

Lemma find_leaf_in_leaf_paths (p : list nat) : forall t leaf,
  find_node p t = Done leaf -> is_leaf leaf = true ->
  In (get_transformation t :: p) (leaf_paths t).
Proof.
  induction p as [|x p IH]; intros t leaf H Hleaf; simpl in H.
  - inversion H; subst leaf. destruct t as [lbl [l|] [r|]]; try discriminate.
    simpl. now left.
  - destruct t as [lbl l r]. simpl in H.
    assert (Hgo : forall son, find_node p son = Done leaf -> get_transformation son = x ->
               In (x :: p) (leaf_paths son)).
    { intros son Hf <-. eapply IH; eauto. }
    destruct l as [l|].
    + destruct (Nat.eqb (get_transformation l) x) eqn:El.
      * apply Nat.eqb_eq in El. simpl.
        destruct r; apply in_map, in_or_app; left; now apply Hgo.
      * destruct r as [r|]; [|discriminate].
        destruct (Nat.eqb (get_transformation r) x) eqn:Er; [|discriminate].
        apply Nat.eqb_eq in Er. simpl.
        apply in_map, in_or_app. right. now apply Hgo.
    + destruct r as [r|]; [|discriminate].
      destruct (Nat.eqb (get_transformation r) x) eqn:Er; [|discriminate].
      apply Nat.eqb_eq in Er. simpl.
      apply in_map. now apply Hgo.
Qed.

Lemma find_leaf_in_leaf_paths_below (x : nat) (p : list nat) (t leaf : NeighborNode) :
  find_node (x :: p) t = Done leaf -> is_leaf leaf = true ->
  In (x :: p) (leaf_paths_below t).
Proof.
  intros H Hleaf. unfold leaf_paths_below. simpl in H.
  destruct (get_left_son t) as [l|].
  - destruct (Nat.eqb (get_transformation l) x) eqn:El.
    + apply Nat.eqb_eq in El. apply in_or_app. left. rewrite <- El.
      eapply find_leaf_in_leaf_paths; eauto.
    + destruct (get_right_son t) as [r|]; [|discriminate].
      destruct (Nat.eqb (get_transformation r) x) eqn:Er; [|discriminate].
      apply Nat.eqb_eq in Er. apply in_or_app. right. rewrite <- Er.
      eapply find_leaf_in_leaf_paths; eauto.
  - destruct (get_right_son t) as [r|]; [|discriminate].
    destruct (Nat.eqb (get_transformation r) x) eqn:Er; [|discriminate].
    apply Nat.eqb_eq in Er. simpl. rewrite <- Er.
    eapply find_leaf_in_leaf_paths; eauto.
Qed.

Lemma nothing_below_a_leaf (leaf : NeighborNode) (s : list nat) (n : NeighborNode) :
  is_leaf leaf = true -> find_node s leaf = Done n -> s = [].
Proof.
  destruct leaf as [lbl [l|] [r|]]; try discriminate. intros _.
  destruct s as [|x s]; [reflexivity|]. simpl. discriminate.
Qed.

Lemma leaf_paths_start (n : NeighborNode) (q : list nat) :
  In q (leaf_paths n) -> q <> [].
Proof.
  destruct n as [lbl [l|] [r|]]; simpl; intros H;
    try (apply in_map_iff in H; destruct H as (q0 & <- & _); discriminate).
  destruct H as [<-|[]]. discriminate.
Qed.

(** The leaves of the tree that [build_multimesh_tree] builds from the empty
    root are the central transformation paths of the searches that no other
    central path continues: a path leads from the root to a leaf exactly when
    it is a nonempty central path of some search and every central path that
    begins with it is the path itself. *)
Theorem leaves_are_the_maximal_central_paths
    (neighbor_searches : list (option NeighborSearch)) (root : NeighborNode)
    (H : build_multimesh_tree (new_NeighborNode 0) neighbor_searches = Done root)
    (q : list nat) :
  In q (leaf_paths_below root) <->
  (q <> []
   /\ In q (all_central_paths neighbor_searches)
   /\ forall p, In p (all_central_paths neighbor_searches) -> prefix_of q p -> p = q).
Proof.
  set (P := all_central_paths neighbor_searches).
  destruct (build_multimesh_tree_occurs neighbor_searches (new_NeighborNode 0) root I H)
    as (WF & _ & Hocc).
  assert (Cov : covered P [] root).
  { apply (build_multimesh_tree_covered P neighbor_searches (new_NeighborNode 0) root H).
    - apply incl_refl.
    - apply covered_new. }
  assert (Hin_occurs : forall p, In p P -> occurs root p).
  { intros p Hp. unfold P, all_central_paths in Hp.
    apply in_flat_map in Hp. destruct Hp as ([ns|] & Hns & Hp); [|destruct Hp].
    apply in_map_iff in Hp. destruct Hp as (nb & <- & Hnb).
    specialize (Hocc ns Hns). rewrite Forall_forall in Hocc. now apply Hocc. }
  assert (Hend : forall leaf p, find_node q root = Done leaf -> is_leaf leaf = true ->
             In p P -> prefix_of q p -> p = q).
  { intros leaf p Hf Hleaf Hp (s & ->).
    destruct (occurs_find (q ++ s) root WF (Hin_occurs _ Hp)) as (n & Hn & _).
    rewrite (find_node_app q s root leaf Hf) in Hn.
    rewrite (nothing_below_a_leaf leaf s n Hleaf Hn). apply app_nil_r. }
  split.
  - intros Hq.
    assert (Hne : q <> []).
    { unfold leaf_paths_below in Hq. apply in_app_or in Hq.
      destruct Hq as [Hq|Hq].
      - destruct (get_left_son root); [eapply leaf_paths_start; eauto|destruct Hq].
      - destruct (get_right_son root); [eapply leaf_paths_start; eauto|destruct Hq]. }
    destruct (leaf_paths_below_find root q WF Hq) as (leaf & Hf & Hleaf).
    split; [exact Hne|].
    destruct q as [|x q']; [now destruct Hne|].
    destruct (Cov x q' (find_node_occurs _ _ _ Hf)) as (p & Hp & Hpre).
    simpl in Hpre.
    pose proof (Hend leaf p Hf Hleaf Hp Hpre) as E. subst p.
    split; [exact Hp|].
    intros p Hp' Hpre'. eapply Hend; eauto.
  - intros (Hne & Hq & Hmax).
    destruct (occurs_find q root WF (Hin_occurs q Hq)) as (n & Hf & WFn).
    destruct q as [|x q']; [now destruct Hne|].
    destruct (is_leaf n) eqn:Hleaf.
    + eapply find_leaf_in_leaf_paths_below; eauto.
    + exfalso.
      destruct (get_left_son n) as [l|] eqn:El.
      * assert (Hmore : find_node ((x :: q') ++ [get_transformation l]) root = Done l).
        { rewrite (find_node_app (x :: q') [get_transformation l] root n Hf).
          simpl. now rewrite El, Nat.eqb_refl. }
        apply find_node_occurs in Hmore. simpl app in Hmore.
        destruct (Cov x (q' ++ [get_transformation l]) Hmore) as (p & Hp & Hpre).
        simpl in Hpre.
        assert (Hpre' : prefix_of (x :: q') p).
        { eapply prefix_of_trans; [|exact Hpre].
          exists [get_transformation l]. reflexivity. }
        pose proof (Hmax p Hp Hpre') as E. subst p.
        destruct Hpre as (s & Hs).
        apply (f_equal (@length nat)) in Hs.
        simpl in Hs. rewrite !length_app in Hs. simpl in Hs. lia.
      * pose proof (well_formed_shape n WFn El) as Er.
        destruct n as [lbl [l|] [r|]]; simpl in *; discriminate.
Qed.

End BuiltTreeLeaves.

Section BuiltTreeLeavesRuns.

Import Multimesh.

(** Two meshes along one edge: on the first the central element meets three
    neighbors, through its son 0 split once more and through its son 1; on
    the second it meets two, through its sons 0 and 1. *)
Definition through (element : nat) (central : list nat) : Neighbor :=
  {| neighb_el := element;
     neighbor_edge := {| local_num_of_edge := 2; orientation := true |};
     central_transformations := central;
     neighbor_transformations := [] |}.

Definition two_mesh_searches : list (option NeighborSearch) :=
  [ Some {| neighbors := [through 11 [0; 0]; through 12 [0; 1]; through 13 [1]];
            active_edge := 0; central_el_mode := HERMES_MODE_TRIANGLE |};
    Some {| neighbors := [through 21 [0]; through 22 [1]];
            active_edge := 0; central_el_mode := HERMES_MODE_TRIANGLE |} ].

Definition two_mesh_tree : NeighborNode :=
  Node 0 (Some (Node 0 (Some (Node 0 None None)) (Some (Node 1 None None))))
         (Some (Node 1 None None)).

Lemma leaves_are_the_maximal_central_paths_witness :
  In [0; 1] (leaf_paths_below two_mesh_tree) <->
  ([0; 1] <> []
   /\ In [0; 1] (all_central_paths two_mesh_searches)
   /\ forall p, In p (all_central_paths two_mesh_searches) -> prefix_of [0; 1] p -> p = [0; 1]).
Proof.
  apply (leaves_are_the_maximal_central_paths two_mesh_searches two_mesh_tree).
  reflexivity.
Defined.

(** On the example the path [0] of the second mesh is continued by paths of
    the first and is no leaf. *)
Example two_mesh_leaves :
  leaf_paths_below two_mesh_tree = [[0; 0]; [0; 1]; [1]].
Proof. reflexivity. Qed.

End BuiltTreeLeavesRuns.
(** ** The geometry cache *)

Section GeometryCacheFacts.

Import Quadrature GeometryCache.

Context {Scalar : Type} {ops : ScalarOps Scalar}.
Variable cache_size : Z.
Variable get_edge_points : nat -> Z -> Z.

(** Every entry of [c'] is NULL or the entry of [c]. *)
Definition emptied (c c' : Caches) : Prop :=
  forall i, c' i = None \/ c' i = c i.

Lemma emptied_refl (c : Caches) : emptied c c.
Proof. intros i. now right. Qed.

Lemma emptied_trans (a b c : Caches) : emptied a b -> emptied b c -> emptied a c.
Proof.
  intros Hab Hbc i. destruct (Hbc i) as [E|E]; [now left|].
  rewrite E. apply Hab.
Qed.

Lemma store_same (c : Caches) (index : Z) (entry : option (list nat)) :
  store c index entry index = entry.
Proof. unfold store. now rewrite Z.eqb_refl. Qed.

Lemma store_other (c : Caches) (index i : Z) (entry : option (list nat)) :
  i <> index -> store c index entry i = c i.
Proof. intros H. unfold store. apply Z.eqb_neq in H. now rewrite H. Qed.

Lemma delete_single_geom_cache_spec (order : Z) (c : Caches) :
  in_range cache_size order = true ->
  exists c',
    delete_single_geom_cache cache_size order c = Done c'
    /\ c' order = None
    /\ forall i, i <> order -> c' i = c i.
Proof.
  intros Hr. unfold delete_single_geom_cache. rewrite Hr.
  destruct (c order) eqn:E.
  - eexists. split; [reflexivity|]. split; [apply store_same|].
    intros i Hi. now apply store_other.
  - exists c. auto.
Qed.

Lemma out_of_range_stops (surface : option nat) (f : GeomForm (Scalar := Scalar)) (transforms : list nat)
    (order : Z) (c : Caches) :
  in_range cache_size order = false ->
  evaluate_sons cache_size get_edge_points surface f transforms order c
  = Fatal OutOfRange.
Proof.
  intros Hr. unfold evaluate_sons, delete_single_geom_cache. now rewrite Hr.
Qed.

(** The value of a volume form on a sub-element, computed on that
    sub-element's own geometry. *)
Definition on_own_geometry (f : GeomForm (Scalar := Scalar)) (transforms : list nat) (order : Z) : Scalar :=
  eval_form_subelement_vol (uncached f) transforms order.

Lemma evaluate_son_volume (f : GeomForm (Scalar := Scalar)) (transforms : list nat) (order : Z)
    (sons_i : nat) (c : Caches) :
  in_range cache_size order = true ->
  c order = None ->
  exists c',
    evaluate_son cache_size get_edge_points None f transforms order sons_i c
    = Done (on_own_geometry f (transforms ++ [sons_i]) order, c')
    /\ c' order = None
    /\ forall i, i <> order -> c' i = c i.
Proof.
  intros Hr Hempty. unfold evaluate_son, GeometryCache.eval_form_subelement.
  rewrite Hr, Hempty, store_same. cbn [bind fst snd].
  destruct (delete_single_geom_cache_spec order
              (store c order (Some (transforms ++ [sons_i]))) Hr)
    as (c' & E & He & Hother).
  rewrite E. cbn [bind]. exists c'. split; [reflexivity|]. split; [exact He|].
  intros i Hi. rewrite (Hother i Hi). now apply store_other.
Qed.

Lemma evaluate_sons_volume (f : GeomForm (Scalar := Scalar)) (transforms : list nat) (order : Z)
    (c : Caches) :
  in_range cache_size order = true ->
  exists c',
    evaluate_sons cache_size get_edge_points None f transforms order c
    = Done ([on_own_geometry f (transforms ++ [0]) order;
             on_own_geometry f (transforms ++ [1]) order;
             on_own_geometry f (transforms ++ [2]) order;
             on_own_geometry f (transforms ++ [3]) order], c')
    /\ emptied c c'.
Proof.
  intros Hr. unfold evaluate_sons.
  destruct (delete_single_geom_cache_spec order c Hr) as (c0 & E0 & He0 & Ho0).
  rewrite E0. cbn [bind].
  destruct (evaluate_son_volume f transforms order 0 c0 Hr He0) as (c1 & E1 & He1 & Ho1).
  rewrite E1. cbn [bind fst snd].
  destruct (evaluate_son_volume f transforms order 1 c1 Hr He1) as (c2 & E2 & He2 & Ho2).
  rewrite E2. cbn [bind fst snd].
  destruct (evaluate_son_volume f transforms order 2 c2 Hr He2) as (c3 & E3 & He3 & Ho3).
  rewrite E3. cbn [bind fst snd].
  destruct (evaluate_son_volume f transforms order 3 c3 Hr He3) as (c4 & E4 & He4 & Ho4).
  rewrite E4. cbn [bind fst snd].
  exists c4. split; [reflexivity|].
  intros i. destruct (Z.eq_dec i order) as [->|Hne]; [now left|].
  right. now rewrite Ho4, Ho3, Ho2, Ho1, Ho0.
Qed.

Lemma cached_adaptive_unfold (surface : option nat) (f : GeomForm (Scalar := Scalar)) (fuel : nat)
    (transforms : list nat) (order_init : Z) (result_init : Scalar) (c : Caches) :
  GeometryCache.eval_form_adaptive cache_size get_edge_points surface f fuel
    transforms order_init result_init c
  = let order := (order_init + g_adapt_order_increase f)%Z in
    s <- evaluate_sons cache_size get_edge_points surface f transforms order c ;;
    let sum := fold_left s_add (fst s) s_zero in
    if abs_lt_1e6 sum then Done (sum, snd s)
    else if tol_lt (rel_error sum result_init) (g_adapt_rel_error_tol f)
    then Done (sum, snd s)
    else
      match fuel with
      | O => OutOfFuel
      | S fuel' =>
          r0 <- GeometryCache.eval_form_adaptive cache_size get_edge_points surface f
                  fuel' (transforms ++ [0]) order (nth 0 (fst s) s_zero) (snd s) ;;
          r1 <- GeometryCache.eval_form_adaptive cache_size get_edge_points surface f
                  fuel' (transforms ++ [1]) order (nth 1 (fst s) s_zero) (snd r0) ;;
          r2 <- GeometryCache.eval_form_adaptive cache_size get_edge_points surface f
                  fuel' (transforms ++ [2]) order (nth 2 (fst s) s_zero) (snd r1) ;;
          r3 <- GeometryCache.eval_form_adaptive cache_size get_edge_points surface f
                  fuel' (transforms ++ [3]) order (nth 3 (fst s) s_zero) (snd r2) ;;
          Done (s_add (s_add (s_add (s_add s_zero (fst r0)) (fst r1)) (fst r2)) (fst r3),
                snd r3)
      end.
Proof. destruct fuel; reflexivity. Qed.

(** The orders the recursion can reach with [fuel] levels lie inside the
    cache. *)
Definition orders_in_range (f : GeomForm (Scalar := Scalar)) (fuel : nat) (order_init : Z) : Prop :=
  forall k, (1 <= k <= Z.of_nat fuel + 1)%Z ->
    in_range cache_size (order_init + k * g_adapt_order_increase f) = true.

Lemma orders_in_range_first (f : GeomForm (Scalar := Scalar)) (fuel : nat) (order_init : Z) :
  orders_in_range f fuel order_init ->
  in_range cache_size (order_init + g_adapt_order_increase f) = true.
Proof.
  intros H. specialize (H 1%Z). rewrite Z.mul_1_l in H. apply H. lia.
Qed.

Lemma orders_in_range_next (f : GeomForm (Scalar := Scalar)) (fuel : nat) (order_init : Z) :
  orders_in_range f (S fuel) order_init ->
  orders_in_range f fuel (order_init + g_adapt_order_increase f).
Proof.
  intros H k Hk.
  replace (order_init + g_adapt_order_increase f + k * g_adapt_order_increase f)%Z
    with (order_init + (k + 1) * g_adapt_order_increase f)%Z by lia.
  apply H. lia.
Qed.

Lemma cached_volume_sound (f : GeomForm (Scalar := Scalar)) :
  forall fuel transforms order_init result_init c v c',
    GeometryCache.eval_form_adaptive cache_size get_edge_points None f fuel
      transforms order_init result_init c = Done (v, c') ->
    Quadrature.eval_form_adaptive (eval_form_subelement_vol (uncached f)) (uncached f)
      fuel transforms order_init result_init = Done v
    /\ emptied c c'.
Proof.
  induction fuel as [|fuel IH]; intros transforms order_init result_init c v c' H;
    rewrite cached_adaptive_unfold in H; rewrite eval_form_adaptive_unfold;
    cbv zeta in *;
    (destruct (in_range cache_size (order_init + g_adapt_order_increase f)) eqn:Hr;
     [|rewrite out_of_range_stops in H by exact Hr; discriminate]);
    destruct (evaluate_sons_volume f transforms _ c Hr) as (c1 & E & Hem);
    rewrite E in H; cbn [bind fst snd nth] in H;
    change (fold_left s_add
              [on_own_geometry f (transforms ++ [0]) (order_init + g_adapt_order_increase f);
               on_own_geometry f (transforms ++ [1]) (order_init + g_adapt_order_increase f);
               on_own_geometry f (transforms ++ [2]) (order_init + g_adapt_order_increase f);
               on_own_geometry f (transforms ++ [3]) (order_init + g_adapt_order_increase f)]
              s_zero)
      with (sum_of_sons (eval_form_subelement_vol (uncached f)) transforms
              (order_init + adapt_order_increase (uncached f))) in H;
    destruct (abs_lt_1e6 _); try (inversion H; subst; now split);
    change (adapt_rel_error_tol (uncached f)) with (g_adapt_rel_error_tol f);
    destruct (tol_lt _ _); try (inversion H; subst; now split);
    try discriminate.
  unfold on_own_geometry in H.
  change (adapt_order_increase (uncached f)) with (g_adapt_order_increase f).
  destruct (GeometryCache.eval_form_adaptive _ _ _ _ fuel (transforms ++ [0]) _ _ c1)
    as [[v0 c2]| |] eqn:E0; try discriminate.
  cbn [bind fst snd] in H.
  destruct (GeometryCache.eval_form_adaptive _ _ _ _ fuel (transforms ++ [1]) _ _ c2)
    as [[v1 c3]| |] eqn:E1; try discriminate.
  cbn [bind fst snd] in H.
  destruct (GeometryCache.eval_form_adaptive _ _ _ _ fuel (transforms ++ [2]) _ _ c3)
    as [[v2 c4]| |] eqn:E2; try discriminate.
  cbn [bind fst snd] in H.
  destruct (GeometryCache.eval_form_adaptive _ _ _ _ fuel (transforms ++ [3]) _ _ c4)
    as [[v3 c5]| |] eqn:E3; try discriminate.
  cbn [bind fst snd] in H. inversion H; subst v c'; clear H.
  destruct (IH _ _ _ _ _ _ E0) as [P0 M0].
  destruct (IH _ _ _ _ _ _ E1) as [P1 M1].
  destruct (IH _ _ _ _ _ _ E2) as [P2 M2].
  destruct (IH _ _ _ _ _ _ E3) as [P3 M3].
  rewrite P0, P1, P2, P3. cbn [bind]. split; [reflexivity|].
  apply (emptied_trans _ c4 _); [|exact M3].
  apply (emptied_trans _ c3 _); [|exact M2].
  apply (emptied_trans _ c2 _); [|exact M1].
  apply (emptied_trans _ c1 _); [exact Hem|exact M0].
Qed.

Lemma cached_volume_complete (f : GeomForm (Scalar := Scalar)) :
  forall fuel transforms order_init result_init c v,
    orders_in_range f fuel order_init ->
    Quadrature.eval_form_adaptive (eval_form_subelement_vol (uncached f)) (uncached f)
      fuel transforms order_init result_init = Done v ->
    exists c',
      GeometryCache.eval_form_adaptive cache_size get_edge_points None f fuel
        transforms order_init result_init c = Done (v, c').
Proof.
  induction fuel as [|fuel IH]; intros transforms order_init result_init c v Hrange H;
    rewrite eval_form_adaptive_unfold in H; rewrite cached_adaptive_unfold;
    cbv zeta in *;
    pose proof (orders_in_range_first f _ order_init Hrange) as Hr;
    destruct (evaluate_sons_volume f transforms _ c Hr) as (c1 & E & Hem);
    rewrite E; cbn [bind fst snd nth];
    change (fold_left s_add
              [on_own_geometry f (transforms ++ [0]) (order_init + g_adapt_order_increase f);
               on_own_geometry f (transforms ++ [1]) (order_init + g_adapt_order_increase f);
               on_own_geometry f (transforms ++ [2]) (order_init + g_adapt_order_increase f);
               on_own_geometry f (transforms ++ [3]) (order_init + g_adapt_order_increase f)]
              s_zero)
      with (sum_of_sons (eval_form_subelement_vol (uncached f)) transforms
              (order_init + adapt_order_increase (uncached f)));
    change (adapt_rel_error_tol (uncached f)) with (g_adapt_rel_error_tol f) in H;
    destruct (abs_lt_1e6 _); try (inversion H; subst; eauto);
    destruct (tol_lt _ _); try (inversion H; subst; eauto);
    try discriminate.
  apply orders_in_range_next in Hrange.
  change (adapt_order_increase (uncached f)) with (g_adapt_order_increase f) in H.
  unfold on_own_geometry.
  destruct (Quadrature.eval_form_adaptive _ _ fuel (transforms ++ [0]) _ _)
    as [v0| |] eqn:P0; try discriminate.
  cbn [bind] in H.
  destruct (Quadrature.eval_form_adaptive _ _ fuel (transforms ++ [1]) _ _)
    as [v1| |] eqn:P1; try discriminate.
  cbn [bind] in H.
  destruct (Quadrature.eval_form_adaptive _ _ fuel (transforms ++ [2]) _ _)
    as [v2| |] eqn:P2; try discriminate.
  cbn [bind] in H.
  destruct (Quadrature.eval_form_adaptive _ _ fuel (transforms ++ [3]) _ _)
    as [v3| |] eqn:P3; try discriminate.
  cbn [bind] in H. inversion H; subst v; clear H.
  destruct (IH _ _ _ c1 _ Hrange P0) as (c2 & E0). rewrite E0. cbn [bind fst snd].
  destruct (IH _ _ _ c2 _ Hrange P1) as (c3 & E1). rewrite E1. cbn [bind fst snd].
  destruct (IH _ _ _ c3 _ Hrange P2) as (c4 & E2). rewrite E2. cbn [bind fst snd].
  destruct (IH _ _ _ c4 _ Hrange P3) as (c5 & E3). rewrite E3. cbn [bind fst snd].
  eauto.
Qed.

(** For a volume form the geometry cache does not change what the adaptive
    evaluation computes.  A value it returns with the cache is the value of
    the evaluation in which every sub-element is integrated on its own
    geometry, and it leaves every cache entry as it was or empty; and while
    the orders the recursion reaches index the cache inside its bounds, it
    returns whenever that evaluation does. *)
Theorem volume_adaptive_evaluation_ignores_the_cache (f : GeomForm (Scalar := Scalar))
    (fuel : nat) (transforms : list nat) (order_init : Z) (result_init : Scalar)
    (c : Caches) :
  (forall v c',
      GeometryCache.eval_form_adaptive cache_size get_edge_points None f fuel
        transforms order_init result_init c = Done (v, c') ->
      Quadrature.eval_form_adaptive (eval_form_subelement_vol (uncached f)) (uncached f)
        fuel transforms order_init result_init = Done v
      /\ forall i, c' i = None \/ c' i = c i)
  /\ (orders_in_range f fuel order_init ->
      forall v,
        Quadrature.eval_form_adaptive (eval_form_subelement_vol (uncached f)) (uncached f)
          fuel transforms order_init result_init = Done v ->
        exists c',
          GeometryCache.eval_form_adaptive cache_size get_edge_points None f fuel
            transforms order_init result_init c = Done (v, c')).
Proof.
  split.
  - intros v c' H. now apply cached_volume_sound.
  - intros Hrange v H. now apply cached_volume_complete.
Qed.

(** *** Surface forms *)

Lemma evaluate_son_surface (f : GeomForm (Scalar := Scalar)) (surf_num : nat) (transforms : list nat)
    (order : Z) (sons_i : nat) (c : Caches) (geometry : list nat) :
  in_range cache_size order = true ->
  in_range cache_size (get_edge_points surf_num order) = true ->
  get_edge_points surf_num order <> order ->
  c (get_edge_points surf_num order) = Some geometry ->
  exists c',
    evaluate_son cache_size get_edge_points (Some surf_num) f transforms order sons_i c
    = Done (s_mul s_half
              (s_mul (value_on f geometry (transforms ++ [sons_i])
                        (get_edge_points surf_num order))
                     (g_scaling_factor f)),
            c')
    /\ c' (get_edge_points surf_num order) = Some geometry.
Proof.
  intros Hr Hreo Hne Hc. unfold evaluate_son, GeometryCache.eval_form_subelement.
  rewrite Hreo, Hc, Hc. cbn [bind fst snd].
  destruct (delete_single_geom_cache_spec order c Hr) as (c' & E & _ & Hother).
  rewrite E. cbn [bind]. exists c'. split; [reflexivity|].
  now rewrite (Hother _ Hne).
Qed.

(** In the adaptive evaluation of a surface form the cache entry that is
    deleted around every son is the one of [order], while the sons are
    integrated with the entry of [get_edge_points(surf_num, order)].  Where
    the two differ, the four sons are all integrated on one geometry: the one
    found in that entry or, if it is empty, the one of son 0; and that entry
    is left behind. *)
Theorem surface_sons_share_one_geometry (f : GeomForm (Scalar := Scalar)) (surf_num : nat)
    (transforms : list nat) (order : Z) (c : Caches)
    (Hr : in_range cache_size order = true)
    (Hreo : in_range cache_size (get_edge_points surf_num order) = true)
    (Hne : get_edge_points surf_num order <> order) :
  let eo := get_edge_points surf_num order in
  let geometry := match c eo with
                  | Some g => g
                  | None => transforms ++ [0]
                  end in
  exists c',
    evaluate_sons cache_size get_edge_points (Some surf_num) f transforms order c
    = Done (map (fun sons_i =>
                   s_mul s_half
                     (s_mul (value_on f geometry (transforms ++ [sons_i]) eo)
                            (g_scaling_factor f)))
                [0; 1; 2; 3],
            c')
    /\ c' eo = Some geometry.
Proof.
  cbv zeta. unfold evaluate_sons.
  destruct (delete_single_geom_cache_spec order c Hr) as (c0 & E0 & _ & Ho0).
  rewrite E0. cbn [bind].
  pose proof (Ho0 _ Hne) as Hc0.
  remember (match c (get_edge_points surf_num order) with
            | Some g => g
            | None => transforms ++ [0]
            end) as geometry eqn:Hg.
  assert (Hfirst : exists c1,
             evaluate_son cache_size get_edge_points (Some surf_num) f transforms order 0 c0
             = Done (s_mul s_half
                       (s_mul (value_on f geometry (transforms ++ [0])
                                 (get_edge_points surf_num order))
                              (g_scaling_factor f)),
                     c1)
             /\ c1 (get_edge_points surf_num order) = Some geometry).
  { destruct (c (get_edge_points surf_num order)) as [g|] eqn:Ec; subst geometry.
    - now apply evaluate_son_surface.
    - unfold evaluate_son, GeometryCache.eval_form_subelement.
      rewrite Hreo, Hc0, store_same. cbn [bind fst snd].
      destruct (delete_single_geom_cache_spec order
                  (store c0 (get_edge_points surf_num order) (Some (transforms ++ [0])))
                  Hr) as (c1 & E & _ & Hother).
      rewrite E. cbn [bind]. exists c1. split; [reflexivity|].
      rewrite (Hother _ Hne). apply store_same. }
  destruct Hfirst as (c1 & E1 & H1). rewrite E1. cbn [bind fst snd].
  destruct (evaluate_son_surface f surf_num transforms order 1 c1 geometry Hr Hreo Hne H1)
    as (c2 & E2 & H2).
  rewrite E2. cbn [bind fst snd].
  destruct (evaluate_son_surface f surf_num transforms order 2 c2 geometry Hr Hreo Hne H2)
    as (c3 & E3 & H3).
  rewrite E3. cbn [bind fst snd].
  destruct (evaluate_son_surface f surf_num transforms order 3 c3 geometry Hr Hreo Hne H3)
    as (c4 & E4 & H4).
  rewrite E4. cbn [bind fst snd].
  exists c4. split; [reflexivity|exact H4].
Qed.

End GeometryCacheFacts.

Section GeometryCacheRuns.

Import Quadrature GeometryCache GeometryCacheExample.

Lemma volume_adaptive_evaluation_ignores_the_cache_witness :
  orders_in_range 100%Z telltale_form 1 1%Z
  /\ exists c',
       GeometryCache.eval_form_adaptive 100%Z numbered_edge_points None telltale_form 1
         [] 1%Z 4%Q empty_cache = Done (4%Q, c').
Proof.
  assert (Hrange : orders_in_range 100%Z telltale_form 1 1%Z).
  { intros k Hk. assert (Hcases : k = 1%Z \/ k = 2%Z) by (simpl in Hk; lia).
    destruct Hcases; subst k; reflexivity. }
  split; [exact Hrange|].
  exact (proj2 (volume_adaptive_evaluation_ignores_the_cache 100%Z numbered_edge_points
                  telltale_form 1 [] 1%Z 4%Q empty_cache)
               Hrange 4%Q eq_refl).
Defined.

Lemma surface_sons_share_one_geometry_witness :
  exists c',
    evaluate_sons 100%Z numbered_edge_points (Some 1) telltale_form [] 2%Z empty_cache
    = Done (map (fun sons_i =>
                   s_mul s_half
                     (s_mul (value_on telltale_form [0] ([] ++ [sons_i]) 19%Z) 1%Q))
                [0; 1; 2; 3],
            c')
    /\ c' 19%Z = Some [0].
Proof.
  exact (surface_sons_share_one_geometry 100%Z numbered_edge_points telltale_form 1 []
           2%Z empty_cache eq_refl eq_refl ltac:(discriminate)).
Defined.

(** On the telltale form: the sons of a volume form are all integrated on
    their own geometry, the sons 1 to 3 of a surface form are not. *)
Example telltale_sons :
  (exists c', evaluate_sons 100%Z numbered_edge_points None telltale_form [] 2%Z empty_cache
              = Done ([1%Q; 1%Q; 1%Q; 1%Q], c'))
  /\ (exists c', evaluate_sons 100%Z numbered_edge_points (Some 1) telltale_form [] 2%Z
                   empty_cache
                 = Done ([(1 # 2)%Q; 500%Q; 500%Q; 500%Q], c')).
Proof.
  split; eexists; vm_compute; reflexivity.
Qed.

End GeometryCacheRuns.
(** ** What an evaluation through the cache returns *)

Section CachedValues.

Import Quadrature GeometryCache.

Context {Scalar : Type} {ops : ScalarOps Scalar}.
Variable cache_size : Z.
Variable get_edge_points : nat -> Z -> Z.

(** The geometry that an evaluation on the sub-element [current] is handed
    for the rule [index]: the cached one if there is one, its own
    otherwise. *)
Definition seen (c : Caches) (index : Z) (current : list nat) : list nat :=
  match c index with
  | Some geometry => geometry
  | None => current
  end.

(** The cache after that evaluation. *)
Definition filled (c : Caches) (index : Z) (current : list nat) : Caches :=
  match c index with
  | None => store c index (Some current)
  | Some _ => c
  end.

(** The integral of a form over an edge, times its scaling factor, times
    0.5. *)
Definition halved (f : GeomForm (Scalar := Scalar)) (geometry transforms : list nat)
    (eo : Z) : Scalar :=
  s_mul s_half (s_mul (value_on f geometry transforms eo) (g_scaling_factor f)).

Lemma eval_form_subelement_surface (f : GeomForm (Scalar := Scalar)) (surf_num : nat)
    (transforms : list nat) (order : Z) (c : Caches) :
  in_range cache_size (get_edge_points surf_num order) = true ->
  GeometryCache.eval_form_subelement cache_size get_edge_points (Some surf_num) f
    transforms order c
  = Done (halved f (seen c (get_edge_points surf_num order) transforms) transforms
            (get_edge_points surf_num order),
          filled c (get_edge_points surf_num order) transforms).
Proof.
  intros Hr. unfold GeometryCache.eval_form_subelement, seen, filled, halved.
  rewrite Hr. destruct (c (get_edge_points surf_num order)) eqn:E.
  - now rewrite E.
  - now rewrite store_same.
Qed.

Lemma eval_form_subelement_volume (f : GeomForm (Scalar := Scalar))
    (transforms : list nat) (order : Z) (c : Caches) :
  in_range cache_size order = true ->
  GeometryCache.eval_form_subelement cache_size get_edge_points None f
    transforms order c
  = Done (s_mul (value_on f (seen c order transforms) transforms order)
                (g_scaling_factor f),
          filled c order transforms).
Proof.
  intros Hr. unfold GeometryCache.eval_form_subelement, seen, filled.
  rewrite Hr. destruct (c order) eqn:E.
  - now rewrite E.
  - now rewrite store_same.
Qed.

(** The rule an evaluation indexes the cache with. *)
Definition rule_index (surface : option nat) (order : Z) : Z :=
  match surface with
  | None => order
  | Some surf_num => get_edge_points surf_num order
  end.


Lemma evaluate_son_halved (f : GeomForm (Scalar := Scalar)) (surf_num : nat)
    (transforms : list nat) (order : Z) (sons_i : nat) (c : Caches) :
  in_range cache_size order = true ->
  in_range cache_size (get_edge_points surf_num order) = true ->
  exists c',
    evaluate_son cache_size get_edge_points (Some surf_num) f transforms order sons_i c
    = Done (halved f (seen c (get_edge_points surf_num order) (transforms ++ [sons_i]))
              (transforms ++ [sons_i]) (get_edge_points surf_num order),
            c').
Proof.
  intros Hr Hreo. unfold evaluate_son.
  rewrite eval_form_subelement_surface by exact Hreo. cbn [bind fst snd].
  destruct (delete_single_geom_cache_spec cache_size order
              (filled c (get_edge_points surf_num order) (transforms ++ [sons_i])) Hr)
    as (c' & E & _).
  rewrite E. cbn [bind]. now exists c'.
Qed.

Lemma evaluate_sons_halved (f : GeomForm (Scalar := Scalar)) (surf_num : nat)
    (transforms : list nat) (order : Z) (c : Caches) :
  in_range cache_size order = true ->
  in_range cache_size (get_edge_points surf_num order) = true ->
  exists g0 g1 g2 g3 c',
    evaluate_sons cache_size get_edge_points (Some surf_num) f transforms order c
    = Done ([halved f g0 (transforms ++ [0]) (get_edge_points surf_num order);
             halved f g1 (transforms ++ [1]) (get_edge_points surf_num order);
             halved f g2 (transforms ++ [2]) (get_edge_points surf_num order);
             halved f g3 (transforms ++ [3]) (get_edge_points surf_num order)], c').
Proof.
  intros Hr Hreo. unfold evaluate_sons.
  destruct (delete_single_geom_cache_spec cache_size order c Hr) as (c0 & E0 & _).
  rewrite E0. cbn [bind].
  destruct (evaluate_son_halved f surf_num transforms order 0 c0 Hr Hreo) as (c1 & E1).
  rewrite E1. cbn [bind fst snd].
  destruct (evaluate_son_halved f surf_num transforms order 1 c1 Hr Hreo) as (c2 & E2).
  rewrite E2. cbn [bind fst snd].
  destruct (evaluate_son_halved f surf_num transforms order 2 c2 Hr Hreo) as (c3 & E3).
  rewrite E3. cbn [bind fst snd].
  destruct (evaluate_son_halved f surf_num transforms order 3 c3 Hr Hreo) as (c4 & E4).
  rewrite E4. cbn [bind fst snd].
  now eexists _, _, _, _, _.
Qed.


(** *** Forms that are integrated once *)

Lemma eval_dg_form_halved (f : GeomForm (Scalar := Scalar)) (surf_num : nat)
    (order : Z) (c : Caches) :
  in_range cache_size (get_edge_points surf_num order) = true ->
  eval_dg_form cache_size get_edge_points f surf_num order c
  = Done (halved f (seen c (get_edge_points surf_num order) []) []
            (get_edge_points surf_num order),
          filled c (get_edge_points surf_num order) []).
Proof.
  intros Hr. unfold eval_dg_form, seen, filled, halved.
  rewrite Hr. destruct (c (get_edge_points surf_num order)) eqn:E.
  - now rewrite E.
  - now rewrite store_same.
Qed.


Lemma eval_form_multicomponent_once (surface : option nat)
    (mf : MultiComponentGeomForm (Scalar := Scalar)) (order : Z) (c : Caches) :
  in_range cache_size (rule_index surface order) = true ->
  eval_form_multicomponent cache_size get_edge_points surface mf order c
  = Done (map (fun r =>
                 match surface with
                 | None => s_mul r (mc_scaling_factor mf)
                 | Some _ => s_mul r (s_mul (mc_scaling_factor mf) s_half)
                 end)
              (mc_value_on mf (seen c (rule_index surface order) [])
                 (rule_index surface order)),
          filled c (rule_index surface order) []).
Proof.
  intros Hr. unfold eval_form_multicomponent, seen, filled.
  unfold rule_index in *. rewrite Hr.
  destruct (c match surface with
              | Some surf_num => get_edge_points surf_num order
              | None => order
              end) eqn:E.
  - now rewrite E.
  - now rewrite store_same.
Qed.

(** *** The adaptive scheme *)

(** The sum of the values of the sons, as the source accumulates it. *)
Definition sons_sum (vals : list Scalar) : Scalar := fold_left s_add vals s_zero.

(** [adaptive_scheme surface f depth transforms order_init coarse c r c']:
    the scheme of the adaptive evaluation, on the sub-element [transforms]
    with the coarse estimate [coarse] computed at [order_init], yields [r].
    The values of [eval_form_subelement] on the four sons at the order
    [order_init + adapt_order_increase] are summed; the sum is the result
    when its absolute value is below 1e-6 or when its relative error against
    [coarse] is below [adapt_rel_error_tol]; otherwise the result is the sum
    of what the scheme yields in each son, at the raised order and with the
    value of that son as coarse estimate.  [depth] bounds the number of
    nested subdivisions; [c] and [c'] are the caches before and after. *)
Inductive adaptive_scheme (surface : option nat) (f : GeomForm (Scalar := Scalar))
    : nat -> list nat -> Z -> Scalar -> Caches -> Scalar -> Caches -> Prop :=
| scheme_accept (depth : nat) (transforms : list nat) (order_init : Z)
    (coarse : Scalar) (c : Caches) (vals : list Scalar) (c' : Caches) :
    evaluate_sons cache_size get_edge_points surface f transforms
      (order_init + g_adapt_order_increase f) c = Done (vals, c') ->
    abs_lt_1e6 (sons_sum vals) = true
    \/ tol_lt (rel_error (sons_sum vals) coarse) (g_adapt_rel_error_tol f) = true ->
    adaptive_scheme surface f depth transforms order_init coarse c (sons_sum vals) c'
| scheme_recurse (depth : nat) (transforms : list nat) (order_init : Z)
    (coarse : Scalar) (c : Caches) (vals : list Scalar)
    (c1 c2 c3 c4 c5 : Caches) (r0 r1 r2 r3 : Scalar) :
    evaluate_sons cache_size get_edge_points surface f transforms
      (order_init + g_adapt_order_increase f) c = Done (vals, c1) ->
    abs_lt_1e6 (sons_sum vals) = false ->
    tol_lt (rel_error (sons_sum vals) coarse) (g_adapt_rel_error_tol f) = false ->
    adaptive_scheme surface f depth (transforms ++ [0])
      (order_init + g_adapt_order_increase f) (nth 0 vals s_zero) c1 r0 c2 ->
    adaptive_scheme surface f depth (transforms ++ [1])
      (order_init + g_adapt_order_increase f) (nth 1 vals s_zero) c2 r1 c3 ->
    adaptive_scheme surface f depth (transforms ++ [2])
      (order_init + g_adapt_order_increase f) (nth 2 vals s_zero) c3 r2 c4 ->
    adaptive_scheme surface f depth (transforms ++ [3])
      (order_init + g_adapt_order_increase f) (nth 3 vals s_zero) c4 r3 c5 ->
    adaptive_scheme surface f (S depth) transforms order_init coarse c
      (s_add (s_add (s_add (s_add s_zero r0) r1) r2) r3) c5.

Lemma eval_form_adaptive_follows_the_scheme (surface : option nat)
    (f : GeomForm (Scalar := Scalar)) :
  forall fuel transforms order_init coarse c r c',
    GeometryCache.eval_form_adaptive cache_size get_edge_points surface f fuel
      transforms order_init coarse c = Done (r, c') ->
    adaptive_scheme surface f fuel transforms order_init coarse c r c'.
Proof.
  induction fuel as [|fuel IH]; intros transforms order_init coarse c r c' H;
    rewrite cached_adaptive_unfold in H; cbv zeta in H;
    (destruct (evaluate_sons cache_size get_edge_points surface f transforms
                 (order_init + g_adapt_order_increase f) c)
       as [[vals c1]| |] eqn:Es; try discriminate);
    cbn [bind fst snd] in H;
    fold (sons_sum vals) in H;
    (destruct (abs_lt_1e6 (sons_sum vals)) eqn:Hneg;
     [inversion H; subst; apply scheme_accept; [exact Es|now left]|]);
    (destruct (tol_lt (rel_error (sons_sum vals) coarse) (g_adapt_rel_error_tol f))
       eqn:Htol;
     [inversion H; subst; apply scheme_accept; [exact Es|now right]|]);
    try discriminate.
  destruct (GeometryCache.eval_form_adaptive _ _ _ _ fuel (transforms ++ [0]) _ _ c1)
    as [[r0 c2]| |] eqn:E0; try discriminate.
  cbn [bind fst snd] in H.
  destruct (GeometryCache.eval_form_adaptive _ _ _ _ fuel (transforms ++ [1]) _ _ c2)
    as [[r1 c3]| |] eqn:E1; try discriminate.
  cbn [bind fst snd] in H.
  destruct (GeometryCache.eval_form_adaptive _ _ _ _ fuel (transforms ++ [2]) _ _ c3)
    as [[r2 c4]| |] eqn:E2; try discriminate.
  cbn [bind fst snd] in H.
  destruct (GeometryCache.eval_form_adaptive _ _ _ _ fuel (transforms ++ [3]) _ _ c4)
    as [[r3 c5]| |] eqn:E3; try discriminate.
  cbn [bind fst snd] in H. inversion H; subst r c'; clear H.
  eapply scheme_recurse; eauto.
Qed.

Lemma scheme_is_reached_by_eval_form_adaptive (surface : option nat)
    (f : GeomForm (Scalar := Scalar)) :
  forall depth transforms order_init coarse c r c',
    adaptive_scheme surface f depth transforms order_init coarse c r c' ->
    forall fuel, depth <= fuel ->
      GeometryCache.eval_form_adaptive cache_size get_edge_points surface f fuel
        transforms order_init coarse c = Done (r, c').
Proof.
  intros depth transforms order_init coarse c r c' H.
  induction H as [depth transforms order_init coarse c vals c' Es Hacc
                 |depth transforms order_init coarse c vals c1 c2 c3 c4 c5 r0 r1 r2 r3
                    Es Hneg Htol H0 IH0 H1 IH1 H2 IH2 H3 IH3];
    intros fuel Hfuel; rewrite cached_adaptive_unfold; cbv zeta;
    rewrite Es; cbn [bind fst snd]; fold (sons_sum vals).
  - destruct (abs_lt_1e6 (sons_sum vals)) eqn:Hneg; [reflexivity|].
    destruct Hacc as [Hacc|Hacc]; [discriminate|]. now rewrite Hacc.
  - rewrite Hneg, Htol. destruct fuel as [|fuel]; [lia|].
    rewrite (IH0 fuel) by lia. cbn [bind fst snd].
    rewrite (IH1 fuel) by lia. cbn [bind fst snd].
    rewrite (IH2 fuel) by lia. cbn [bind fst snd].
    rewrite (IH3 fuel) by lia. reflexivity.
Qed.

End CachedValues.
(** ** The factor 0.5 of the surface forms *)

Section SurfaceHalving.

Import Quadrature GeometryCache.

Context {Scalar : Type} {ops : ScalarOps Scalar}.
Variable cache_size : Z.
Variable get_edge_points : nat -> Z -> Z.




End SurfaceHalving.

Section SurfaceHalvingRuns.

Import Quadrature GeometryCache GeometryCacheExample.


(** The two values of the constant form on that edge. *)
Example constant_form_on_an_edge :
  value_of (eval_dg_form 100%Z numbered_edge_points (constant_form 1%Z 1%Q) 1 2%Z
              empty_cache) = Done (1 # 2)%Q
  /\ value_of (eval_form 100%Z numbered_edge_points (Some 1) (constant_form 1%Z 1%Q)
                 0 2%Z 2%Z empty_cache) = Done 2%Q.
Proof. vm_compute. split; reflexivity. Qed.

End SurfaceHalvingRuns.
(** ** Adaptive evaluation: the scheme and how deep it goes *)

Section AdaptiveDepth.

Import Quadrature GeometryCache GeometryCacheExample.

Variable cache_size : Z.
Variable get_edge_points : nat -> Z -> Z.

(** The orders of the next [levels] levels of the recursion, from [order]
    upwards in steps of [inc], index the cache inside its bounds. *)
Fixpoint stays_in_cache (order inc : Z) (levels : nat) : bool :=
  match levels with
  | O => true
  | S n => in_range cache_size (order + inc) && stays_in_cache (order + inc) inc n
  end.

Lemma stays_in_cache_step (order inc : Z) (n : nat) :
  stays_in_cache order inc (S n)
  = in_range cache_size (order + inc) && stays_in_cache (order + inc) inc n.
Proof. reflexivity. Qed.

Lemma stays_in_cache_still (order : Z) :
  in_range cache_size order = true ->
  forall n, stays_in_cache order 0 n = true.
Proof.
  intros Hr. induction n as [|n IH]; [reflexivity|].
  rewrite stays_in_cache_step, Z.add_0_r, Hr, IH. reflexivity.
Qed.

Lemma stays_in_cache_rising (n : nat) : forall order,
  (0 <= order)%Z ->
  stays_in_cache order 1 (S n) = (order + Z.of_nat n + 1 <? cache_size)%Z.
Proof.
  induction n as [|n IH]; intros order Horder; rewrite stays_in_cache_step.
  - cbn [stays_in_cache]. unfold in_range.
    apply Bool.eq_iff_eq_true. rewrite !andb_true_iff, Z.leb_le, !Z.ltb_lt. lia.
  - rewrite IH by lia. unfold in_range.
    apply Bool.eq_iff_eq_true. rewrite !andb_true_iff, Z.leb_le, !Z.ltb_lt. lia.
Qed.

Lemma constant_form_on_own_geometry (inc : Z) (tol : Q) (transforms : list nat)
    (order : Z) :
  on_own_geometry (constant_form inc tol) transforms order = 1%Q.
Proof. reflexivity. Qed.

(** The sons of the constant form always sum to 4 against an estimate of 1:
    with the tolerance 1/10 no sum is ever accepted.  The evaluation goes on
    as long as there is fuel and the raised order stays in the cache. *)
Lemma constant_form_is_never_accepted (inc : Z) :
  forall fuel transforms order c,
    value_of (GeometryCache.eval_form_adaptive cache_size get_edge_points None
                (constant_form inc (1 # 10)) fuel transforms order 1%Q c)
    = if stays_in_cache order inc (S fuel) then OutOfFuel else Fatal OutOfRange.
Proof.
  induction fuel as [|fuel IH]; intros transforms order c;
    rewrite cached_adaptive_unfold; cbv zeta;
    change (g_adapt_order_increase (constant_form inc (1 # 10))) with inc;
    rewrite stays_in_cache_step;
    (destruct (in_range cache_size (order + inc)) eqn:Hr;
     [|rewrite out_of_range_stops by exact Hr; reflexivity]);
    destruct (evaluate_sons_volume cache_size get_edge_points
                (constant_form inc (1 # 10)) transforms (order + inc) c Hr)
      as (c1 & E & _);
    rewrite E; cbn [bind fst snd nth andb];
    rewrite !constant_form_on_own_geometry;
    change (fold_left s_add [1%Q; 1%Q; 1%Q; 1%Q] s_zero) with 4%Q;
    change (abs_lt_1e6 4%Q) with false;
    change (tol_lt (rel_error 4%Q 1%Q)
              (g_adapt_rel_error_tol (constant_form inc (1 # 10))))
      with false;
    cbv iota.
  - reflexivity.
  - specialize (IH (transforms ++ [0]) (order + inc)%Z c1).
    destruct (GeometryCache.eval_form_adaptive cache_size get_edge_points None
                (constant_form inc (1 # 10)) fuel (transforms ++ [0]) (order + inc) 1%Q c1)
      as [[r c2]|e|];
      cbn [value_of bind fst] in IH |- *;
      destruct (stays_in_cache (order + inc) inc (S fuel));
      try discriminate; try exact IH; reflexivity.
Qed.

End AdaptiveDepth.

Section AdaptiveScheme.

Import Quadrature GeometryCache GeometryCacheExample.

Context {Scalar : Type} {ops : ScalarOps Scalar}.
Variable cache_size : Z.
Variable get_edge_points : nat -> Z -> Z.

(** C6, for the single-component volume forms ([surface = None]) and
    boundary forms ([surface = Some surf_num]), which [eval_form] evaluates.
    A form without [adapt_eval] is integrated once, at the parsed order.  A
    form with [adapt_eval] is evaluated by the adaptive scheme: [eval_form]
    computes the coarse estimate with [eval_form_subelement] at
    [order_init], and a value it returns is a value the scheme yields within
    as many subdivisions as there was fuel; conversely every value the scheme
    yields is returned once the fuel covers the depth.  For a volume form the
    coarse estimate and the values of the four sons are the integrals of the
    form, each son on its own geometry, times the scaling factor.  The
    recursion has no depth test of its own: it stops with a read outside the
    cache when the raised order leaves it; on the constant form, whose sums
    are never accepted, it never returns with an order increase of 0, and with
    an order increase of 1 it runs until the order reaches the end of the
    cache.  A DG inner-edge form and a multi-component form are integrated
    once, at the parsed order, with or without [adapt_eval]. *)
Theorem adaptive_evaluation_recurses_until_tolerance
    (surface : option nat) (f : GeomForm (Scalar := Scalar)) :
  (g_adapt_eval f = false ->
   forall fuel order order_init c,
     GeometryCache.eval_form cache_size get_edge_points surface f fuel order order_init c
     = GeometryCache.eval_form_subelement cache_size get_edge_points surface f [] order c)
  /\ (g_adapt_eval f = true ->
      forall fuel order order_init c r c',
        GeometryCache.eval_form cache_size get_edge_points surface f fuel
          order order_init c = Done (r, c') ->
        exists coarse c0,
          GeometryCache.eval_form_subelement cache_size get_edge_points surface f []
            order_init c = Done (coarse, c0)
          /\ adaptive_scheme cache_size get_edge_points surface f fuel []
               order_init coarse c0 r c')
  /\ (g_adapt_eval f = true ->
      forall depth order order_init c coarse c0 r c',
        GeometryCache.eval_form_subelement cache_size get_edge_points surface f []
          order_init c = Done (coarse, c0) ->
        adaptive_scheme cache_size get_edge_points surface f depth []
          order_init coarse c0 r c' ->
        forall fuel, depth <= fuel ->
          GeometryCache.eval_form cache_size get_edge_points surface f fuel
            order order_init c = Done (r, c'))
  /\ (forall transforms order c,
        in_range cache_size order = true ->
        GeometryCache.eval_form_subelement cache_size get_edge_points None f
          transforms order c
        = Done (s_mul (value_on f (seen c order transforms) transforms order)
                      (g_scaling_factor f),
                filled c order transforms)
        /\ exists c',
             evaluate_sons cache_size get_edge_points None f transforms order c
             = Done (map (fun sons_i =>
                            s_mul (value_on f (transforms ++ [sons_i])
                                     (transforms ++ [sons_i]) order)
                                  (g_scaling_factor f))
                         [0; 1; 2; 3],
                     c')
             /\ forall i, c' i = None \/ c' i = c i)
  /\ (forall fuel transforms order_init coarse c,
        in_range cache_size (order_init + g_adapt_order_increase f) = false ->
        GeometryCache.eval_form_adaptive cache_size get_edge_points surface f fuel
          transforms order_init coarse c = Fatal OutOfRange)
  /\ (forall fuel transforms order c,
        in_range cache_size order = true ->
        value_of (GeometryCache.eval_form_adaptive cache_size get_edge_points None
                    (constant_form 0 (1 # 10)) fuel transforms order 1%Q c)
        = OutOfFuel)
  /\ (forall fuel transforms order c,
        (0 <= order)%Z ->
        value_of (GeometryCache.eval_form_adaptive cache_size get_edge_points None
                    (constant_form 1 (1 # 10)) fuel transforms order 1%Q c)
        = if (order + Z.of_nat fuel + 1 <? cache_size)%Z
          then OutOfFuel else Fatal OutOfRange)
  /\ (forall surf_num order c,
        in_range cache_size (get_edge_points surf_num order) = true ->
        eval_dg_form cache_size get_edge_points f surf_num order c
        = Done (s_mul s_half
                  (s_mul (value_on f (seen c (get_edge_points surf_num order) []) []
                            (get_edge_points surf_num order))
                         (g_scaling_factor f)),
                filled c (get_edge_points surf_num order) []))
  /\ (forall (mf : MultiComponentGeomForm (Scalar := Scalar)) order c,
        in_range cache_size (rule_index get_edge_points surface order) = true ->
        eval_form_multicomponent cache_size get_edge_points surface mf order c
        = Done (map (fun r =>
                       match surface with
                       | None => s_mul r (mc_scaling_factor mf)
                       | Some _ => s_mul r (s_mul (mc_scaling_factor mf) s_half)
                       end)
                    (mc_value_on mf
                       (seen c (rule_index get_edge_points surface order) [])
                       (rule_index get_edge_points surface order)),
                filled c (rule_index get_edge_points surface order) [])).
Proof.
  split; [|split; [|split; [|split; [|split; [|split; [|split; [|split]]]]]]].
  - intros Hplain fuel order order_init c. unfold GeometryCache.eval_form.
    now rewrite Hplain.
  - intros Hadapt fuel order order_init c r c' H.
    unfold GeometryCache.eval_form in H. rewrite Hadapt in H. cbn [negb] in H.
    destruct (GeometryCache.eval_form_subelement cache_size get_edge_points surface f []
                order_init c) as [[coarse c0]| |]; try discriminate.
    cbn [bind fst snd] in H. exists coarse, c0. split; [reflexivity|].
    now apply eval_form_adaptive_follows_the_scheme.
  - intros Hadapt depth order order_init c coarse c0 r c' Hcoarse Hscheme fuel Hfuel.
    unfold GeometryCache.eval_form. rewrite Hadapt, Hcoarse. cbn [negb bind fst snd].
    now apply (scheme_is_reached_by_eval_form_adaptive cache_size get_edge_points
                 surface f depth).
  - intros transforms order c Hr. split.
    + now apply eval_form_subelement_volume.
    + destruct (evaluate_sons_volume cache_size get_edge_points f transforms order c Hr)
        as (c' & E & Hem).
      exists c'. split; [exact E|exact Hem].
  - intros fuel transforms order_init coarse c Hr.
    rewrite cached_adaptive_unfold. cbv zeta.
    now rewrite out_of_range_stops by exact Hr.
  - intros fuel transforms order c Hr.
    rewrite constant_form_is_never_accepted.
    now rewrite (stays_in_cache_still cache_size order Hr).
  - intros fuel transforms order c Horder.
    rewrite constant_form_is_never_accepted.
    now rewrite (stays_in_cache_rising cache_size fuel order Horder).
  - intros surf_num order c Hr.
    exact (eval_dg_form_halved cache_size get_edge_points f surf_num order c Hr).
  - intros mf order c Hr. now apply eval_form_multicomponent_once.
Qed.

End AdaptiveScheme.

Section AdaptiveSchemeRuns.

Import Quadrature GeometryCache GeometryCacheExample.

(** The constant form with the tolerance 1 as a volume form: the coarse
    estimate at order 2 is 1, the four sons at order 3 sum to 4, the relative
    error 3/4 is accepted. *)
Lemma adaptive_evaluation_recurses_until_tolerance_witness :
  g_adapt_eval (constant_form 1%Z 1%Q) = true
  /\ exists c',
       eval_form 100%Z numbered_edge_points None (constant_form 1%Z 1%Q) 5 7%Z 2%Z
         empty_cache = Done (4%Q, c').
Proof.
  split; [reflexivity|].
  destruct (adaptive_evaluation_recurses_until_tolerance 100%Z numbered_edge_points
              None (constant_form 1%Z 1%Q)) as (_ & _ & Hreached & _).
  assert (Hscheme : exists c',
             adaptive_scheme 100%Z numbered_edge_points None (constant_form 1%Z 1%Q)
               0 [] 2%Z 1%Q (store empty_cache 2%Z (Some []))
               (sons_sum [1%Q; 1%Q; 1%Q; 1%Q]) c').
  { eexists.
    apply (scheme_accept 100%Z numbered_edge_points None (constant_form 1%Z 1%Q) 0 []
             2%Z 1%Q (store empty_cache 2%Z (Some [])) [1%Q; 1%Q; 1%Q; 1%Q] _).
    - reflexivity.
    - right. reflexivity. }
  destruct Hscheme as [c' Hscheme]. exists c'.
  change 4%Q with (sons_sum [1%Q; 1%Q; 1%Q; 1%Q]).
  apply (Hreached eq_refl 0 7%Z 2%Z empty_cache 1%Q
           (store empty_cache 2%Z (Some [])) _ c' eq_refl Hscheme).
  lia.
Defined.

(** The claim of C6 as stated fails for the forms that [eval_form] does not
    evaluate.  A DG inner-edge form with [adapt_eval] set is integrated once:
    on edge 1 at the parsed order 2 the constant form evaluates to 1/2.  The
    scheme of the claim, from the coarse estimate 1/2, yields 2 and nothing
    else, the sum over the four sons, which the tolerance 1 accepts; that is
    what [eval_form] returns for the same form as a boundary form. *)
Lemma dg_form_is_evaluated_once :
  g_adapt_eval (constant_form 1%Z 1%Q) = true
  /\ value_of (eval_dg_form 100%Z numbered_edge_points (constant_form 1%Z 1%Q) 1 2%Z
                 empty_cache) = Done (1 # 2)%Q
  /\ (forall fuel,
        value_of (eval_form 100%Z numbered_edge_points (Some 1)
                    (constant_form 1%Z 1%Q) fuel 2%Z 2%Z empty_cache) = Done 2%Q)
  /\ (forall depth c r c',
        adaptive_scheme 100%Z numbered_edge_points (Some 1) (constant_form 1%Z 1%Q)
          depth [] 2%Z (1 # 2)%Q c r c' ->
        r = 2%Q)
  /\ (1 # 2)%Q <> 2%Q.
Proof.
  split; [reflexivity|]. split; [reflexivity|]. split; [|split].
  - intros [|fuel]; vm_compute; reflexivity.
  - intros depth c r c' H.
    assert (Hsons : forall vals c1,
               evaluate_sons 100%Z numbered_edge_points (Some 1)
                 (constant_form 1%Z 1%Q) [] (2 + 1)%Z c = Done (vals, c1) ->
               vals = [(1 # 2)%Q; (1 # 2)%Q; (1 # 2)%Q; (1 # 2)%Q]).
    { intros vals c1 Es.
      destruct (evaluate_sons_halved 100%Z numbered_edge_points
                  (constant_form 1%Z 1%Q) 1 [] (2 + 1)%Z c eq_refl eq_refl)
        as (g0 & g1 & g2 & g3 & c'' & E).
      rewrite E in Es. inversion Es. reflexivity. }
    inversion H as [d t o co c0 vals c1 Es Hacc
                   |d t o co c0 vals c1 c2 c3 c4 c5 r0 r1 r2 r3 Es Hneg Htol]; subst.
    + rewrite (Hsons _ _ Es). reflexivity.
    + rewrite (Hsons _ _ Es) in Htol. discriminate.
  - discriminate.
Qed.

End AdaptiveSchemeRuns.
